(** * Caption-Validator: parsers and coverage engine

    A shallow embedding of the Go packages [internal/parser] (WebVTT and
    SRT parsers, their bounded-buffer variants, plain-text extraction) and
    [internal/validator] (interval coverage), with the properties the
    specification states about them, and further properties of the same
    code, of format detection and the file entry points, of the language
    client and of the command [cmd] with its time arguments.

    Conventions of the embedding.
    - A Go [string] is a sequence of bytes: [string] of [ascii].
    - A Go [float64] is read in two ways.  The parsers, the command and
      the module [validator] take it for the exact rational [Q] it
      stands for: rounding, infinities and NaN are outside that reading,
      and order and equality on times are [Qle], [Qlt] and [Qeq].  The
      module [validator64] is the coverage engine on IEEE 754 binary64
      as the processor computes it ([float64], over the executable
      specification [SpecFloat] of the standard library), with rounding
      to nearest, signed zeros, infinities and NaN.  The two agree on
      what only compares and selects times: the merged segments of
      [validator64] are, number for number, those of [validator] (lemma
      [merged_exact]); they differ in the sums, the quotient and the
      roundings, and what is stated of these is stated on
      [validator64].
    - A Go [int] is a [Z]; the counters of the parsers are bounded by the
      number of captions held in memory, so no wrap-around is written.
      The arithmetic of [parseTimeInput] on integers the user gives is
      written with its 64-bit wrap-around.
    - A file is what the code sees of it: its content, its lower-cased
      extension and the output of the command [file].
    - A Go [(T, error)] result is a [result T].
    - The functions of the Go standard library that the code calls are
      modelled in modules named after their packages ([strings], [strconv],
      [bufio], [regexp], [math]).  [strconv.ParseFloat] is left abstract:
      the parsers are defined over any function [string -> option Q]. *)

From Stdlib Require Import ZArith QArith Qround Lqa Lia Bool Ascii String List.
From Stdlib Require Import Sorted Permutation SpecFloat.
From stdpp Require Import gmap strings list.
Import ListNotations.

Local Open Scope string_scope.

(** ** Results and errors *)

(** The [error] values the two packages create or pass on. *)
Inductive error : Type :=
| ErrEmptyFile          (* errors.New("empty file") *)
| ErrEOF                (* io.EOF *)
| ErrMissingHeader      (* errors.New("missing WEBVTT header") *)
| ErrTimeFormat         (* errors.New("invalid time format") *)
| ErrTimestampFormat    (* errors.New("invalid timestamp format") *)
| ErrNum (s : string)   (* the *strconv.NumError of ParseFloat on s *)
| ErrTooLong            (* bufio.ErrTooLong *)
| ErrRange.             (* fmt.Errorf("end time must be greater than start time") *)

Inductive result (A : Type) : Type :=
| Ok (a : A)
| Err (e : error).

Arguments Ok {A} a.
Arguments Err {A} e.

(** The error taxonomy of the specification. *)
Inductive ErrorKind : Type :=
| MissingHeader | InvalidTimestamp | InvalidTimeline | InvalidRange
| IOError | EmptyInput.

Definition kindOf (e : error) : ErrorKind :=
  match e with
  | ErrEmptyFile => EmptyInput
  | ErrEOF => IOError
  | ErrMissingHeader => MissingHeader
  | ErrTimeFormat => InvalidTimeline
  | ErrTimestampFormat => InvalidTimestamp
  | ErrNum _ => InvalidTimestamp
  | ErrTooLong => IOError
  | ErrRange => InvalidRange
  end.

Definition failsWith {A} (r : result A) (k : ErrorKind) : Prop :=
  exists e, r = Err e /\ kindOf e = k.

Definition isErr {A} (r : result A) : bool :=
  match r with Ok _ => false | Err _ => true end.

(** The value of a result, whatever the error. *)
Definition okValue {A} (r : result A) : option A :=
  match r with Ok a => Some a | Err _ => None end.

(** ** Package [strings] *)

Module strings.

(** [strings.HasPrefix(s, prefix)] *)
Definition HasPrefix (s pre : string) : bool := String.prefix pre s.

(** [strings.Contains(s, substr)] *)
Fixpoint Contains (s substr : string) : bool :=
  String.prefix substr s ||
  match s with
  | EmptyString => false
  | String _ r => Contains r substr
  end.

(** [strings.Split(s, sep)] for a non-empty [sep] (every call of the
    parsers passes a literal): the pieces between the successive,
    non-overlapping occurrences of [sep], leftmost first.  [skip] counts
    the bytes of the occurrence still to be passed over and [cur] is the
    piece being read. *)
Fixpoint splitFrom (sep : string) (skip : nat) (cur s : string) : list string :=
  match s with
  | EmptyString => [cur]
  | String c r =>
      match skip with
      | S k => splitFrom sep k cur r
      | O =>
          if String.prefix sep s
          then cur :: splitFrom sep (String.length sep - 1) EmptyString r
          else splitFrom sep 0 (cur ++ String c EmptyString) r
      end
  end.

Definition Split (s sep : string) : list string := splitFrom sep 0 EmptyString s.

(** [strings.Join(elems, sep)] *)
Definition Join (elems : list string) (sep : string) : string :=
  String.concat sep elems.

(** [strings.Replace(s, old, new, n)] for a non-empty [old] and [n >= 0]:
    the first [n] occurrences of [old] become [new]. *)
Fixpoint replaceFrom (old new : string) (skip n : nat) (s : string) : string :=
  match s with
  | EmptyString => EmptyString
  | String c r =>
      match skip with
      | S k => replaceFrom old new k n r
      | O =>
          match n with
          | O => s
          | S n' =>
              if String.prefix old s
              then new ++ replaceFrom old new (String.length old - 1) n' r
              else String c (replaceFrom old new 0 n r)
          end
      end
  end.

Definition Replace (s old new : string) (n : nat) : string :=
  replaceFrom old new 0 n s.

(** The table [asciiSpace] of package strings: tab, line feed, vertical
    tab, form feed, carriage return, space. *)
Definition asciiSpace (c : ascii) : bool :=
  let n := N_of_ascii c in
  ((9 <=? n) && (n <=? 13) || (n =? 32))%N.

(** UTF-8 encodings of the white space of [unicode.IsSpace] above U+007F:
    U+0085 and U+00A0 on two bytes; U+1680, U+2000..U+200A, U+2028,
    U+2029, U+202F, U+205F and U+3000 on three. *)
Definition space2 (c1 c2 : ascii) : bool :=
  let a := N_of_ascii c1 in
  let b := N_of_ascii c2 in
  ((a =? 194) && ((b =? 133) || (b =? 160)))%N.

Definition space3 (c1 c2 c3 : ascii) : bool :=
  let a := N_of_ascii c1 in
  let b := N_of_ascii c2 in
  let c := N_of_ascii c3 in
  ((a =? 225) && (b =? 154) && (c =? 128)
   || (a =? 226) && (b =? 128)
        && ((128 <=? c) && (c <=? 138) || (c =? 168) || (c =? 169) || (c =? 175))
   || (a =? 226) && (b =? 129) && (c =? 159)
   || (a =? 227) && (b =? 128) && (c =? 128))%N.

(** [s] is the encoding of exactly one white-space character. *)
Definition isSpaceRune (s : string) : bool :=
  match s with
  | String c1 EmptyString => asciiSpace c1
  | String c1 (String c2 EmptyString) => space2 c1 c2
  | String c1 (String c2 (String c3 EmptyString)) => space3 c1 c2 c3
  | _ => false
  end.

(** [strings.TrimLeftFunc(s, unicode.IsSpace)]: the leading white-space
    characters are dropped one after the other. *)
Fixpoint trimLeft (s : string) : string :=
  match s with
  | EmptyString => EmptyString
  | String c1 r1 =>
      if asciiSpace c1 then trimLeft r1
      else
        match r1 with
        | EmptyString => s
        | String c2 r2 =>
            if space2 c1 c2 then trimLeft r2
            else
              match r2 with
              | EmptyString => s
              | String c3 r3 => if space3 c1 c2 c3 then trimLeft r3 else s
              end
        end
  end.

(** [strings.TrimRightFunc(s, unicode.IsSpace)]: the trailing white-space
    characters are dropped.  No encoding of a white-space character ends
    with another one, so the last character of [String c r] is a white
    space exactly when [String c (trimRight r)] is one as a whole. *)
Fixpoint trimRight (s : string) : string :=
  match s with
  | EmptyString => EmptyString
  | String c r =>
      let t := String c (trimRight r) in
      if isSpaceRune t then EmptyString else t
  end.

(** [strings.TrimSpace(s)] *)
Definition TrimSpace (s : string) : string := trimRight (trimLeft s).

End strings.

(** ** Package [strconv] *)

Module strconv.

Definition digitVal (c : ascii) : option Z :=
  let n := N_of_ascii c in
  if ((48 <=? n) && (n <=? 57))%N then Some (Z.of_N n - 48)%Z else None.

Fixpoint digits (acc : Z) (s : string) : option Z :=
  match s with
  | EmptyString => Some acc
  | String c r =>
      match digitVal c with
      | Some d => digits (10 * acc + d)%Z r
      | None => None
      end
  end.

(** [strconv.Atoi(s)]: an optional sign and at least one decimal digit,
    nothing else; a value outside the 64-bit [int] is an error too. *)
Definition Atoi (s : string) : option Z :=
  let '(neg, body) :=
    match s with
    | String "+" r => (false, r)
    | String "-" r => (true, r)
    | _ => (false, s)
    end in
  match body with
  | EmptyString => None
  | _ =>
      match digits 0 body with
      | Some n =>
          let v := if neg then (- n)%Z else n in
          if ((- 2 ^ 63 <=? v) && (v <=? 2 ^ 63 - 1))%Z then Some v else None
      | None => None
      end
  end.

(** Plain decimal numbers, [[+-]digits[.digits]]: the part of the grammar
    of [strconv.ParseFloat] that caption timestamps are written in, with
    the exact value.  It instantiates the abstract [ParseFloat] of the
    parsers on concrete inputs. *)
Fixpoint decimalFrom (mant : Z) (scale : positive) (seen frac : bool) (s : string)
  : option Q :=
  match s with
  | EmptyString => if seen then Some (mant # scale) else None
  | String c r =>
      match digitVal c with
      | Some d =>
          decimalFrom (10 * mant + d)%Z (if frac then (10 * scale)%positive else scale)
                      true frac r
      | None =>
          if (N_of_ascii c =? 46)%N && negb frac
          then decimalFrom mant scale seen true r
          else None
      end
  end.

Definition parseDecimal (s : string) : option Q :=
  match s with
  | String "+" r => decimalFrom 0 1 false false r
  | String "-" r => option_map Qopp (decimalFrom 0 1 false false r)
  | _ => decimalFrom 0 1 false false s
  end.

End strconv.

(** ** Package [bufio] *)

Module bufio.

Definition MaxScanTokenSize : Z := 64 * 1024.

(** What decides where a [bufio.Scanner] stops: the length of the buffer
    it was given ([0] when [Buffer] was not called) and the maximal token
    size. *)
Record Scanner : Type := { bufLen : Z; maxTokenSize : Z }.

(** [bufio.NewScanner(r)] *)
Definition NewScanner : Scanner :=
  {| bufLen := 0; maxTokenSize := MaxScanTokenSize |}.

(** [scanner.Buffer(make([]byte, n), max)] *)
Definition Buffer (s : Scanner) (n max : Z) : Scanner :=
  {| bufLen := n; maxTokenSize := max |}.

(** The buffer is doubled while it is shorter than [maxTokenSize] and
    never beyond it; a buffer that is full without holding a whole line
    ends the scan with [ErrTooLong]. *)
Definition capacity (s : Scanner) : Z := Z.max (bufLen s) (maxTokenSize s).

(** [dropCR]: a line loses one trailing carriage return. *)
Fixpoint dropCR (s : string) : string :=
  match s with
  | EmptyString => EmptyString
  | String c EmptyString => if (N_of_ascii c =? 13)%N then EmptyString else s
  | String c r => String c (dropCR r)
  end.

(** The tokens [scanner.Scan()] and [scanner.Text()] deliver with the
    split function [ScanLines], in order, and the value of
    [scanner.Err()] after the last one.  [cur] is the part of the line
    read so far and [n] its length: a line and its line feed have to fit
    in the buffer together, and a last line without line feed has to
    leave one byte free, since the end of the input is only seen by the
    read that follows. *)
Fixpoint scanFrom (cap : Z) (cur : string) (n : Z) (s : string)
  : list string * option error :=
  match s with
  | EmptyString => (if (n =? 0)%Z then [] else [dropCR cur], None)
  | String c r =>
      if (N_of_ascii c =? 10)%N then
        let '(ls, e) := scanFrom cap EmptyString 0 r in (dropCR cur :: ls, e)
      else if (cap <=? n + 1)%Z then ([], Some ErrTooLong)
      else scanFrom cap (cur ++ String c EmptyString) (n + 1)%Z r
  end.

Definition scanLines (sc : Scanner) (input : string) : list string * option error :=
  scanFrom (capacity sc) EmptyString 0 input.

(** What [scanner.Scan()] delivers when it is called again after it has
    returned false.  After the end of the input it delivers nothing.
    After [ErrTooLong] the error is kept and the full buffer goes to the
    split function as the last data of the input: the bytes of the line
    read so far come back as one token, without a trailing carriage
    return, and the call after that delivers nothing. *)
Fixpoint afterErrorFrom (cap : Z) (cur : string) (n : Z) (s : string)
  : list string :=
  match s with
  | EmptyString => []
  | String c r =>
      if (N_of_ascii c =? 10)%N then afterErrorFrom cap EmptyString 0 r
      else if (cap <=? n + 1)%Z then [dropCR (cur ++ String c EmptyString)]
      else afterErrorFrom cap (cur ++ String c EmptyString) (n + 1)%Z r
  end.

Definition afterError (sc : Scanner) (input : string) : list string :=
  afterErrorFrom (capacity sc) EmptyString 0 input.

End bufio.

(** ** Package [regexp] *)

Module regexp.

(** [regexp.MustCompile(`<[^>]*>`).ReplaceAllString(s, "")]: a match
    starts at a ['<'] that has a ['>'] somewhere after it and ends at the
    first such ['>']; matches are taken leftmost first and do not overlap.
    [inTag] tells that a match has been entered. *)
Fixpoint removeTagsFrom (inTag : bool) (s : string) : string :=
  match s with
  | EmptyString => EmptyString
  | String c r =>
      if inTag then removeTagsFrom (negb (N_of_ascii c =? 62)%N) r
      else if (N_of_ascii c =? 60)%N && strings.Contains r ">"
           then removeTagsFrom true r
           else String c (removeTagsFrom false r)
  end.

Definition removeTags (s : string) : string := removeTagsFrom false s.

End regexp.

(** ** Package [math] *)

Module math.

Definition gtb (x y : Q) : bool := negb (Qle_bool x y).

(** [math.Max(x, y)] and [math.Min(x, y)] on finite numbers *)
Definition Max (x y : Q) : Q := if gtb x y then x else y.
Definition Min (x y : Q) : Q := if gtb y x then x else y.

(** [math.Round(x)]: the nearest integer, halves away from zero *)
Definition Round (x : Q) : Q :=
  if Qle_bool 0 x then inject_Z (Qfloor (x + (1 # 2)))
  else inject_Z (- Qfloor (- x + (1 # 2))).

End math.

(** ** Package [parser] *)

Module parser.

(** [type Caption struct] *)
Record Caption : Type := {
  Index : Z;
  StartTime : Q;   (* in seconds *)
  EndTime : Q;     (* in seconds *)
  Text : string
}.

(** The string literal ["\n"]. *)
Definition newline : string := String (ascii_of_N 10) EmptyString.

(** The zero value [Caption{}] of [var currentCaption Caption]. *)
Definition zeroCaption : Caption :=
  {| Index := 0; StartTime := 0; EndTime := 0; Text := EmptyString |}.

Definition bind {A B} (r : result A) (k : A -> result B) : result B :=
  match r with
  | Ok a => k a
  | Err e => Err e
  end.

Notation "'let*' x ':=' r 'in' k" := (bind r (fun x => k))
  (at level 10, x name, r at level 100, k at level 200).

Section Parsers.

(** [strconv.ParseFloat(s, 64)]: the number [s] denotes, or nothing when
    the call returns an error. *)
Variable ParseFloat : string -> option Q.

Definition parseFloat (s : string) : result Q :=
  match ParseFloat s with
  | Some v => Ok v
  | None => Err (ErrNum s)
  end.

(** *** The Format A (WebVTT) parser *)

(** [parseWebVTTTimestamp]: "HH:MM:SS.mmm" or "MM:SS.mmm" to seconds *)
Definition parseWebVTTTimestamp (timestamp : string) : result Q :=
  let parts := strings.Split timestamp ":" in
  match parts with
  | [p0; p1; p2] =>
      let* hours := parseFloat p0 in
      let* minutes := parseFloat p1 in
      let* seconds := parseFloat p2 in
      Ok (hours * 3600 + minutes * 60 + seconds)%Q
  | [p0; p1] =>
      let* minutes := parseFloat p0 in
      let* seconds := parseFloat p1 in
      Ok (minutes * 60 + seconds)%Q
  | _ => Err ErrTimestampFormat
  end.

(** [strings.Split(endTimeStr, " ")[0]] *)
Definition firstField (s : string) : string :=
  match strings.Split s " " with
  | f :: _ => f
  | [] => EmptyString
  end.

(** [parseWebVTTTimeline]: "00:00:10.500 --> 00:00:13.000" *)
Definition parseWebVTTTimeline (line : string) : result (Q * Q) :=
  let line := strings.TrimSpace line in
  let parts := strings.Split line "-->" in
  match parts with
  | [part0; part1] =>
      let startTimeStr := strings.TrimSpace part0 in
      let endTimeStr := strings.TrimSpace part1 in
      let endTimeStr := firstField endTimeStr in
      let* startTime := parseWebVTTTimestamp startTimeStr in
      let* endTime := parseWebVTTTimestamp endTimeStr in
      Ok (startTime, endTime)
  | _ => Err ErrTimeFormat
  end.

(** The variables of the cue loop of [parseWebVTT]. *)
Record vttState : Type := {
  vCaptions : list Caption;
  vCurrent : Caption;
  vInCaption : bool;
  vTextLines : list string;
  vIndex : Z
}.

Definition vttInit : vttState :=
  {| vCaptions := []; vCurrent := zeroCaption; vInCaption := false;
     vTextLines := []; vIndex := 1 |}.

(** [currentCaption.Text = strings.Join(textLines, "\n");
     currentCaption.Index = index;
     captions = append(captions, currentCaption)] *)
Definition vttFlush (st : vttState) : vttState :=
  let current :=
    {| Index := vIndex st; StartTime := StartTime (vCurrent st);
       EndTime := EndTime (vCurrent st);
       Text := strings.Join (vTextLines st) newline |} in
  {| vCaptions := vCaptions st ++ [current]; vCurrent := current;
     vInCaption := vInCaption st; vTextLines := vTextLines st; vIndex := vIndex st |}.

(** [textLines = []string{}; index++] *)
Definition vttNext (st : vttState) : vttState :=
  {| vCaptions := vCaptions st; vCurrent := vCurrent st;
     vInCaption := vInCaption st; vTextLines := []; vIndex := (vIndex st + 1)%Z |}.

Definition vttSetIn (b : bool) (st : vttState) : vttState :=
  {| vCaptions := vCaptions st; vCurrent := vCurrent st;
     vInCaption := b; vTextLines := vTextLines st; vIndex := vIndex st |}.

(** One turn of the cue loop of [parseWebVTT], on the line read. *)
Definition vttStep (st : vttState) (line : string) : result vttState :=
  if String.eqb line EmptyString then
    if vInCaption st then Ok (vttSetIn false (vttNext (vttFlush st)))
    else Ok st
  else if strings.Contains line "-->" then
    let st1 := if vInCaption st then vttNext (vttFlush st) else st in
    let* times := parseWebVTTTimeline line in
    Ok {| vCaptions := vCaptions st1;
          vCurrent := {| Index := 0; StartTime := fst times; EndTime := snd times;
                         Text := EmptyString |};
          vInCaption := true; vTextLines := vTextLines st1; vIndex := vIndex st1 |}
  else if vInCaption st then
    Ok {| vCaptions := vCaptions st; vCurrent := vCurrent st;
          vInCaption := true; vTextLines := vTextLines st ++ [line];
          vIndex := vIndex st |}
  else Ok st.

(** [for scanner.Scan() { ... }]: the body runs on each line until it
    returns an error. *)
Fixpoint runLines {S : Type} (step : S -> string -> result S) (st : S)
  (lines : list string) : result S :=
  match lines with
  | [] => Ok st
  | l :: ls => let* st' := step st l in runLines step st' ls
  end.

(** [for scanner.Scan() { if scanner.Text() == "" { break } }] *)
Fixpoint skipHeader (lines : list string) : list string :=
  match lines with
  | [] => []
  | l :: ls => if String.eqb l EmptyString then ls else skipHeader ls
  end.

(** [if err := scanner.Err(); err != nil { return nil, err }; return captions, nil] *)
Definition finish (scanErr : option error) (captions : list Caption)
  : result (list Caption) :=
  match scanErr with
  | Some e => Err e
  | None => Ok captions
  end.

(** The lines the cue loop reads, [rest] being the lines delivered after
    the first one.  The header loop ends at the first empty line and the
    cue loop goes on from there.  Without an empty line the header loop
    ends when [Scan] returns false, and the cue loop calls [Scan]
    again. *)
Definition cueSection (sc : bufio.Scanner) (input : string) (rest : list string)
  : list string :=
  if existsb (fun l => String.eqb l EmptyString) rest then skipHeader rest
  else bufio.afterError sc input.

(** [parseWebVTT], on the content of the reader *)
Definition parseWebVTT (input : string) : result (list Caption) :=
  let '(lines, scanErr) := bufio.scanLines bufio.NewScanner input in
  match lines with
  | [] => Err ErrEmptyFile
  | first :: rest =>
      if negb (strings.HasPrefix first "WEBVTT") then Err ErrMissingHeader
      else
        let* st := runLines vttStep vttInit
                     (cueSection bufio.NewScanner input rest) in
        finish scanErr (vCaptions (if vInCaption st then vttFlush st else st))
  end.

(** *** The Format B (SRT) parser, srt.go *)

(** [parseSRTTimestamp]: "HH:MM:SS,mmm" to seconds *)
Definition parseSRTTimestamp (timestamp : string) : result Q :=
  let timestamp := strings.Replace timestamp "," "." 1 in
  let parts := strings.Split timestamp ":" in
  match parts with
  | [p0; p1; p2] =>
      let* hours := parseFloat p0 in
      let* minutes := parseFloat p1 in
      let* seconds := parseFloat p2 in
      Ok (hours * 3600 + minutes * 60 + seconds)%Q
  | _ => Ok 0%Q
  end.

(** [parseSRTTimeline]: "00:00:10,500 --> 00:00:13,000" *)
Definition parseSRTTimeline (line : string) : result (Q * Q) :=
  let line := strings.TrimSpace line in
  let parts := strings.Split line "-->" in
  match parts with
  | [part0; part1] =>
      let startTimeStr := strings.TrimSpace part0 in
      let endTimeStr := strings.TrimSpace part1 in
      let* startTime := parseSRTTimestamp startTimeStr in
      let* endTime := parseSRTTimestamp endTimeStr in
      Ok (startTime, endTime)
  | _ => Ok (0%Q, 0%Q)
  end.

(** The variables of the loop of [parseSRT]; [sParseState] is
    0 = index, 1 = timestamp, 2 = text. *)
Record srtState : Type := {
  sCaptions : list Caption;
  sCurrent : Caption;
  sTextLines : list string;
  sParseState : Z
}.

Definition srtInit : srtState :=
  {| sCaptions := []; sCurrent := zeroCaption; sTextLines := []; sParseState := 0 |}.

(** [currentCaption.Text = strings.Join(textLines, "\n");
     captions = append(captions, currentCaption)] *)
Definition srtFlush (st : srtState) : srtState :=
  let current :=
    {| Index := Index (sCurrent st); StartTime := StartTime (sCurrent st);
       EndTime := EndTime (sCurrent st);
       Text := strings.Join (sTextLines st) newline |} in
  {| sCaptions := sCaptions st ++ [current]; sCurrent := current;
     sTextLines := sTextLines st; sParseState := sParseState st |}.

Definition srtSetText (ls : list string) (st : srtState) : srtState :=
  {| sCaptions := sCaptions st; sCurrent := sCurrent st;
     sTextLines := ls; sParseState := sParseState st |}.

Definition srtSetState (n : Z) (st : srtState) : srtState :=
  {| sCaptions := sCaptions st; sCurrent := sCurrent st;
     sTextLines := sTextLines st; sParseState := n |}.

Definition srtSetCurrent (c : Caption) (st : srtState) : srtState :=
  {| sCaptions := sCaptions st; sCurrent := c;
     sTextLines := sTextLines st; sParseState := sParseState st |}.

(** The case [0] of the switch, when [strconv.Atoi] failed: a line with
    an arrow that parses starts a cue without index; otherwise the line
    is text as soon as one caption exists; otherwise it is dropped. *)
Definition srtNoIndex (st : srtState) (line trimmedLine : string) : srtState :=
  let asText :=
    if (0 <? Z.of_nat (length (sCaptions st)))%Z
    then srtSetText (sTextLines st ++ [line]) (srtSetState 2 st)
    else st in
  if strings.Contains trimmedLine "-->" then
    match parseSRTTimeline trimmedLine with
    | Ok times =>
        srtSetState 2
          (srtSetCurrent {| Index := (Z.of_nat (length (sCaptions st)) + 1)%Z;
                            StartTime := fst times; EndTime := snd times;
                            Text := EmptyString |} st)
    | Err _ => asText
    end
  else asText.

(** One turn of the loop of [parseSRT], on the line read. *)
Definition srtStep (st : srtState) (line : string) : result srtState :=
  let trimmedLine := strings.TrimSpace line in
  if String.eqb trimmedLine EmptyString then
    if (0 <? sParseState st)%Z then
      if (0 <? Z.of_nat (length (sTextLines st)))%Z
      then Ok (srtSetState 0 (srtSetText [] (srtFlush st)))
      else Ok (srtSetState 0 st)
    else Ok st
  else
    match sParseState st with
    | 0%Z =>
        match strconv.Atoi trimmedLine with
        | None => Ok (srtNoIndex st line trimmedLine)
        | Some index =>
            Ok (srtSetState 1
                  (srtSetCurrent {| Index := index; StartTime := 0; EndTime := 0;
                                    Text := EmptyString |} st))
        end
    | 1%Z =>
        if strings.Contains trimmedLine "-->" then
          let* times := parseSRTTimeline trimmedLine in
          Ok (srtSetText []
                (srtSetState 2
                   (srtSetCurrent {| Index := Index (sCurrent st);
                                     StartTime := fst times; EndTime := snd times;
                                     Text := Text (sCurrent st) |} st)))
        else Ok (srtSetState 2 (srtSetText (sTextLines st ++ [line]) st))
    | 2%Z => Ok (srtSetText (sTextLines st ++ [line]) st)
    | _ => Ok st
    end.

(** [if parseState > 0 && len(textLines) > 0 { ... append ... }] *)
Definition srtLast (st : srtState) : srtState :=
  if (0 <? sParseState st)%Z && (0 <? Z.of_nat (length (sTextLines st)))%Z
  then srtFlush st else st.

(** [parseSRT], on the content of the reader *)
Definition parseSRT (input : string) : result (list Caption) :=
  let '(lines, scanErr) := bufio.scanLines bufio.NewScanner input in
  let* st := runLines srtStep srtInit lines in
  finish scanErr (sCaptions (srtLast st)).

(** *** The bounded-buffer variants, large_parser.go *)

(** [bufSize := 64 * 1024] *)
Definition bufSize : Z := 64 * 1024.

(** [scanner := bufio.NewScanner(r);
     scanner.Buffer(make([]byte, bufSize), bufSize)] *)
Definition chunkedScanner : bufio.Scanner :=
  bufio.Buffer bufio.NewScanner bufSize bufSize.

(** One turn of the cue loop of [parseChunkedWebVTT]. *)
Definition chunkedVttStep (st : vttState) (line : string) : result vttState :=
  if String.eqb line EmptyString then
    if vInCaption st then
      let st := vttFlush st in
      let st := vttNext st in
      Ok (vttSetIn false st)
    else Ok st
  else if strings.Contains line "-->" then
    let st1 :=
      if vInCaption st then
        let st := vttFlush st in
        vttNext st
      else st in
    match parseWebVTTTimeline line with
    | Err err => Err err
    | Ok (startTime, endTime) =>
        Ok {| vCaptions := vCaptions st1;
              vCurrent := {| Index := 0; StartTime := startTime; EndTime := endTime;
                             Text := EmptyString |};
              vInCaption := true; vTextLines := vTextLines st1; vIndex := vIndex st1 |}
    end
  else if vInCaption st then
    Ok {| vCaptions := vCaptions st; vCurrent := vCurrent st;
          vInCaption := true; vTextLines := vTextLines st ++ [line];
          vIndex := vIndex st |}
  else Ok st.

(** [parseChunkedWebVTT], on the content of the reader *)
Definition parseChunkedWebVTT (input : string) : result (list Caption) :=
  let '(lines, scanErr) := bufio.scanLines chunkedScanner input in
  match lines with
  | [] => Err ErrEOF
  | first :: rest =>
      if negb (strings.HasPrefix first "WEBVTT") then Err ErrMissingHeader
      else
        let* st := runLines chunkedVttStep vttInit
                     (cueSection chunkedScanner input rest) in
        finish scanErr (vCaptions (if vInCaption st then vttFlush st else st))
  end.

(** One turn of the loop of [parseChunkedSRT]. *)
Definition chunkedSrtStep (st : srtState) (line : string) : result srtState :=
  let trimmedLine := strings.TrimSpace line in
  if String.eqb trimmedLine EmptyString then
    if (0 <? sParseState st)%Z then
      let st :=
        if (0 <? Z.of_nat (length (sTextLines st)))%Z
        then srtSetText [] (srtFlush st)
        else st in
      Ok (srtSetState 0 st)
    else Ok st
  else
    match sParseState st with
    | 0%Z =>
        match strconv.Atoi trimmedLine with
        | None =>
            let recovered :=
              if strings.Contains trimmedLine "-->" then
                match parseSRTTimeline trimmedLine with
                | Ok (startTime, endTime) =>
                    Some (srtSetState 2
                            (srtSetCurrent
                               {| Index := (Z.of_nat (length (sCaptions st)) + 1)%Z;
                                  StartTime := startTime; EndTime := endTime;
                                  Text := EmptyString |} st))
                | Err _ => None
                end
              else None in
            match recovered with
            | Some st' => Ok st'
            | None =>
                if (0 <? Z.of_nat (length (sCaptions st)))%Z
                then Ok (srtSetText (sTextLines st ++ [line]) (srtSetState 2 st))
                else Ok st
            end
        | Some index =>
            Ok (srtSetState 1
                  (srtSetCurrent {| Index := index; StartTime := 0; EndTime := 0;
                                    Text := EmptyString |} st))
        end
    | 1%Z =>
        if strings.Contains trimmedLine "-->" then
          match parseSRTTimeline trimmedLine with
          | Err err => Err err
          | Ok (startTime, endTime) =>
              Ok (srtSetText []
                    (srtSetState 2
                       (srtSetCurrent {| Index := Index (sCurrent st);
                                         StartTime := startTime; EndTime := endTime;
                                         Text := Text (sCurrent st) |} st)))
          end
        else Ok (srtSetState 2 (srtSetText (sTextLines st ++ [line]) st))
    | 2%Z => Ok (srtSetText (sTextLines st ++ [line]) st)
    | _ => Ok st
    end.

(** [parseChunkedSRT], on the content of the reader *)
Definition parseChunkedSRT (input : string) : result (list Caption) :=
  let '(lines, scanErr) := bufio.scanLines chunkedScanner input in
  let* st := runLines chunkedSrtStep srtInit lines in
  finish scanErr (sCaptions (srtLast st)).

End Parsers.

(** *** Plain text, parser.go *)

(** [ExtractPlainText]: the loop writes each text without its tags and
    one space to the builder; the builder's content is trimmed. *)
Definition ExtractPlainText (captions : list Caption) : string :=
  let builder :=
    fold_left (fun b caption => b ++ regexp.removeTags (Text caption) ++ " ")
              captions EmptyString in
  strings.TrimSpace builder.

End parser.

(** ** Package [validator] *)

(** The coverage engine in exact arithmetic; [validator64] below is the
    same code on [float64]. *)
Module validator.

Import parser.

Local Open Scope Q_scope.

(** [type ValidationResult struct]; the values of [Data] are all
    [float64] here. *)
Record ValidationResult : Type := {
  Valid : bool;
  Type_ : string;
  Data : gmap string Q
}.

(** [type timeSegment struct] *)
Record timeSegment : Type := { start : Q; end_ : Q }.

(** The first loop of [ValidateCoverage]: the captions that overlap the
    range, clipped to it. *)
Fixpoint clipCaptions (captions : list Caption) (startTime endTime : Q)
  : list timeSegment :=
  match captions with
  | [] => []
  | caption :: rest =>
      if Qle_bool (EndTime caption) startTime || Qle_bool endTime (StartTime caption)
      then clipCaptions rest startTime endTime
      else
        let segStart := math.Max (StartTime caption) startTime in
        let segEnd := math.Min (EndTime caption) endTime in
        {| start := segStart; end_ := segEnd |} :: clipCaptions rest startTime endTime
  end.

(** [if a[i].start > a[j].start { a[i], a[j] = a[j], a[i] }] *)
Definition compareSwap (i j : nat) (a : list timeSegment) : list timeSegment :=
  match a !! i, a !! j with
  | Some x, Some y =>
      if math.gtb (start x) (start y) then <[j := x]> (<[i := y]> a) else a
  | _, _ => a
  end.

(** [for j := ...; j < len(a); j++], with [k] turns left *)
Fixpoint innerLoop (i j k : nat) (a : list timeSegment) : list timeSegment :=
  match k with
  | O => a
  | S k' => innerLoop i (S j) k' (compareSwap i j a)
  end.

(** [for i := ...; i < len(a)-1; i++], with [k] turns left *)
Fixpoint outerLoop (i k : nat) (a : list timeSegment) : list timeSegment :=
  match k with
  | O => a
  | S k' => outerLoop (S i) k' (innerLoop i (S i) (length a - S i) a)
  end.

(** The sort of the segments by start time. *)
Definition sortSegments (a : list timeSegment) : list timeSegment :=
  outerLoop 0 (length a - 1) a.

(** One turn of the merge loop: [last := &merged[len(merged)-1]]. *)
Definition mergeStep (merged : list timeSegment) (current : timeSegment)
  : list timeSegment :=
  let k := (length merged - 1)%nat in
  match merged !! k with
  | Some last =>
      if Qle_bool (start current) (end_ last) then
        if math.gtb (end_ current) (end_ last)
        then <[k := {| start := start last; end_ := end_ current |}]> merged
        else merged
      else merged ++ [current]
  | None => merged
  end.

(** [merged := []timeSegment{coveredSegments[0]}] and the merge loop over
    the segments that follow the first. *)
Definition mergeSorted (sorted : list timeSegment) : list timeSegment :=
  match sorted with
  | [] => []
  | first :: rest => fold_left mergeStep rest [first]
  end.

(** [if len(coveredSegments) > 0 { sort; merge; coveredSegments = merged }] *)
Definition mergeSegments (coveredSegments : list timeSegment) : list timeSegment :=
  if (0 <? length coveredSegments)%nat
  then mergeSorted (sortSegments coveredSegments)
  else coveredSegments.

(** [for _, seg := range coveredSegments { coveredTime += seg.end - seg.start }] *)
Definition sumSegments (segs : list timeSegment) : Q :=
  fold_left (fun coveredTime seg => coveredTime + (end_ seg - start seg)) segs 0.

(** The value of [coveredTime] at line 103. *)
Definition coveredTime (captions : list Caption) (startTime endTime : Q) : Q :=
  sumSegments (mergeSegments (clipCaptions captions startTime endTime)).

(** The value of [coveragePercent] at line 105. *)
Definition coveragePercent (captions : list Caption) (startTime endTime : Q) : Q :=
  (coveredTime captions startTime endTime / (endTime - startTime)) * 100.

(** [math.Round(x*100) / 100] *)
Definition round2 (x : Q) : Q := math.Round (x * 100) / 100.

(** [ValidateCoverage] *)
Definition ValidateCoverage (captions : list Caption)
  (startTime endTime minCoverage : Q) : result ValidationResult :=
  if Qle_bool endTime startTime then Err ErrRange
  else
    let totalTime := endTime - startTime in
    let coveredSegments := clipCaptions captions startTime endTime in
    let coveredSegments := mergeSegments coveredSegments in
    let coveredTime := sumSegments coveredSegments in
    let coveragePercent := (coveredTime / totalTime) * 100 in
    let valid := Qle_bool minCoverage coveragePercent in
    let data : gmap string Q :=
      <["required_coverage" := minCoverage]>
      (<["actual_coverage" := round2 coveragePercent]>
      (<["start_time" := startTime]>
      (<["end_time" := endTime]>
      (<["covered_time" := round2 coveredTime]>
      (<["total_time" := totalTime]> ∅))))) in
    let data :=
      if negb valid
      then <["missing_coverage_seconds" :=
               round2 ((minCoverage / 100) * totalTime - coveredTime)]> data
      else data in
    Ok {| Valid := valid; Type_ := "caption_coverage"; Data := data |}.

End validator.

(** ** The statements of the specification *)

Module spec.

Import parser validator.

Local Open Scope Q_scope.

(** Some caption is on at the instant [x].  An interval holds its start
    and not its end, so that two captions that touch share no instant and
    leave none out. *)
Definition active (captions : list Caption) (x : Q) : Prop :=
  exists c, In c captions /\ StartTime c <= x /\ x < EndTime c.

Definition covers (segs : list timeSegment) (x : Q) : Prop :=
  exists g, In g segs /\ start g <= x /\ x < end_ g.

(** Intervals in increasing order, with a gap between one and the next:
    they are pairwise disjoint and none continues another. *)
Fixpoint separated (segs : list timeSegment) : Prop :=
  match segs with
  | [] => True
  | g :: rest =>
      start g <= end_ g /\
      match rest with
      | [] => True
      | h :: _ => end_ g < start h
      end /\
      separated rest
  end.

Fixpoint totalLength (segs : list timeSegment) : Q :=
  match segs with
  | [] => 0
  | g :: rest => (end_ g - start g) + totalLength rest
  end.

(** [v] is the total length of the union of the caption intervals clipped
    to the window from [S] to [E]: the instants of the window at which a
    caption is on are cut into separated intervals, and [v] is the sum of
    their lengths. *)
Definition unionLength (captions : list Caption) (S E v : Q) : Prop :=
  exists pieces,
    separated pieces /\
    (forall x, covers pieces x <-> (S <= x /\ x < E) /\ active captions x) /\
    v == totalLength pieces.

(** Every caption lies outside the window: it ends at or before the start
    of the window, or starts at or after its end. *)
Definition noOverlap (captions : list Caption) (S E : Q) : Prop :=
  Forall (fun c => EndTime c <= S \/ E <= StartTime c) captions.

(** The plain text in the words of the specification: the texts without
    their tags, joined by single spaces, trimmed. *)
Definition plainText (captions : list Caption) : string :=
  strings.TrimSpace
    (strings.Join (map (fun c => regexp.removeTags (Text c)) captions) " ").

(** A ['<'] with a ['>'] somewhere after it. *)
Fixpoint hasSpan (s : string) : bool :=
  match s with
  | EmptyString => false
  | String c r => (N_of_ascii c =? 60)%N && strings.Contains r ">" || hasSpan r
  end.

(** The lines of a text as they are on disk, the line feeds left out. *)
Fixpoint physicalLines (cur s : string) : list string :=
  match s with
  | EmptyString => [cur]
  | String c r =>
      if (N_of_ascii c =? 10)%N then cur :: physicalLines EmptyString r
      else physicalLines (cur ++ String c EmptyString) r
  end.

(** Every line of the input is shorter than the 64KB ceiling. *)
Definition fitsCeiling (input : string) : Prop :=
  Forall (fun l => (Z.of_nat (String.length l) < 64 * 1024)%Z)
         (physicalLines EmptyString input).

(** A line that the Format B parser does not take for a blank line. *)
Definition nonBlank (l : string) : Prop :=
  String.eqb (strings.TrimSpace l) "" = false.

(** The merge loop as a function of the segment being extended and the
    segments still to come, the closed segments left out; it is equal to
    the loop (lemma [fold_mergeStep_sweep]) and is what the proofs
    follow. *)
Fixpoint sweep (last : timeSegment) (rest : list timeSegment) : list timeSegment :=
  match rest with
  | [] => [last]
  | current :: rest' =>
      if Qle_bool (start current) (end_ last) then
        sweep (if math.gtb (end_ current) (end_ last)
               then {| start := start last; end_ := end_ current |}
               else last) rest'
      else last :: sweep current rest'
  end.

(** Ascending start times. *)
Definition byStart (g h : timeSegment) : Prop := start g <= start h.

(** The first line that is not empty, if there is one. *)
Definition firstNonEmpty (lines : list string) : option string :=
  List.find (fun l => negb (String.eqb l EmptyString)) lines.

End spec.

(** ** Inputs of the tests and of the scenarios *)

Module samples.

Import parser.

(** A text file with the lines given, each closed by a line feed. *)
Definition file (lines : list string) : string :=
  String.concat EmptyString (map (fun l => l ++ newline) lines).

(** The captions of [TestValidateCoverage]. *)
Definition coverageCaptions : list Caption :=
  [ {| Index := 1; StartTime := 10; EndTime := 20; Text := "Caption 1" |};
    {| Index := 2; StartTime := 25; EndTime := 35; Text := "Caption 2" |};
    {| Index := 3; StartTime := 40; EndTime := 55; Text := "Caption 3" |} ].

(** The same captions, later ones first. *)
Definition coverageCaptionsReversed : list Caption := rev coverageCaptions.

(** Two captions that overlap and a third that touches the second. *)
Definition overlappingCaptions : list Caption :=
  [ {| Index := 1; StartTime := 12; EndTime := 20; Text := "b" |};
    {| Index := 2; StartTime := 0; EndTime := 15; Text := "a" |};
    {| Index := 3; StartTime := 20; EndTime := 30; Text := "c" |} ].


(** The captions of [TestExtractPlainText]. *)
Definition textCaptions : list Caption :=
  [ {| Index := 1; StartTime := 0; EndTime := 5;
       Text := "This is the first caption." |};
    {| Index := 2; StartTime := 5; EndTime := 10;
       Text := "This is the <b>second</b> caption." |};
    {| Index := 3; StartTime := 10; EndTime := 15;
       Text := "This is the" ++ newline ++ "third caption." |} ].

(** The input of [TestParseWebVTT]. *)
Definition webvttContent : string :=
  file [ "WEBVTT"; "";
         "1"; "00:00:01.000 --> 00:00:04.000"; "This is the first caption."; "";
         "2"; "00:00:05.000 --> 00:00:09.000"; "This is the second caption." ].

(** The input of [TestParseSRT]. *)
Definition srtContent : string :=
  file [ "1"; "00:00:01,000 --> 00:00:04,000"; "This is the first caption."; "";
         "2"; "00:00:05,000 --> 00:00:09,000"; "This is the second caption.";
         "It has multiple lines."; "";
         "3"; "00:00:10,000 --> 00:00:14,000"; "This is the third caption." ].

(** Two Format B cue blocks without the blank line between them. *)
Definition srtTwoBlocks : string :=
  file [ "1"; "00:00:01,000 --> 00:00:04,000"; "First caption";
         "2"; "00:00:05,000 --> 00:00:09,000"; "Second caption" ].

(** A Format A file that starts with an empty line. *)
Definition webvttLeadingBlank : string :=
  file [ ""; "WEBVTT"; ""; "00:00:01.000 --> 00:00:04.000"; "Hello" ].

End samples.

(** ** Files made of cues *)

Module layout.

Import parser.

(** A cue as it stands in a file: the lines before its timeline (an
    index, an identifier, a comment), the timeline, the lines of its
    text, and the lines that separate it from what follows. *)
Record cue : Type := {
  cueBefore : list string;
  cueTimeline : string;
  cueText : list string;
  cueAfter : list string
}.

Definition cueLines (q : cue) : list string :=
  cueBefore q ++ cueTimeline q :: cueText q ++ cueAfter q.

(** A line that the Format B parser takes for a blank line. *)
Definition blank (l : string) : Prop :=
  String.eqb (strings.TrimSpace l) "" = true.

(** A line without the arrow, and one that is not empty either. *)
Definition noArrow (l : string) : Prop := strings.Contains l "-->" = false.

Definition textLine (l : string) : Prop :=
  String.eqb l "" = false /\ strings.Contains l "-->" = false.

Section Cues.

Variable ParseFloat : string -> option Q.

(** The caption [c] is what the cue [q] of a Format B file says, when
    [n] captions stand before it: the index is the number on the index
    line, or [n + 1] when the cue has no index line; the times are those
    of the timeline; the text is the text lines, which are not blank and
    at least one; a blank line follows. *)
Definition srtCaption (n : nat) (q : cue) (c : Caption) : Prop :=
  match cueBefore q with
  | [] => Index c = (Z.of_nat n + 1)%Z
  | [l] => strconv.Atoi (strings.TrimSpace l) = Some (Index c)
  | _ => False
  end /\
  strings.Contains (strings.TrimSpace (cueTimeline q)) "-->" = true /\
  parseSRTTimeline ParseFloat (strings.TrimSpace (cueTimeline q))
  = Ok (StartTime c, EndTime c) /\
  cueText q <> [] /\
  Forall spec.nonBlank (cueText q) /\
  cueAfter q <> [] /\
  Forall blank (cueAfter q) /\
  Text c = strings.Join (cueText q) newline.

Fixpoint srtCaptions (n : nat) (qs : list cue) (cs : list Caption) : Prop :=
  match qs, cs with
  | [], [] => True
  | q :: qs', c :: cs' => srtCaption n q c /\ srtCaptions (S n) qs' cs'
  | _, _ => False
  end.

(** The caption [c] is what the cue [q] of a Format A file says as the
    cue number [k]: the index is [k], whatever the lines before the
    timeline, which have no arrow; the times are those of the timeline;
    the text is the text lines, not empty and without arrow; the lines
    after the cue are empty. *)
Definition vttCaption (k : Z) (q : cue) (c : Caption) : Prop :=
  Index c = k /\
  Forall noArrow (cueBefore q) /\
  strings.Contains (cueTimeline q) "-->" = true /\
  parseWebVTTTimeline ParseFloat (cueTimeline q) = Ok (StartTime c, EndTime c) /\
  Forall textLine (cueText q) /\
  Forall (fun l => l = EmptyString) (cueAfter q) /\
  Text c = strings.Join (cueText q) newline.

(** The cues of a Format A file and their captions, numbered from [k]
    on; a cue that no empty line follows is followed by the timeline of
    the next cue at once, or by nothing. *)
Fixpoint vttCaptions (k : Z) (qs : list cue) (cs : list Caption) : Prop :=
  match qs, cs with
  | [], [] => True
  | q :: qs', c :: cs' =>
      vttCaption k q c /\
      (cueAfter q = [] ->
       match qs' with
       | [] => True
       | q' :: _ => cueBefore q' = []
       end) /\
      vttCaptions (k + 1)%Z qs' cs'
  | _, _ => False
  end.

End Cues.

(** The captions a Format A parse has collected, the cue still open
    counted in. *)
Definition vttDone (st : vttState) : list Caption :=
  vCaptions (if vInCaption st then vttFlush st else st).

(** Captions numbered 1, 2, 3, ... in their order. *)
Definition numbered (cs : list Caption) : Prop :=
  forall i c, cs !! i = Some c -> Index c = (Z.of_nat i + 1)%Z.

(** What the loop keeps: the captions collected are numbered from 1 and
    the counter is one more than their number. *)
Definition counted (st : vttState) : Prop :=
  numbered (vCaptions st) /\ vIndex st = (Z.of_nat (length (vCaptions st)) + 1)%Z.

(** The number of lines with an arrow. *)
Definition arrowLines (lines : list string) : nat :=
  length (List.filter (fun l => strings.Contains l "-->") lines).

End layout.

(** ** Command [cmd]: the time arguments, main.go *)

Module cmd.

(** [strings.HasSuffix(s, suffix)]:
    [len(s) >= len(suffix) && s[len(s)-len(suffix):] == suffix] *)
Definition HasSuffix (s suffix : string) : bool :=
  (String.length suffix <=? String.length s)%nat &&
  String.eqb
    (String.substring (String.length s - String.length suffix)
       (String.length suffix) s)
    suffix.

(** [strings.TrimSuffix(s, suffix)]:
    [if HasSuffix(s, suffix) { return s[:len(s)-len(suffix)] }; return s] *)
Definition TrimSuffix (s suffix : string) : string :=
  if HasSuffix s suffix
  then String.substring 0 (String.length s - String.length suffix) s
  else s.

(** The errors of [parseTimeInput], each with the string its message
    shows: the one [strconv] could not parse, or the time string. *)
Inductive timeError : Type :=
| InvalidHours (s : string)       (* fmt.Errorf("invalid hours: %v", err) *)
| InvalidMinutes (s : string)     (* fmt.Errorf("invalid minutes: %v", err) *)
| InvalidSeconds (s : string)     (* fmt.Errorf("invalid seconds: %v", err) *)
| InvalidTimeFormat (s : string). (* fmt.Errorf("invalid time format: %s", timeStr) *)

Inductive timeResult : Type :=
| TimeOk (seconds : Q)
| TimeErr (e : timeError).

(** The 64-bit [int]: products and sums wrap around. *)
Definition wrap64 (z : Z) : Z := ((z + 2 ^ 63) mod 2 ^ 64 - 2 ^ 63)%Z.
Definition mul64 (a b : Z) : Z := wrap64 (a * b).
Definition add64 (a b : Z) : Z := wrap64 (a + b).

Section TimeInput.

Local Open Scope Q_scope.

Variable ParseFloat : string -> option Q.

(** One unit of the extended format, hours then minutes:
    [parts := strings.Split(timeStr, unit);
     if len(parts) > 1 {
       v, err := strconv.ParseFloat(parts[0], 64)
       if err == nil { total += v * factor }
       timeStr = parts[1] }] *)
Definition unitPart (unit : string) (factor : Q) (acc : Q * string) : Q * string :=
  let '(total, timeStr) := acc in
  match strings.Split timeStr unit with
  | p0 :: p1 :: _ =>
      (match ParseFloat p0 with
       | Some v => total + v * factor
       | None => total
       end, p1)
  | _ => (total, timeStr)
  end.

(** [sParts := strings.Split(timeStr, "s");
     if len(sParts) > 0 {
       s, err := strconv.ParseFloat(sParts[0], 64)
       if err == nil { total += s } }] *)
Definition secondsPart (acc : Q * string) : Q * string :=
  let '(total, timeStr) := acc in
  match strings.Split timeStr "s" with
  | p0 :: _ =>
      (match ParseFloat p0 with
       | Some v => total + v
       | None => total
       end, timeStr)
  | [] => (total, timeStr)
  end.

(** The body of the extended format: the total and the time string as
    the block leaves it. *)
Definition extended (timeStr : string) : Q * string :=
  secondsPart (unitPart "m" 60 (unitPart "h" 3600 (0, timeStr))).

(** The last part of [parseTimeInput]: [HH:MM:SS] or [MM:SS]. *)
Definition clock (timeStr : string) : timeResult :=
  match strings.Split timeStr ":" with
  | [p0; p1; p2] =>
      match strconv.Atoi p0 with
      | None => TimeErr (InvalidHours p0)
      | Some h =>
          match strconv.Atoi p1 with
          | None => TimeErr (InvalidMinutes p1)
          | Some m =>
              match ParseFloat p2 with
              | None => TimeErr (InvalidSeconds p2)
              | Some s =>
                  TimeOk (inject_Z (add64 (mul64 h 3600) (mul64 m 60)) + s)
              end
          end
      end
  | [p0; p1] =>
      match strconv.Atoi p0 with
      | None => TimeErr (InvalidMinutes p0)
      | Some m =>
          match ParseFloat p1 with
          | None => TimeErr (InvalidSeconds p1)
          | Some s => TimeOk (inject_Z (mul64 m 60) + s)
          end
      end
  | _ => TimeErr (InvalidTimeFormat timeStr)
  end.

(** [parseTimeInput] *)
Definition parseTimeInput (timeStr : string) : timeResult :=
  match ParseFloat timeStr with
  | Some seconds => TimeOk seconds
  | None =>
      match (if HasSuffix timeStr "h"
             then ParseFloat (TrimSuffix timeStr "h") else None) with
      | Some h => TimeOk (h * 3600)
      | None =>
          match (if HasSuffix timeStr "m"
                 then ParseFloat (TrimSuffix timeStr "m") else None) with
          | Some m => TimeOk (m * 60)
          | None =>
              if strings.Contains timeStr "h" || strings.Contains timeStr "m"
                 || strings.Contains timeStr "s"
              then
                let '(total, rest) := extended timeStr in
                if math.gtb total 0 then TimeOk total else clock rest
              else clock timeStr
          end
      end
  end.

End TimeInput.

(** The outcome of [parseTimeInput] is [v] seconds, up to the equality
    of rationals. *)
Definition gives (r : timeResult) (v : Q) : Prop :=
  match r with
  | TimeOk q => Qeq q v
  | TimeErr _ => False
  end.

(** The value of a component of the extended format: what does not parse
    counts for nothing. *)
Definition component (x : option Q) : Q :=
  match x with
  | Some v => v
  | None => 0
  end.

End cmd.

(** ** Files: format detection and the entry points, parser.go and
       large_parser.go *)

Module fileparser.

Import parser.

(** Regular expressions over bytes, matched by derivatives: what
    [regexp.MustCompile(...).Match] decides for an expression anchored
    at the start of the text. *)
Inductive re : Type :=
| Nul                          (* no string *)
| Eps                          (* the empty string *)
| Cls (p : ascii -> bool)      (* one byte of a class *)
| Cat (r1 r2 : re)
| Alt (r1 r2 : re)
| Star (r : re).

Fixpoint nullable (r : re) : bool :=
  match r with
  | Nul => false
  | Eps => true
  | Cls _ => false
  | Cat r1 r2 => nullable r1 && nullable r2
  | Alt r1 r2 => nullable r1 || nullable r2
  | Star _ => true
  end.

Fixpoint deriv (c : ascii) (r : re) : re :=
  match r with
  | Nul => Nul
  | Eps => Nul
  | Cls p => if p c then Eps else Nul
  | Cat r1 r2 =>
      if nullable r1 then Alt (Cat (deriv c r1) r2) (deriv c r2)
      else Cat (deriv c r1) r2
  | Alt r1 r2 => Alt (deriv c r1) (deriv c r2)
  | Star r1 => Cat (deriv c r1) (Star r1)
  end.

(** Some prefix of [s] is in the language of [r]. *)
Fixpoint matchPrefix (r : re) (s : string) : bool :=
  nullable r ||
  match s with
  | EmptyString => false
  | String c s' => matchPrefix (deriv c r) s'
  end.

(** [\d], [\s] and a literal byte *)
Definition isDigit (c : ascii) : bool :=
  (48 <=? N_of_ascii c)%N && (N_of_ascii c <=? 57)%N.
Definition isSpace (c : ascii) : bool :=
  let n := N_of_ascii c in
  ((n =? 9) || (n =? 10) || (n =? 12) || (n =? 13) || (n =? 32))%N.
Definition digit : re := Cls isDigit.
Definition space : re := Cls isSpace.
Definition lit (x : ascii) : re := Cls (Ascii.eqb x).

Fixpoint cats (rs : list re) : re :=
  match rs with
  | [] => Eps
  | r :: rs' => Cat r (cats rs')
  end.

(** [regexp.MustCompile(`^\d+\s*\r?\n\d{2}:\d{2}:\d{2},\d{3}\s*-->`)] *)
Definition srtSignature : re :=
  cats [digit; Star digit; Star space; Alt (lit "013") Eps; lit "010";
        digit; digit; lit ":"; digit; digit; lit ":"; digit; digit; lit ",";
        digit; digit; digit; Star space; lit "-"; lit "-"; lit ">"].

Definition FormatWebVTT : string := "WebVTT".
Definition FormatSRT : string := "SRT".

(** What the functions see of the file at [filePath]: its content, when
    it can be opened and read; the value of
    [strings.ToLower(filepath.Ext(filePath))]; and the lower-cased
    output of the command [file], empty when the command fails. *)
Record File : Type := {
  content : option string;
  ext : string;
  fileType : string
}.

Inductive fileError : Type :=
| OsError                      (* the error of os.Open or of file.Read *)
| ErrUnsupportedFormat         (* errors.New("unsupported caption format") *)
| ParseError (e : error).      (* the error of the parser *)

Inductive fileResult (A : Type) : Type :=
| FileOk (a : A)
| FileErr (e : fileError).

Arguments FileOk {A} a.
Arguments FileErr {A} e.

(** [header := make([]byte, 100); n, err := file.Read(header);
     header = header[:n]] *)
Definition header (input : string) : string := String.substring 0 100 input.

(** [DetectCaptionFormat] *)
Definition DetectCaptionFormat (f : File) : fileResult string :=
  match content f with
  | None => FileErr OsError
  | Some input =>
      let header := header input in
      if strings.HasPrefix header "WEBVTT" || strings.Contains header "WEBVTT"
      then FileOk FormatWebVTT
      else if String.eqb (ext f) ".srt" || strings.Contains (fileType f) "subrip"
              || matchPrefix srtSignature header
      then FileOk FormatSRT
      else FileErr ErrUnsupportedFormat
  end.

Section Entry.

Variable ParseFloat : string -> option Q.

(** The body shared by [ParseCaptionsFile] and [ParseLargeCaptionsFile],
    which differ by the two parsers they call. *)
Definition parseFileWith (webvtt srt : string -> result (list Caption)) (f : File)
  : fileResult (list Caption * string) :=
  match DetectCaptionFormat f with
  | FileErr e => FileErr e
  | FileOk format =>
      match content f with
      | None => FileErr OsError
      | Some input =>
          let parsed :=
            if String.eqb format FormatWebVTT then Some (webvtt input)
            else if String.eqb format FormatSRT then Some (srt input)
            else None in
          match parsed with
          | None => FileErr ErrUnsupportedFormat
          | Some (Err e) => FileErr (ParseError e)
          | Some (Ok captions) => FileOk (captions, format)
          end
      end
  end.

(** [ParseCaptionsFile] *)
Definition ParseCaptionsFile (f : File) : fileResult (list Caption * string) :=
  parseFileWith (parseWebVTT ParseFloat) (parseSRT ParseFloat) f.

(** [ParseLargeCaptionsFile] *)
Definition ParseLargeCaptionsFile (f : File) : fileResult (list Caption * string) :=
  parseFileWith (parseChunkedWebVTT ParseFloat) (parseChunkedSRT ParseFloat) f.

End Entry.

(** Every byte of [s] is in the class [p]. *)
Fixpoint every (p : ascii -> bool) (s : string) : bool :=
  match s with
  | EmptyString => true
  | String c r => p c && every p r
  end.

(** The strings of the language of an expression. *)
Fixpoint lang (r : re) (s : string) : Prop :=
  match r with
  | Nul => False
  | Eps => s = EmptyString
  | Cls p => exists c, s = String c EmptyString /\ p c = true
  | Cat r1 r2 => exists s1 s2, s = s1 ++ s2 /\ lang r1 s1 /\ lang r2 s2
  | Alt r1 r2 => lang r1 s \/ lang r2 s
  | Star r1 =>
      exists ss, s = String.concat EmptyString ss /\
                 List.Forall (fun x => x <> EmptyString /\ lang r1 x) ss
  end.

End fileparser.

(** ** The language client and the command, client.go and main.go *)

Module client.

(** What the request of [ValidateLanguage] comes to: no response (the
    request cannot be built or sent, or times out), or a response with
    its status code and the [lang] field its body decodes to, if it
    decodes. *)
Inductive apiAnswer : Type :=
| NoResponse
| Response (status : Z) (lang : option string).

Record LanguageValidationResult : Type := {
  Valid : bool;
  Type_ : string;
  Language : string;
  ExpectedLang : string
}.

(** [ValidateLanguage], on the answer of the API; the errors, which the
    command only logs, are not told apart. *)
Definition ValidateLanguage (answer : apiAnswer) : option LanguageValidationResult :=
  match answer with
  | NoResponse => None
  | Response status lang =>
      if negb (status =? 200)%Z then None
      else
        match lang with
        | None => None
        | Some l =>
            Some {| Valid := String.eqb l "en-US"; Type_ := "incorrect_language";
                    Language := l; ExpectedLang := "en-US" |}
        end
  end.

End client.

Module command.

Import parser cmd fileparser.

(** What [main] prints on the standard output. *)
Inductive printed : Type :=
| FileNotFound (path : string)
| UnsupportedFormat (path : string)
| CoverageFailure (r : validator.ValidationResult)    (* coverageResult.JSON() *)
| LanguageFailure (r : client.LanguageValidationResult). (* langResult.JSON() *)

(** What [flag.Parse] makes of the command line.  The flag set of the
    command handles errors with [flag.ExitOnError]: when [-h] or [-help]
    is given and no such flag is defined, the usage is printed on the
    standard error and the program ends with [os.Exit(0)]; when the
    command line names a flag that is not defined, or gives a flag a
    value that does not parse, the error and the usage are printed on
    the standard error and the program ends with [os.Exit(2)]; otherwise
    the flags are set and the other arguments are left. *)
Inductive flagParse : Type :=
| FlagsSet
| HelpAsked
| BadFlag.

(** An invocation: what [flag.Parse] makes of the command line, the
    flags and the arguments left when it sets them, and what the
    environment answers: whether the log file opens, whether [os.Stat]
    finds no file at a path, the file at a path, and the answer of the
    API at a URL for a text.  The threshold and the times are numbers:
    the infinities and NaN, which [strconv.ParseFloat] also reads, are
    outside the model. *)
Record invocation : Type := {
  logOpens : bool;
  flags : flagParse;
  coverage : Q;
  t_start : string;
  t_end : string;
  api : string;
  args : list string;
  notExist : string -> bool;
  fileAt : string -> File;
  answer : string -> string -> client.apiAnswer
}.

Section Main.

Variable ParseFloat : string -> option Q.

(** [main]: what is printed on the standard output, and the exit code.
    The log is left out. *)
Definition main (w : invocation) : list printed * Z :=
  if negb (logOpens w) then ([], 1%Z)
  else
    match flags w with
    | BadFlag => ([], 2%Z)
    | HelpAsked => ([], 0%Z)
    | FlagsSet =>
    match args w with
    | [captionsPath] =>
        if notExist w captionsPath then ([FileNotFound captionsPath], 1%Z)
        else
          match parseTimeInput ParseFloat (t_start w) with
          | TimeErr _ => ([], 1%Z)
          | TimeOk startSec =>
              if String.eqb (t_end w) "" then ([], 1%Z)
              else
                match parseTimeInput ParseFloat (t_end w) with
                | TimeErr _ => ([], 1%Z)
                | TimeOk endSec =>
                    match ParseCaptionsFile ParseFloat (fileAt w captionsPath) with
                    | FileErr ErrUnsupportedFormat =>
                        ([UnsupportedFormat captionsPath], 1%Z)
                    | FileErr _ => ([], 1%Z)
                    | FileOk (captions, format) =>
                        let plainText := ExtractPlainText captions in
                        match validator.ValidateCoverage captions startSec endSec
                                (coverage w) with
                        | Err _ => ([], 1%Z)
                        | Ok coverageResult =>
                            let out :=
                              if validator.Valid coverageResult then []
                              else [CoverageFailure coverageResult] in
                            if negb (String.eqb (api w) "") then
                              match client.ValidateLanguage
                                      (answer w (api w) plainText) with
                              | None => (out, 0%Z)
                              | Some langResult =>
                                  if client.Valid langResult then (out, 0%Z)
                                  else ((out ++ [LanguageFailure langResult])%list, 1%Z)
                              end
                            else (out, 0%Z)
                        end
                    end
                end
          end
    | _ => ([], 1%Z)
    end
    end.

End Main.

(** The same invocation with another coverage threshold. *)
Definition withCoverage (c : Q) (w : invocation) : invocation :=
  {| logOpens := logOpens w; flags := flags w; coverage := c; t_start := t_start w;
     t_end := t_end w; api := api w; args := args w; notExist := notExist w;
     fileAt := fileAt w; answer := answer w |}.

End command.

(** ** More inputs for the instances *)

Module examples.

Import parser validator layout fileparser samples.

(** Two Format B cues: the second without index line, with two text
    lines and two blank lines after it. *)
Definition srtCues : list cue :=
  [ {| cueBefore := ["1"]; cueTimeline := "00:00:01,000 --> 00:00:04,000";
       cueText := ["First"]; cueAfter := [""] |};
    {| cueBefore := []; cueTimeline := "00:00:05,000 --> 00:00:09,000";
       cueText := ["Second"; "line"]; cueAfter := [""; " "] |} ].

Definition srtCuesCaptions : list Caption :=
  [ {| Index := 1;
       StartTime := (0 * 3600 + 0 * 60 + (1000 # 1000))%Q;
       EndTime := (0 * 3600 + 0 * 60 + (4000 # 1000))%Q;
       Text := "First" |};
    {| Index := 2;
       StartTime := (0 * 3600 + 0 * 60 + (5000 # 1000))%Q;
       EndTime := (0 * 3600 + 0 * 60 + (9000 # 1000))%Q;
       Text := "Second" ++ newline ++ "line" |} ].

(** One Format B cue, and the same followed by a line of text. *)
Definition srtOneCue : list cue :=
  [ {| cueBefore := ["7"]; cueTimeline := "00:00:01,000 --> 00:00:04,000";
       cueText := ["First"]; cueAfter := [""] |} ].

Definition srtOneCaption : Caption :=
  {| Index := 7;
     StartTime := (0 * 3600 + 0 * 60 + (1000 # 1000))%Q;
     EndTime := (0 * 3600 + 0 * 60 + (4000 # 1000))%Q;
     Text := "First" |}.

(** A Format B file whose timeline has a letter in its seconds. *)
Definition srtBadTimeline : string :=
  file [ "1"; "00:00:0x,000 --> 00:00:04,000"; "Text" ].

(** The cues and the captions of [TestParseWebVTT]. *)
Definition webvttCues : list cue :=
  [ {| cueBefore := ["1"]; cueTimeline := "00:00:01.000 --> 00:00:04.000";
       cueText := ["This is the first caption."]; cueAfter := [""] |};
    {| cueBefore := ["2"]; cueTimeline := "00:00:05.000 --> 00:00:09.000";
       cueText := ["This is the second caption."]; cueAfter := [] |} ].

Definition webvttCaptions : list Caption :=
  [ {| Index := 1;
       StartTime := (0 * 3600 + 0 * 60 + (1000 # 1000))%Q;
       EndTime := (0 * 3600 + 0 * 60 + (4000 # 1000))%Q;
       Text := "This is the first caption." |};
    {| Index := 2;
       StartTime := (0 * 3600 + 0 * 60 + (5000 # 1000))%Q;
       EndTime := (0 * 3600 + 0 * 60 + (9000 # 1000))%Q;
       Text := "This is the second caption." |} ].

(** A Format A file whose timeline has a letter in its seconds. *)
Definition webvttBadTimeline : string :=
  file [ "WEBVTT"; ""; "00:00:0x.000 --> 00:00:04.000"; "Text" ].

(** A Format B file that mentions the other format in its first cue. *)
Definition srtAboutWebVTT : File :=
  {| content := Some (file [ "1"; "00:00:01,000 --> 00:00:04,000";
                             "WEBVTT is a caption format" ]);
     ext := ".srt"; fileType := "" |}.

(** A Format B file that starts with a blank line, under another
    extension. *)
Definition srtLeadingBlank : File :=
  {| content := Some (file [ ""; "1"; "00:00:01,000 --> 00:00:04,000"; "Hi" ]);
     ext := ".txt"; fileType := "" |}.

(** A Format B file under another extension. *)
Definition srtAsText : File :=
  {| content := Some (file [ "1"; "00:00:01,000 --> 00:00:04,000"; "Hi" ]);
     ext := ".txt"; fileType := "" |}.

(** The command on the captions of [TestParseSRT], from 0 to 60 seconds
    with the default threshold and without language check. *)
Definition lowCoverageRun : command.invocation :=
  {| command.logOpens := true; command.flags := command.FlagsSet;
     command.coverage := 95;
     command.t_start := "0"; command.t_end := "1:00";
     command.api := ""; command.args := ["captions.srt"];
     command.notExist := fun _ => false;
     command.fileAt := fun _ => {| content := Some srtContent; ext := ".srt";
                                   fileType := "" |};
     command.answer := fun _ _ => client.NoResponse |}.

End examples.

(** ** Text files by their lines *)

Module textfile.

Import parser.

(** Carriage return and line feed, the line ending of Windows. *)
Definition crlf : string := String "013" newline.

(** A text file with the lines given, each closed by [crlf]. *)
Definition fileCRLF (lines : list string) : string :=
  String.concat EmptyString (map (fun l => l ++ crlf) lines).

(** A line as an editor shows it: no line feed inside, no carriage
    return at its end, and short enough for the scanner with its line
    ending. *)
Definition scannable (l : string) : Prop :=
  strings.Contains l newline = false /\
  bufio.dropCR l = l /\
  (Z.of_nat (String.length l) + 1 < bufio.MaxScanTokenSize)%Z.

End textfile.

(** ** The coverage engine on [float64] *)

(** The type [float64] and its arithmetic as the processor computes
    them: IEEE 754 binary64, every operation rounded to the nearest
    value, ties to even, with signed zeros, infinities and NaN. *)
Module float64.

Definition float64 : Type := spec_float.

Definition prec : Z := 53.
Definition emax : Z := 1024.

Definition add : float64 -> float64 -> float64 := SFadd prec emax.
Definition sub : float64 -> float64 -> float64 := SFsub prec emax.
Definition mul : float64 -> float64 -> float64 := SFmul prec emax.
Definition div : float64 -> float64 -> float64 := SFdiv prec emax.

(** [x == y], [x < y] and [x <= y]; [x > y] is [ltb y x] and [x >= y] is
    [leb y x].  Every comparison with NaN is false. *)
Definition eqb : float64 -> float64 -> bool := SFeqb.
Definition ltb : float64 -> float64 -> bool := SFltb.
Definition leb : float64 -> float64 -> bool := SFleb.

(** The [float64] nearest to [m * 2^e], and the one of an integer. *)
Definition ofBits (m e : Z) : float64 := binary_normalize prec emax m e false.
Definition ofZ (n : Z) : float64 := ofBits n 0.

Definition zero : float64 := S754_zero false.
Definition negZero : float64 := S754_zero true.

(** [x >= 0] *)
Definition nonNegative (x : float64) : bool := leb zero x.

(** A [float64] that is a number: a zero, or a mantissa of at most 53
    bits with its exponent, in the normal form of the format. *)
Definition finite (x : float64) : bool :=
  match x with
  | S754_zero _ => true
  | S754_finite _ m e => bounded prec emax m e
  | _ => false
  end.

(** The number a finite [float64] stands for, counted in units of
    [2^-1074], the least positive [float64]; and the number itself. *)
Definition scaled (x : float64) : Z :=
  match x with
  | S754_finite s m e => ((if s then Z.neg m else Z.pos m) * 2 ^ (e + 1074))%Z
  | _ => 0%Z
  end.

Definition value (x : float64) : Q := Qmake (scaled x) (2 ^ 1074).

Definition IsNaN (x : float64) : bool :=
  match x with S754_nan => true | _ => false end.

(** [math.IsInf(x, 1)] and [math.IsInf(x, -1)] *)
Definition isPosInf (x : float64) : bool :=
  match x with S754_infinity false => true | _ => false end.
Definition isNegInf (x : float64) : bool :=
  match x with S754_infinity true => true | _ => false end.

(** [math.Signbit(x)], where it is asked of a zero. *)
Definition Signbit (x : float64) : bool :=
  match x with
  | S754_zero s | S754_infinity s | S754_finite s _ _ => s
  | S754_nan => false
  end.

(** [math.Max(x, y)]:
    [switch { case IsInf(x, 1) || IsInf(y, 1): return Inf(1)
              case IsNaN(x) || IsNaN(y): return NaN()
              case x == 0 && x == y: if Signbit(x) { return y }; return x }
     if x > y { return x }; return y] *)
Definition Max (x y : float64) : float64 :=
  if isPosInf x || isPosInf y then S754_infinity false
  else if IsNaN x || IsNaN y then S754_nan
  else if eqb x zero && eqb x y then (if Signbit x then y else x)
  else if ltb y x then x else y.

(** [math.Min(x, y)]:
    [switch { case IsInf(x, -1) || IsInf(y, -1): return Inf(-1)
              case IsNaN(x) || IsNaN(y): return NaN()
              case x == 0 && x == y: if Signbit(x) { return x }; return y }
     if x < y { return x }; return y] *)
Definition Min (x y : float64) : float64 :=
  if isNegInf x || isNegInf y then S754_infinity true
  else if IsNaN x || IsNaN y then S754_nan
  else if eqb x zero && eqb x y then (if Signbit x then x else y)
  else if ltb x y then x else y.

(** [math.Round(x)]: the nearest integer, halves away from zero; zeros,
    infinities and NaN are returned as they are, and a value below one
    half keeps its sign as a zero. *)
Definition Round (x : float64) : float64 :=
  match x with
  | S754_finite s m (Zneg p) =>
      let q := Z.shiftr (Z.pos m + Z.shiftl 1 (Z.pos p - 1)) (Z.pos p) in
      match q with
      | Z0 => S754_zero s
      | _ => binary_normalize prec emax (if s then Z.opp q else q) 0 s
      end
  | _ => x
  end.

End float64.

Module validator64.

Import float64.

(** [type Caption struct], package parser *)
Record Caption : Type := {
  Index : Z;
  StartTime : float64;
  EndTime : float64;
  Text : string
}.

(** [type ValidationResult struct] *)
Record ValidationResult : Type := {
  Valid : bool;
  Type_ : string;
  Data : gmap string float64
}.

(** [type timeSegment struct] *)
Record timeSegment : Type := { start : float64; end_ : float64 }.

(** [for _, caption := range captions {
       if caption.EndTime <= startTime || caption.StartTime >= endTime { continue }
       segStart := math.Max(caption.StartTime, startTime)
       segEnd := math.Min(caption.EndTime, endTime)
       coveredSegments = append(coveredSegments, timeSegment{segStart, segEnd}) }] *)
Fixpoint clipCaptions (captions : list Caption) (startTime endTime : float64)
  : list timeSegment :=
  match captions with
  | [] => []
  | caption :: rest =>
      if leb (EndTime caption) startTime || leb endTime (StartTime caption)
      then clipCaptions rest startTime endTime
      else
        let segStart := Max (StartTime caption) startTime in
        let segEnd := Min (EndTime caption) endTime in
        {| start := segStart; end_ := segEnd |} :: clipCaptions rest startTime endTime
  end.

(** [if a[i].start > a[j].start { a[i], a[j] = a[j], a[i] }] *)
Definition compareSwap (i j : nat) (a : list timeSegment) : list timeSegment :=
  match a !! i, a !! j with
  | Some x, Some y =>
      if ltb (start y) (start x) then <[j := x]> (<[i := y]> a) else a
  | _, _ => a
  end.

(** [for j := ...; j < len(a); j++], with [k] turns left *)
Fixpoint innerLoop (i j k : nat) (a : list timeSegment) : list timeSegment :=
  match k with
  | O => a
  | S k' => innerLoop i (S j) k' (compareSwap i j a)
  end.

(** [for i := ...; i < len(a)-1; i++], with [k] turns left *)
Fixpoint outerLoop (i k : nat) (a : list timeSegment) : list timeSegment :=
  match k with
  | O => a
  | S k' => outerLoop (S i) k' (innerLoop i (S i) (length a - S i) a)
  end.

Definition sortSegments (a : list timeSegment) : list timeSegment :=
  outerLoop 0 (length a - 1) a.

(** [last := &merged[len(merged)-1]; current := coveredSegments[i]
     if current.start <= last.end {
       if current.end > last.end { last.end = current.end }
     } else { merged = append(merged, current) }] *)
Definition mergeStep (merged : list timeSegment) (current : timeSegment)
  : list timeSegment :=
  let k := (length merged - 1)%nat in
  match merged !! k with
  | Some last =>
      if leb (start current) (end_ last) then
        if ltb (end_ last) (end_ current)
        then <[k := {| start := start last; end_ := end_ current |}]> merged
        else merged
      else merged ++ [current]
  | None => merged
  end.

Definition mergeSorted (sorted : list timeSegment) : list timeSegment :=
  match sorted with
  | [] => []
  | first :: rest => fold_left mergeStep rest [first]
  end.

(** [if len(coveredSegments) > 0 { sort; merge; coveredSegments = merged }] *)
Definition mergeSegments (coveredSegments : list timeSegment) : list timeSegment :=
  if (0 <? length coveredSegments)%nat
  then mergeSorted (sortSegments coveredSegments)
  else coveredSegments.

(** [coveredTime := 0.0
     for _, seg := range coveredSegments { coveredTime += seg.end - seg.start }] *)
Definition sumSegments (segs : list timeSegment) : float64 :=
  fold_left (fun coveredTime seg => add coveredTime (sub (end_ seg) (start seg)))
            segs zero.

(** The value of [coveredTime] at line 103. *)
Definition coveredTime (captions : list Caption) (startTime endTime : float64)
  : float64 :=
  sumSegments (mergeSegments (clipCaptions captions startTime endTime)).

(** The value of [coveragePercent] at line 105:
    [(coveredTime / totalTime) * 100.0] *)
Definition coveragePercent (captions : list Caption) (startTime endTime : float64)
  : float64 :=
  mul (div (coveredTime captions startTime endTime) (sub endTime startTime))
      (ofZ 100).

(** [math.Round(x*100) / 100] *)
Definition round2 (x : float64) : float64 := div (Round (mul x (ofZ 100))) (ofZ 100).

(** [ValidateCoverage] *)
Definition ValidateCoverage (captions : list Caption)
  (startTime endTime minCoverage : float64) : result ValidationResult :=
  if leb endTime startTime then Err ErrRange
  else
    let totalTime := sub endTime startTime in
    let coveredSegments := clipCaptions captions startTime endTime in
    let coveredSegments := mergeSegments coveredSegments in
    let coveredTime := sumSegments coveredSegments in
    let coveragePercent := mul (div coveredTime totalTime) (ofZ 100) in
    let valid := leb minCoverage coveragePercent in
    let data : gmap string float64 :=
      <["required_coverage" := minCoverage]>
      (<["actual_coverage" := round2 coveragePercent]>
      (<["start_time" := startTime]>
      (<["end_time" := endTime]>
      (<["covered_time" := round2 coveredTime]>
      (<["total_time" := totalTime]> ∅))))) in
    let data :=
      if negb valid
      then <["missing_coverage_seconds" :=
               round2 (sub (mul (div minCoverage (ofZ 100)) totalTime) coveredTime)]>
             data
      else data in
    Ok {| Valid := valid; Type_ := "caption_coverage"; Data := data |}.

(** The caption and the segment with the numbers their [float64] times
    stand for, and the length of segments in exact arithmetic. *)
Definition exactCaption (c : Caption) : parser.Caption :=
  {| parser.Index := Index c;
     parser.StartTime := value (StartTime c);
     parser.EndTime := value (EndTime c);
     parser.Text := Text c |}.

Definition exactSegment (g : timeSegment) : validator.timeSegment :=
  {| validator.start := value (start g); validator.end_ := value (end_ g) |}.

Definition exactLength (segs : list timeSegment) : Q :=
  spec.totalLength (map exactSegment segs).

(** The ends of a segment are numbers. *)
Definition finiteSegment (g : timeSegment) : bool :=
  finite (start g) && finite (end_ g).

(** The times of a caption are numbers, and it does not end before it
    starts. *)
Definition wellFormed (c : Caption) : bool :=
  finite (StartTime c) && finite (EndTime c) && leb (StartTime c) (EndTime c).

End validator64.

(** ** Windows and captions on which rounding shows *)

Module rounding.

Import float64 validator64.

Definition caption (a b : float64) : Caption :=
  {| Index := 1; StartTime := a; EndTime := b; Text := "x" |}.

(** The captions of [TestValidateCoverage]. *)
Definition coverageCaptions : list Caption :=
  [ {| Index := 1; StartTime := ofZ 10; EndTime := ofZ 20; Text := "Caption 1" |};
    {| Index := 2; StartTime := ofZ 25; EndTime := ofZ 35; Text := "Caption 2" |};
    {| Index := 3; StartTime := ofZ 40; EndTime := ofZ 55; Text := "Caption 3" |} ].

(** A caption over the first quarter of a window of 100 seconds, and one
    over its first 29 seconds. *)
Definition quarter : list Caption := [caption (ofZ 0) (ofZ 25)].
Definition twentyNine : list Caption := [caption (ofZ 0) (ofZ 29)].

(** The [float64] values that [0.1], [3.473475985074525],
    [3.4734759850745256], [45.1] and [0.005] denote:
    [0x1.999999999999ap-4], [0x1.bc9adc6fab117p+1], [0x1.bc9adc6fab118p+1],
    [0x1.68ccccccccccdp+5] and [0x1.47ae147ae147bp-8]. *)
Definition t0_1 : float64 := ofBits 0x1999999999999a (-56).
Definition t3_47a : float64 := ofBits 0x1bc9adc6fab117 (-51).
Definition t3_47b : float64 := ofBits 0x1bc9adc6fab118 (-51).
Definition t45_1 : float64 := ofBits 0x168ccccccccccd (-47).
Definition t0_005 : float64 := ofBits 0x147ae147ae147b (-60).

(** Two captions that leave out the instant between [3.473475985074525]
    and [3.4734759850745256], for the window from [0.1] to [45.1]. *)
Definition twoCaptions : list Caption :=
  [ caption t0_1 t3_47a; caption t3_47b t45_1 ].

(** One caption over the whole of that window. *)
Definition oneCaption : list Caption := [caption t0_1 t45_1].

(** A caption of five thousandths of a second. *)
Definition shortCaption : list Caption := [caption (ofZ 0) t0_005].

(** A caption over 57 percent of a window of [1e17] seconds. *)
Definition longCaption : list Caption :=
  [caption (ofZ 0) (ofZ 57000000000000000)].

End rounding.

(** ** The plain text, stated on the strings themselves *)

Module textspec.

(** There is no byte [x] in [s]. *)
Definition lacks (x : ascii) (s : string) : Prop :=
  forall a b, s <> a ++ String x b.

(** [r] is [s] without its markup-like spans.  A span starts at a ['<']
    that has a ['>'] after it and ends at the first such ['>']; the
    spans are taken from the left and do not overlap.  So either [s] has
    no ['<'] with a ['>'] after it and is left as it is, or [s] is a
    part without ['<'], a span, and a rest that is treated likewise. *)
Inductive stripped : string -> string -> Prop :=
| stripped_none (s : string) :
    (forall a b c, s <> a ++ String "<" (b ++ String ">" c)) -> stripped s s
| stripped_span (a b c r : string) :
    lacks "<" a -> lacks ">" b -> stripped c r ->
    stripped (a ++ String "<" (b ++ String ">" c)) (a ++ r).

Definition bytes (codes : list N) : string :=
  fold_right (fun n s => String (ascii_of_N n) s) EmptyString codes.

(** The white space of Unicode, in UTF-8: U+0009 to U+000D, U+0020,
    U+0085, U+00A0, U+1680, U+2000 to U+200A, U+2028, U+2029, U+202F,
    U+205F and U+3000. *)
Definition whiteSpace : list string :=
  map bytes
    [ [9]; [10]; [11]; [12]; [13]; [32]; [194; 133]; [194; 160];
      [225; 154; 128];
      [226; 128; 128]; [226; 128; 129]; [226; 128; 130]; [226; 128; 131];
      [226; 128; 132]; [226; 128; 133]; [226; 128; 134]; [226; 128; 135];
      [226; 128; 136]; [226; 128; 137]; [226; 128; 138];
      [226; 128; 168]; [226; 128; 169]; [226; 128; 175];
      [226; 129; 159]; [227; 128; 128] ]%N.

(** [s] is white space from end to end. *)
Inductive blankText : string -> Prop :=
| blank_nil : blankText EmptyString
| blank_cons (w s : string) : In w whiteSpace -> blankText s -> blankText (w ++ s).

(** [r] is [s] without the white space at its two ends: what is cut off
    on either side is white space, and [r] neither starts nor ends with
    a white-space character. *)
Definition trimmed (s r : string) : Prop :=
  exists l t,
    s = l ++ r ++ t /\ blankText l /\ blankText t /\
    (forall w x, In w whiteSpace -> r <> w ++ x) /\
    (forall w x, In w whiteSpace -> r <> x ++ w).

(** The texts joined by single spaces. *)
Fixpoint joined (texts : list string) : string :=
  match texts with
  | [] => EmptyString
  | [t] => t
  | t :: ts => t ++ " " ++ joined ts
  end.

End textspec.

(** * Properties *)

(** ** Strings *)

Section StringFacts.

Lemma string_len_ind (P : string -> Prop) :
  (forall s, (forall t, (String.length t < String.length s)%nat -> P t) -> P s) ->
  forall s, P s.
Proof.
  intros step s.
  remember (String.length s) as n eqn:Hn.
  revert s Hn.
  induction n as [n IH] using lt_wf_ind.
  intros s ->. apply step. intros t Ht. exact (IH _ Ht t eq_refl).
Qed.

Lemma append_cons (c : ascii) (a b : string) : String c a ++ b = String c (a ++ b).
Proof. reflexivity. Qed.

Lemma append_nil_l (b : string) : "" ++ b = b.
Proof. reflexivity. Qed.

Lemma append_nil_r (s : string) : s ++ "" = s.
Proof.
  induction s as [|c s IH]; [reflexivity|]. now rewrite append_cons, IH.
Qed.

Lemma append_assoc (a b c : string) : (a ++ b) ++ c = a ++ (b ++ c).
Proof.
  induction a as [|x a IH]; [reflexivity|]. now rewrite !append_cons, IH.
Qed.

Lemma prefix_nil (s : string) : String.prefix "" s = true.
Proof. destruct s; reflexivity. Qed.

Lemma prefix_app (p a b : string) :
  String.prefix p a = true -> String.prefix p (a ++ b) = true.
Proof.
  revert a. induction p as [|x p IH]; intros a H; [apply prefix_nil|].
  destruct a as [|y a]; [discriminate|].
  rewrite append_cons. simpl in *.
  destruct (ascii_dec x y); [auto | discriminate].
Qed.

Lemma Contains_tail c r sub :
  strings.Contains (String c r) sub = false -> strings.Contains r sub = false.
Proof. simpl. intros H. apply orb_false_iff in H. tauto. Qed.

Lemma Contains_app_r a b sub :
  strings.Contains (a ++ b) sub = false -> strings.Contains b sub = false.
Proof.
  induction a as [|c a IH]; intros H; [exact H|].
  rewrite append_cons in H. apply IH. now apply Contains_tail in H.
Qed.

Lemma Contains_prefix_false s sub :
  strings.Contains s sub = false -> String.prefix sub s = false.
Proof. destruct s; simpl; intros H; apply orb_false_iff in H; tauto. Qed.

Lemma Contains_app_l a b sub :
  strings.Contains (a ++ b) sub = false -> strings.Contains a sub = false.
Proof.
  induction a as [|c a IH]; intros H.
  - rewrite append_nil_l in H. apply Contains_prefix_false in H.
    destruct sub; [now rewrite prefix_nil in H | reflexivity].
  - rewrite append_cons in H.
    pose proof (Contains_prefix_false _ _ H) as Hp.
    apply Contains_tail in H. apply IH in H.
    change (String.prefix sub (String c a) || strings.Contains a sub = false).
    rewrite H, orb_false_r.
    destruct (String.prefix sub (String c a)) eqn:E; [|reflexivity].
    apply (prefix_app _ _ b) in E. rewrite append_cons in E. congruence.
Qed.

Lemma trimLeft_suffix : forall s, exists pre, s = pre ++ strings.trimLeft s.
Proof.
  induction s as [s IH] using string_len_ind.
  destruct s as [|c1 r1]; [exists ""; reflexivity|].
  cbn [strings.trimLeft]. destruct (strings.asciiSpace c1).
  { destruct (IH r1) as [p Hp]; [simpl; lia|].
    exists (String c1 p). rewrite append_cons. now rewrite <- Hp. }
  destruct r1 as [|c2 r2]; [exists ""; reflexivity|].
  destruct (strings.space2 c1 c2).
  { destruct (IH r2) as [p Hp]; [simpl; lia|].
    exists (String c1 (String c2 p)). rewrite !append_cons. now rewrite <- Hp. }
  destruct r2 as [|c3 r3]; [exists ""; reflexivity|].
  destruct (strings.space3 c1 c2 c3); [|exists ""; reflexivity].
  destruct (IH r3) as [p Hp]; [simpl; lia|].
  exists (String c1 (String c2 (String c3 p))). rewrite !append_cons. now rewrite <- Hp.
Qed.

Lemma trimRight_prefix : forall s, exists post, s = strings.trimRight s ++ post.
Proof.
  induction s as [|c r [post IH]]; [exists ""; reflexivity|].
  cbn [strings.trimRight].
  destruct (strings.isSpaceRune (String c (strings.trimRight r))).
  - exists (String c r). reflexivity.
  - exists post. rewrite append_cons. now rewrite <- IH.
Qed.

(** A trimmed string contains nothing the string did not contain. *)
Lemma Contains_TrimSpace s sub :
  strings.Contains s sub = false -> strings.Contains (strings.TrimSpace s) sub = false.
Proof.
  intros H. unfold strings.TrimSpace.
  destruct (trimLeft_suffix s) as [pre Hpre].
  destruct (trimRight_prefix (strings.trimLeft s)) as [post Hpost].
  rewrite Hpre in H. apply Contains_app_r in H.
  rewrite Hpost in H. now apply Contains_app_l in H.
Qed.

(** Without an occurrence of the separator, [Split] returns the string
    as its only piece. *)
Lemma splitFrom_no_sep sep : forall s cur,
  strings.Contains s sep = false -> strings.splitFrom sep 0 cur s = [cur ++ s].
Proof.
  induction s as [|c r IH]; intros cur H.
  - cbn [strings.splitFrom]. now rewrite append_nil_r.
  - pose proof (Contains_prefix_false _ _ H) as Hp.
    apply Contains_tail in H.
    cbn [strings.splitFrom]. rewrite Hp, (IH _ H), append_assoc. reflexivity.
Qed.

Lemma Split_no_sep s sep :
  strings.Contains s sep = false -> strings.Split s sep = [s].
Proof. intros H. unfold strings.Split. now rewrite splitFrom_no_sep. Qed.

End StringFacts.

(** ** Timestamps and timelines *)

Section Timestamps.

Import parser.

Variable ParseFloat : string -> option Q.

Lemma parseFloat_Some s v : ParseFloat s = Some v -> parseFloat ParseFloat s = Ok v.
Proof. unfold parseFloat. now intros ->. Qed.

Lemma parseFloat_None s :
  ParseFloat s = None -> parseFloat ParseFloat s = Err (ErrNum s).
Proof. unfold parseFloat. now intros ->. Qed.

Lemma failsWith_Err {A} (e : error) (k : ErrorKind) :
  kindOf e = k -> failsWith (@Err A e) k.
Proof. intros H. exists e. auto. Qed.

(** Three components of which one is not a number: the first such one
    makes the conversion fail. *)
Lemma three_components_fail (p0 p1 p2 : string) :
  Exists (fun p => ParseFloat p = None) [p0; p1; p2] ->
  failsWith
    (let* hours := parseFloat ParseFloat p0 in
     let* minutes := parseFloat ParseFloat p1 in
     let* seconds := parseFloat ParseFloat p2 in
     Ok (hours * 3600 + minutes * 60 + seconds)%Q) InvalidTimestamp.
Proof.
  intros H. unfold parseFloat.
  destruct (ParseFloat p0) eqn:E0; cbn [bind]; [|now apply failsWith_Err].
  destruct (ParseFloat p1) eqn:E1; cbn [bind]; [|now apply failsWith_Err].
  destruct (ParseFloat p2) eqn:E2; cbn [bind]; [|now apply failsWith_Err].
  exfalso. rewrite !Exists_cons, Exists_nil in H. intuition congruence.
Qed.

Lemma two_components_fail (p0 p1 : string) :
  Exists (fun p => ParseFloat p = None) [p0; p1] ->
  failsWith
    (let* minutes := parseFloat ParseFloat p0 in
     let* seconds := parseFloat ParseFloat p1 in
     Ok (minutes * 60 + seconds)%Q) InvalidTimestamp.
Proof.
  intros H. unfold parseFloat.
  destruct (ParseFloat p0) eqn:E0; cbn [bind]; [|now apply failsWith_Err].
  destruct (ParseFloat p1) eqn:E1; cbn [bind]; [|now apply failsWith_Err].
  exfalso. rewrite !Exists_cons, Exists_nil in H. intuition congruence.
Qed.

(** C2, amended.  With [parts] the components of the timestamp between
    colons (for Format B, after the first comma became a period):
    the Format A conversion fails with InvalidTimestamp when there are
    neither two nor three components or when a component is not a
    number, and it returns hours*3600 + minutes*60 + seconds when there
    are two or three and all are numbers, hours being 0 for two; the
    Format B conversion reads the three-component form only, where it
    fails with InvalidTimestamp when a component is not a number and
    returns hours*3600 + minutes*60 + seconds otherwise. *)
Theorem timestamp_conversion (timestamp : string) :
  let parts := strings.Split timestamp ":" in
  let partsB := strings.Split (strings.Replace timestamp "," "." 1) ":" in
  ((length parts <> 2%nat /\ length parts <> 3%nat) \/
   Exists (fun p => ParseFloat p = None) parts ->
   failsWith (parseWebVTTTimestamp ParseFloat timestamp) InvalidTimestamp) /\
  (forall p0 p1 p2 hours minutes seconds,
   parts = [p0; p1; p2] ->
   ParseFloat p0 = Some hours -> ParseFloat p1 = Some minutes ->
   ParseFloat p2 = Some seconds ->
   parseWebVTTTimestamp ParseFloat timestamp
   = Ok (hours * 3600 + minutes * 60 + seconds)%Q) /\
  (forall p0 p1 minutes seconds,
   parts = [p0; p1] ->
   ParseFloat p0 = Some minutes -> ParseFloat p1 = Some seconds ->
   exists v, parseWebVTTTimestamp ParseFloat timestamp = Ok v /\
             (v == 0 * 3600 + minutes * 60 + seconds)%Q) /\
  (length partsB = 3%nat ->
   Exists (fun p => ParseFloat p = None) partsB ->
   failsWith (parseSRTTimestamp ParseFloat timestamp) InvalidTimestamp) /\
  (forall p0 p1 p2 hours minutes seconds,
   partsB = [p0; p1; p2] ->
   ParseFloat p0 = Some hours -> ParseFloat p1 = Some minutes ->
   ParseFloat p2 = Some seconds ->
   parseSRTTimestamp ParseFloat timestamp
   = Ok (hours * 3600 + minutes * 60 + seconds)%Q).
Proof.
  intros parts partsB.
  unfold parseWebVTTTimestamp, parseSRTTimestamp.
  fold parts. fold partsB.
  repeat split.
  - intros H.
    destruct parts as [|p0 [|p1 [|p2 [|p3 ps]]]];
      try (now apply failsWith_Err).
    + destruct H as [(H2 & _)|Hex]; [now elim H2|].
      now apply two_components_fail.
    + destruct H as [(_ & H3)|Hex]; [now elim H3|].
      now apply three_components_fail.
  - intros p0 p1 p2 h m s -> H0 H1 H2.
    now rewrite (parseFloat_Some _ _ H0), (parseFloat_Some _ _ H1),
      (parseFloat_Some _ _ H2).
  - intros p0 p1 m s -> H0 H1.
    rewrite (parseFloat_Some _ _ H0), (parseFloat_Some _ _ H1). cbn [bind].
    eexists. split; [reflexivity | ring].
  - intros Hlen Hex.
    destruct partsB as [|p0 [|p1 [|p2 [|p3 ps]]]]; simpl in Hlen;
      try (exfalso; lia).
    now apply three_components_fail.
  - intros p0 p1 p2 h m s -> H0 H1 H2.
    now rewrite (parseFloat_Some _ _ H0), (parseFloat_Some _ _ H1),
      (parseFloat_Some _ _ H2).
Qed.

(** A line without the arrow makes the Format A timeline parser fail
    with InvalidTimeline. *)
Lemma webvtt_timeline_needs_arrow (line : string) :
  strings.Contains line "-->" = false ->
  failsWith (parseWebVTTTimeline ParseFloat line) InvalidTimeline.
Proof.
  intros H. unfold parseWebVTTTimeline.
  rewrite (Split_no_sep _ _ (Contains_TrimSpace _ _ H)).
  now apply failsWith_Err.
Qed.

End Timestamps.

(** ** The scanner *)

Section ScannerFacts.

(** The only error of a scan is [bufio.ErrTooLong]. *)
Lemma scanFrom_error cap : forall s cur n ls e,
  bufio.scanFrom cap cur n s = (ls, Some e) -> e = ErrTooLong.
Proof.
  induction s as [|c r IH]; intros cur n ls e H; cbn [bufio.scanFrom] in H.
  - congruence.
  - destruct (N_of_ascii c =? 10)%N.
    + destruct (bufio.scanFrom cap "" 0 r) as [ls' e'] eqn:E.
      inversion H; subst. eapply IH; eauto.
    + destruct (cap <=? n + 1)%Z; [congruence | eapply IH; eauto].
Qed.

Lemma length_append_one (cur : string) (c : ascii) :
  String.length (cur ++ String c "") = S (String.length cur).
Proof.
  induction cur as [|x cur IH]; [reflexivity|].
  rewrite append_cons. simpl. now rewrite IH.
Qed.

Lemma physicalLines_first : forall s cur, exists l ls,
  spec.physicalLines cur s = l :: ls /\ (String.length cur <= String.length l)%nat.
Proof.
  induction s as [|c r IH]; intros cur; cbn [spec.physicalLines].
  - eauto.
  - destruct (N_of_ascii c =? 10)%N; [eauto|].
    destruct (IH (cur ++ String c "")) as (l & ls & H & Hl).
    rewrite length_append_one in Hl. exists l, ls. split; [exact H | lia].
Qed.

(** When every line is shorter than the buffer can get, the scan
    delivers all of them and reports no error. *)
Lemma scanFrom_fits cap : forall s cur,
  Forall (fun l => (Z.of_nat (String.length l) < cap)%Z) (spec.physicalLines cur s) ->
  snd (bufio.scanFrom cap cur (Z.of_nat (String.length cur)) s) = None.
Proof.
  induction s as [|c r IH]; intros cur H;
    cbn [bufio.scanFrom spec.physicalLines] in *.
  - reflexivity.
  - destruct (N_of_ascii c =? 10)%N.
    + inversion H as [|? ? _ Hr]; subst. specialize (IH "" Hr).
      change (Z.of_nat (String.length "")) with 0%Z in IH.
      destruct (bufio.scanFrom cap "" 0 r). exact IH.
    + destruct (physicalLines_first r (cur ++ String c "")) as (l & ls & E & Hl).
      rewrite E in H. inversion H as [|? ? Hlt _]; subst.
      rewrite length_append_one in Hl.
      destruct (Z.leb_spec cap (Z.of_nat (String.length cur) + 1)); [lia|].
      rewrite <- E in H. specialize (IH _ H).
      rewrite length_append_one in IH.
      now replace (Z.of_nat (String.length cur) + 1)%Z
        with (Z.of_nat (S (String.length cur))) by lia.
Qed.

Lemma capacity_chunked :
  bufio.capacity parser.chunkedScanner = bufio.capacity bufio.NewScanner.
Proof. reflexivity. Qed.

Lemma scanLines_chunked input :
  bufio.scanLines parser.chunkedScanner input = bufio.scanLines bufio.NewScanner input.
Proof. unfold bufio.scanLines. now rewrite capacity_chunked. Qed.

Lemma scanLines_fits input :
  spec.fitsCeiling input -> snd (bufio.scanLines bufio.NewScanner input) = None.
Proof. intros H. apply (scanFrom_fits _ input ""). exact H. Qed.

Lemma afterError_chunked input :
  bufio.afterError parser.chunkedScanner input = bufio.afterError bufio.NewScanner input.
Proof. unfold bufio.afterError. now rewrite capacity_chunked. Qed.

(** A scan without error leaves nothing for a later call. *)
Lemma afterErrorFrom_none cap : forall s cur n,
  snd (bufio.scanFrom cap cur n s) = None -> bufio.afterErrorFrom cap cur n s = [].
Proof.
  induction s as [|c r IH]; intros cur n H;
    cbn [bufio.scanFrom bufio.afterErrorFrom] in *; [reflexivity|].
  destruct (N_of_ascii c =? 10)%N.
  - destruct (bufio.scanFrom cap "" 0 r) as [ls e] eqn:E. cbn [snd] in H.
    apply IH. now rewrite E.
  - destruct (cap <=? n + 1)%Z; [discriminate|]. now apply IH.
Qed.

Lemma skipHeader_none : forall rest,
  existsb (fun l => String.eqb l "") rest = false -> parser.skipHeader rest = [].
Proof.
  induction rest as [|l rest IH]; intros H; cbn [existsb parser.skipHeader] in *;
    [reflexivity|].
  apply orb_false_iff in H. destruct H as (Hl & Hrest). rewrite Hl. now apply IH.
Qed.

(** When the scan has no error the cue loop reads what follows the
    header section, and nothing else. *)
Lemma cueSection_ok sc input rest :
  snd (bufio.scanLines sc input) = None ->
  parser.cueSection sc input rest = parser.skipHeader rest.
Proof.
  intros H. unfold parser.cueSection.
  destruct (existsb (fun l => String.eqb l "") rest) eqn:E; [reflexivity|].
  rewrite (skipHeader_none rest E). now apply afterErrorFrom_none.
Qed.

Lemma cueSection_chunked input rest :
  parser.cueSection parser.chunkedScanner input rest
  = parser.cueSection bufio.NewScanner input rest.
Proof. unfold parser.cueSection. now rewrite afterError_chunked. Qed.

End ScannerFacts.

(** ** The parsers *)

Section ParserFacts.

Import parser.

Variable ParseFloat : string -> option Q.

Lemma runLines_ext {S} (f g : S -> string -> result S) :
  (forall st l, f st l = g st l) ->
  forall ls st, runLines f st ls = runLines g st ls.
Proof.
  intros H. induction ls as [|l ls IH]; intros st; [reflexivity|].
  cbn [runLines]. rewrite H. destruct (g st l); cbn [bind]; auto.
Qed.

Lemma chunkedVttStep_eq st line :
  chunkedVttStep ParseFloat st line = vttStep ParseFloat st line.
Proof.
  unfold chunkedVttStep, vttStep.
  destruct (String.eqb line ""); [reflexivity|].
  destruct (strings.Contains line "-->"); [|reflexivity].
  destruct (parseWebVTTTimeline ParseFloat line) as [[s e]|]; reflexivity.
Qed.

Lemma chunkedSrtStep_eq st line :
  chunkedSrtStep ParseFloat st line = srtStep ParseFloat st line.
Proof.
  unfold chunkedSrtStep, srtStep, srtNoIndex.
  destruct (String.eqb (strings.TrimSpace line) "").
  { destruct (0 <? sParseState st)%Z; [|reflexivity].
    destruct (0 <? Z.of_nat (length (sTextLines st)))%Z; reflexivity. }
  destruct (sParseState st) as [|[ [] | [] | ]|]; try reflexivity.
  - destruct (strconv.Atoi (strings.TrimSpace line)); [reflexivity|].
    destruct (strings.Contains (strings.TrimSpace line) "-->").
    + destruct (parseSRTTimeline ParseFloat (strings.TrimSpace line)) as [[s e]|];
        [reflexivity|].
      destruct (0 <? Z.of_nat (length (sCaptions st)))%Z; reflexivity.
    + destruct (0 <? Z.of_nat (length (sCaptions st)))%Z; reflexivity.
  - destruct (strings.Contains (strings.TrimSpace line) "-->"); [|reflexivity].
    destruct (parseSRTTimeline ParseFloat (strings.TrimSpace line)) as [[s e]|];
      reflexivity.
Qed.

(** The two Format B parsers return the same result on every input. *)
Lemma parseChunkedSRT_eq input :
  parseChunkedSRT ParseFloat input = parseSRT ParseFloat input.
Proof.
  unfold parseChunkedSRT, parseSRT. rewrite scanLines_chunked.
  destruct (bufio.scanLines bufio.NewScanner input) as [lines scanErr].
  now rewrite (runLines_ext _ _ (chunkedSrtStep_eq)).
Qed.

(** The two Format A parsers differ in the error of an input without a
    line only, and return the same captions on every input. *)
Lemma parseChunkedWebVTT_eq input :
  okValue (parseChunkedWebVTT ParseFloat input) = okValue (parseWebVTT ParseFloat input).
Proof.
  unfold parseChunkedWebVTT, parseWebVTT. rewrite scanLines_chunked.
  destruct (bufio.scanLines bufio.NewScanner input) as [lines scanErr].
  destruct lines as [|first rest]; [reflexivity|].
  now rewrite cueSection_chunked, (runLines_ext _ _ (chunkedVttStep_eq)).
Qed.

(** C8.  On an input whose lines all fit under the 64KB ceiling, the
    scanner of the bounded variant delivers every line, as the standard
    one does, and the bounded parsers return the caption sequence of
    their standard counterparts: the same captions for Format A, the
    same result altogether for Format B. *)
Theorem bounded_variants_agree (input : string) :
  spec.fitsCeiling input ->
  bufio.scanLines chunkedScanner input = bufio.scanLines bufio.NewScanner input /\
  snd (bufio.scanLines chunkedScanner input) = None /\
  okValue (parseChunkedWebVTT ParseFloat input)
  = okValue (parseWebVTT ParseFloat input) /\
  okValue (parseChunkedSRT ParseFloat input)
  = okValue (parseSRT ParseFloat input) /\
  parseChunkedSRT ParseFloat input = parseSRT ParseFloat input.
Proof.
  intros H. split; [apply scanLines_chunked|].
  split; [rewrite scanLines_chunked; now apply scanLines_fits|].
  split; [apply parseChunkedWebVTT_eq|].
  now rewrite parseChunkedSRT_eq.
Qed.

End ParserFacts.

Section HeaderAndRecovery.

Import parser.

Variable ParseFloat : string -> option Q.

Lemma parseWebVTTTimestamp_err ts e :
  parseWebVTTTimestamp ParseFloat ts = Err e -> kindOf e = InvalidTimestamp.
Proof.
  unfold parseWebVTTTimestamp, parseFloat.
  destruct (strings.Split ts ":") as [|p0 [|p1 [|p2 [|p3 ps]]]]; cbn [bind];
    try (intros [= <-]; reflexivity).
  - destruct (ParseFloat p0); cbn [bind]; [|intros [= <-]; reflexivity].
    destruct (ParseFloat p1); cbn [bind]; [discriminate|intros [= <-]; reflexivity].
  - destruct (ParseFloat p0); cbn [bind]; [|intros [= <-]; reflexivity].
    destruct (ParseFloat p1); cbn [bind]; [|intros [= <-]; reflexivity].
    destruct (ParseFloat p2); cbn [bind]; [discriminate|intros [= <-]; reflexivity].
Qed.

Lemma parseWebVTTTimeline_err line e :
  parseWebVTTTimeline ParseFloat line = Err e ->
  kindOf e = InvalidTimeline \/ kindOf e = InvalidTimestamp.
Proof.
  unfold parseWebVTTTimeline.
  destruct (strings.Split (strings.TrimSpace line) "-->") as [|a [|b [|c ps]]];
    try (intros [= <-]; left; reflexivity).
  destruct (parseWebVTTTimestamp ParseFloat (strings.TrimSpace a)) eqn:Ea; cbn [bind].
  - destruct (parseWebVTTTimestamp ParseFloat (firstField (strings.TrimSpace b))) eqn:Eb;
      cbn [bind]; [discriminate|].
    intros [= <-]. right. eapply parseWebVTTTimestamp_err; eauto.
  - intros [= <-]. right. eapply parseWebVTTTimestamp_err; eauto.
Qed.

Lemma vttStep_err st line e :
  vttStep ParseFloat st line = Err e ->
  kindOf e = InvalidTimeline \/ kindOf e = InvalidTimestamp.
Proof.
  unfold vttStep.
  destruct (String.eqb line ""); [destruct (vInCaption st); discriminate|].
  destruct (strings.Contains line "-->"); [|destruct (vInCaption st); discriminate].
  destruct (parseWebVTTTimeline ParseFloat line) eqn:E; cbn [bind]; [discriminate|].
  intros [= <-]. eapply parseWebVTTTimeline_err; eauto.
Qed.

Lemma runLines_err {S} (step : S -> string -> result S) (P : error -> Prop) :
  (forall st l e, step st l = Err e -> P e) ->
  forall ls st e, runLines step st ls = Err e -> P e.
Proof.
  intros Hstep. induction ls as [|l ls IH]; intros st e H; cbn [runLines] in H.
  - discriminate.
  - destruct (step st l) eqn:E; cbn [bind] in H.
    + eapply IH; eauto.
    + inversion H; subst. eapply Hstep; eauto.
Qed.

(** C6, amended.  Format A parsing fails with MissingHeader exactly when
    the input has a first line and that line, empty or not, does not
    start with the signature WEBVTT; when the first line starts with the
    signature the header check succeeds and the parse does not fail with
    MissingHeader. *)
Theorem webvtt_header_first_line (input : string) :
  failsWith (parseWebVTT ParseFloat input) MissingHeader <->
  exists first rest,
    fst (bufio.scanLines bufio.NewScanner input) = first :: rest /\
    strings.HasPrefix first "WEBVTT" = false.
Proof.
  unfold parseWebVTT.
  destruct (bufio.scanLines bufio.NewScanner input) as [lines scanErr] eqn:Escan.
  cbn [fst]. split.
  - intros (e & He & Hk).
    destruct lines as [|first rest]; [inversion He; subst; discriminate|].
    exists first, rest. split; [reflexivity|].
    destruct (strings.HasPrefix first "WEBVTT") eqn:Hp; [|reflexivity].
    exfalso. cbn [negb] in He.
    destruct (runLines (vttStep ParseFloat) vttInit
                (cueSection bufio.NewScanner input rest)) as [st|e'] eqn:Er;
      cbn [bind] in He.
    + unfold finish in He. destruct scanErr as [e'|]; [|discriminate].
      inversion He; subst.
      unfold bufio.scanLines in Escan. apply scanFrom_error in Escan. subst.
      discriminate.
    + inversion He; subst.
      apply (runLines_err _ (fun e => kindOf e = InvalidTimeline \/
                                      kindOf e = InvalidTimestamp)
               (vttStep_err)) in Er.
      destruct Er; congruence.
  - intros (first & rest & -> & Hp). rewrite Hp. cbn [negb].
    now apply failsWith_Err.
Qed.

(** Once in the text state, every line that is not blank goes to the
    text buffer. *)
Lemma srt_text_state : forall ls st,
  sParseState st = 2%Z -> Forall spec.nonBlank ls ->
  runLines (srtStep ParseFloat) st ls = Ok (srtSetText (sTextLines st ++ ls) st).
Proof.
  induction ls as [|l ls IH]; intros st Hst Hls; cbn [runLines].
  - rewrite app_nil_r. destruct st; reflexivity.
  - inversion Hls as [|? ? Hl Hrest]; subst.
    unfold srtStep at 1. rewrite Hl, Hst. cbn [bind].
    rewrite IH; [|exact Hst|exact Hrest].
    cbn. now rewrite <- app_assoc.
Qed.

(** C3, amended.  The lines of two Format B cue blocks with no blank line
    between them, none of them blank, the first block with an index and a
    timeline that parse: the parser returns one caption, not two.  It
    has the index and the times of the first block, and its text is the
    text of the first block followed by the index line, the timeline and
    the text of the second block, one per line. *)
Theorem srt_missing_separator_merges
  (input idx1 tl1 idx2 tl2 : string) (text1 text2 : list string)
  (i1 : Z) (s1 e1 : Q) :
  bufio.scanLines bufio.NewScanner input
  = (idx1 :: tl1 :: text1 ++ idx2 :: tl2 :: text2, None) ->
  Forall spec.nonBlank (idx1 :: tl1 :: text1 ++ idx2 :: tl2 :: text2) ->
  strconv.Atoi (strings.TrimSpace idx1) = Some i1 ->
  strings.Contains (strings.TrimSpace tl1) "-->" = true ->
  parseSRTTimeline ParseFloat (strings.TrimSpace tl1) = Ok (s1, e1) ->
  parseSRT ParseFloat input
  = Ok [ {| Index := i1; StartTime := s1; EndTime := e1;
            Text := strings.Join (text1 ++ idx2 :: tl2 :: text2) newline |} ].
Proof.
  intros Hscan Hnb Hidx Harrow Htl.
  unfold parseSRT. rewrite Hscan.
  inversion Hnb as [|? ? Hn1 Hnb1]; subst.
  inversion Hnb1 as [|? ? Hn2 Hrest]; subst.
  cbn [runLines].
  unfold srtStep at 1. rewrite Hn1. cbn [srtInit sParseState]. rewrite Hidx.
  cbn [bind].
  unfold srtStep at 1. rewrite Hn2. cbn [srtSetState sParseState].
  rewrite Harrow, Htl. cbn [bind].
  rewrite srt_text_state; [|reflexivity|exact Hrest].
  cbn [bind]. unfold srtLast. cbn.
  rewrite length_app. cbn.
  replace (0 <? Z.of_nat (length text1 + S (S (length text2))))%Z with true
    by (symmetry; apply Z.ltb_lt; lia).
  reflexivity.
Qed.

(** A line without the arrow never stops the Format B parser: the loop
    tests for the arrow before it calls the timeline parser. *)
Lemma srtStep_without_arrow st line :
  strings.Contains line "-->" = false ->
  exists st', srtStep ParseFloat st line = Ok st'.
Proof.
  intros H. apply Contains_TrimSpace in H. unfold srtStep, srtNoIndex.
  rewrite H.
  destruct (String.eqb (strings.TrimSpace line) "").
  { destruct (0 <? sParseState st)%Z; [|eauto].
    destruct (0 <? Z.of_nat (length (sTextLines st)))%Z; eauto. }
  destruct (sParseState st) as [|[ [] | [] | ]|]; eauto.
  destruct (strconv.Atoi (strings.TrimSpace line)); eauto.
Qed.

(** C7, amended.  On a line without the arrow, the Format A timeline
    parser fails with InvalidTimeline.  The Format B parser does not
    fail on such a line, in any state: it tests for the arrow before it
    calls its timeline parser, and where it expects the timeline it
    keeps a line without arrow as the first line of the text. *)
Theorem timeline_without_arrow (line : string) :
  strings.Contains line "-->" = false ->
  failsWith (parseWebVTTTimeline ParseFloat line) InvalidTimeline /\
  (forall st, exists st', srtStep ParseFloat st line = Ok st') /\
  (forall st, spec.nonBlank line -> sParseState st = 1%Z ->
     srtStep ParseFloat st line
     = Ok (srtSetState 2 (srtSetText (sTextLines st ++ [line]) st))).
Proof.
  intros H. split; [now apply webvtt_timeline_needs_arrow|].
  split; [intros st; now apply srtStep_without_arrow|].
  intros st Hnb Hst. apply Contains_TrimSpace in H.
  unfold srtStep. now rewrite Hnb, Hst, H.
Qed.

End HeaderAndRecovery.

(** ** The coverage engine *)

Section Coverage.

Import parser validator spec.

Local Open Scope Q_scope.
Local Open Scope list_scope.

Lemma gtb_true x y : math.gtb x y = true <-> y < x.
Proof.
  unfold math.gtb. rewrite negb_true_iff, <- not_true_iff_false, Qle_bool_iff.
  split; [apply Qnot_le_lt | apply Qlt_not_le].
Qed.

Lemma gtb_false x y : math.gtb x y = false <-> x <= y.
Proof. unfold math.gtb. rewrite negb_false_iff. apply Qle_bool_iff. Qed.

Lemma Qle_bool_false x y : Qle_bool x y = false <-> y < x.
Proof.
  rewrite <- not_true_iff_false, Qle_bool_iff.
  split; [apply Qnot_le_lt | apply Qlt_not_le].
Qed.

Lemma Max_spec x y : (y < x /\ math.Max x y = x) \/ (x <= y /\ math.Max x y = y).
Proof.
  unfold math.Max. destruct (math.gtb x y) eqn:E.
  - left. split; [now apply gtb_true | reflexivity].
  - right. split; [now apply gtb_false | reflexivity].
Qed.

Lemma Min_spec x y : (x < y /\ math.Min x y = x) \/ (y <= x /\ math.Min x y = y).
Proof.
  unfold math.Min. destruct (math.gtb y x) eqn:E.
  - left. split; [now apply gtb_true | reflexivity].
  - right. split; [now apply gtb_false | reflexivity].
Qed.

(** *** Clipping *)

Lemma clipCaptions_In captions S E g :
  In g (clipCaptions captions S E) <->
  exists c, In c captions /\ S < EndTime c /\ StartTime c < E /\
            g = {| start := math.Max (StartTime c) S; end_ := math.Min (EndTime c) E |}.
Proof.
  induction captions as [|c cs IH]; cbn [clipCaptions].
  - split; [intros [] | intros (c & [] & _)].
  - destruct (Qle_bool (EndTime c) S) eqn:E1; cbn [orb].
    { rewrite IH. apply Qle_bool_iff in E1.
      split; intros (c' & Hin & H1 & H2 & Hg).
      - exists c'. split; [now right | auto].
      - destruct Hin as [<-|Hin]; [exfalso; lra|]. exists c'. auto. }
    destruct (Qle_bool E (StartTime c)) eqn:E2.
    { rewrite IH. apply Qle_bool_iff in E2.
      split; intros (c' & Hin & H1 & H2 & Hg).
      - exists c'. split; [now right | auto].
      - destruct Hin as [<-|Hin]; [exfalso; lra|]. exists c'. auto. }
    apply Qle_bool_false in E1, E2. cbn [In]. rewrite IH. split.
    + intros [<-|(c' & Hin & H1 & H2 & Hg)].
      * exists c. split; [now left | auto].
      * exists c'. split; [now right | auto].
    + intros (c' & [<-|Hin] & H1 & H2 & Hg); [left; now symmetry|].
      right. exists c'. auto.
Qed.

(** The clipped segments hold the instants of the window at which a
    caption is on. *)
Lemma clipCaptions_covers captions S E x :
  covers (clipCaptions captions S E) x <-> (S <= x /\ x < E) /\ active captions x.
Proof.
  unfold covers, active. split.
  - intros (g & Hin & H1 & H2). apply clipCaptions_In in Hin.
    destruct Hin as (c & Hin & Hs & He & ->). cbn [start end_] in *.
    destruct (Max_spec (StartTime c) S) as [[? Hm]|[? Hm]]; rewrite Hm in H1;
    destruct (Min_spec (EndTime c) E) as [[? Hn]|[? Hn]]; rewrite Hn in H2;
      (split; [lra | exists c; split; [exact Hin | lra]]).
  - intros ((HS & HE) & c & Hin & H1 & H2).
    exists {| start := math.Max (StartTime c) S; end_ := math.Min (EndTime c) E |}.
    split.
    + apply clipCaptions_In. exists c.
      split; [exact Hin|]. split; [lra|]. split; [lra | reflexivity].
    + cbn [start end_].
      destruct (Max_spec (StartTime c) S) as [[? ->]|[? ->]];
      destruct (Min_spec (EndTime c) E) as [[? ->]|[? ->]]; lra.
Qed.

(** Captions that do not end before they start give segments that lie
    in the window and do not end before they start either. *)
Lemma clipCaptions_within captions S E :
  Forall (fun c => StartTime c <= EndTime c) captions -> S < E ->
  Forall (fun g => start g <= end_ g /\ S <= start g /\ end_ g <= E)
         (clipCaptions captions S E).
Proof.
  intros Hv HSE. apply List.Forall_forall. intros g Hin.
  apply clipCaptions_In in Hin. destruct Hin as (c & Hin & Hs & He & ->).
  rewrite List.Forall_forall in Hv. specialize (Hv c Hin). cbn [start end_].
  destruct (Max_spec (StartTime c) S) as [[? ->]|[? ->]];
  destruct (Min_spec (EndTime c) E) as [[? ->]|[? ->]]; lra.
Qed.

(** *** The sort *)

Lemma compareSwap_at pre x mid y post :
  compareSwap (length pre) (length pre + S (length mid)) (pre ++ x :: mid ++ y :: post)
  = if math.gtb (start x) (start y)
    then pre ++ y :: mid ++ x :: post
    else pre ++ x :: mid ++ y :: post.
Proof.
  assert (Hj : (length pre + S (length mid))%nat = length (pre ++ x :: mid))
    by (rewrite length_app; reflexivity).
  assert (Hi : (pre ++ x :: mid ++ y :: post) !! length pre = Some x)
    by now apply list_lookup_middle.
  assert (Hy : (pre ++ x :: mid ++ y :: post) !! (length pre + S (length mid))%nat
               = Some y).
  { rewrite Hj. change (pre ++ x :: mid ++ y :: post)
      with (pre ++ (x :: mid) ++ y :: post).
    rewrite app_assoc. now apply list_lookup_middle. }
  unfold compareSwap. rewrite Hi, Hy.
  destruct (math.gtb (start x) (start y)); [|reflexivity].
  replace (<[length pre:=y]> (pre ++ x :: mid ++ y :: post))
    with ((pre ++ y :: mid) ++ y :: post).
  2:{ rewrite <- (Nat.add_0_r (length pre)) at 1. rewrite insert_app_r.
      now rewrite <- app_assoc. }
  replace (length pre + S (length mid))%nat with (length (pre ++ y :: mid) + 0)%nat
    by (rewrite length_app; simpl; lia).
  rewrite insert_app_r. now rewrite <- app_assoc.
Qed.

(** The inner loop at position [i = length pre]: when the segment at [i]
    starts no later than those already compared with it, the loop leaves
    at [i] a segment that starts no later than any that follows. *)
Lemma innerLoop_selects : forall todo pre x done,
  Forall (byStart x) done ->
  exists m rest,
    innerLoop (length pre) (length pre + S (length done)) (length todo)
              (pre ++ x :: done ++ todo) = pre ++ m :: rest /\
    Permutation (m :: rest) (x :: done ++ todo) /\
    Forall (byStart m) rest.
Proof.
  induction todo as [|y todo IH]; intros pre x done Hdone.
  - exists x, done. rewrite app_nil_r. cbn [innerLoop length]. auto.
  - cbn [innerLoop length]. rewrite compareSwap_at.
    replace (S (length pre + S (length done)))
      with (length pre + S (length (done ++ [x])))%nat
      by (rewrite length_app; simpl; lia).
    destruct (math.gtb (start x) (start y)) eqn:E.
    + apply gtb_true in E.
      destruct (IH pre y (done ++ [x])) as (m & rest & Heq & Hperm & Hle).
      { apply Forall_app. split.
        - eapply Forall_impl; [exact Hdone|]. unfold byStart. intros; lra.
        - constructor; [unfold byStart; lra | constructor]. }
      exists m, rest. rewrite <- app_assoc in Heq. split; [exact Heq|].
      split; [|exact Hle].
      rewrite Hperm, <- app_assoc. cbn [app].
      rewrite <- (Permutation_middle done todo x), <- (Permutation_middle done todo y).
      apply perm_swap.
    + apply gtb_false in E.
      replace (length (done ++ [x])) with (length (done ++ [y]))
        by (rewrite !length_app; reflexivity).
      destruct (IH pre x (done ++ [y])) as (m & rest & Heq & Hperm & Hle).
      { apply Forall_app. split; [exact Hdone|].
        constructor; [exact E | constructor]. }
      exists m, rest. rewrite <- app_assoc in Heq. split; [exact Heq|].
      split; [|exact Hle].
      now rewrite Hperm, <- app_assoc.
Qed.

Lemma StronglySorted_snoc (pre : list timeSegment) (m : timeSegment) :
  StronglySorted byStart pre -> Forall (fun p => byStart p m) pre ->
  StronglySorted byStart (pre ++ [m]).
Proof.
  induction pre as [|p pre IH]; intros Hs Hle; cbn [app].
  - repeat constructor.
  - inversion Hs; subst. inversion Hle; subst. constructor; [auto|].
    apply Forall_app. split; [assumption | repeat constructor; assumption].
Qed.

(** The outer loop from position [length pre] on, when the segments
    before it are sorted and start no later than those from it on. *)
Lemma outerLoop_sorts : forall k suf pre,
  length suf = S k ->
  StronglySorted byStart pre ->
  Forall (fun p => Forall (byStart p) suf) pre ->
  exists res,
    outerLoop (length pre) k (pre ++ suf) = res /\
    Permutation res (pre ++ suf) /\
    StronglySorted byStart res.
Proof.
  induction k as [|k IH]; intros suf pre Hlen Hs Hle.
  - destruct suf as [|x [|? ?]]; try discriminate.
    exists (pre ++ [x]). cbn [outerLoop]. split; [reflexivity|].
    split; [reflexivity|].
    apply StronglySorted_snoc; [exact Hs|].
    eapply Forall_impl; [exact Hle|]. intros p Hp. now inversion Hp.
  - destruct suf as [|x rest]; [discriminate|].
    cbn [outerLoop]. injection Hlen as Hlen.
    replace (length (pre ++ x :: rest) - S (length pre))%nat with (length rest)
      by (rewrite length_app; simpl; lia).
    destruct (innerLoop_selects rest pre x [] (List.Forall_nil _))
      as (m & rest' & Heq & Hperm & Hm).
    cbn [length app] in Heq.
    replace (length pre + 1)%nat with (S (length pre)) in Heq by lia.
    rewrite Heq.
    assert (Hlen' : length rest' = S k).
    { apply Permutation_length in Hperm. simpl in Hperm. lia. }
    destruct (IH rest' (pre ++ [m])) as (res & Hres & Hp & Hsorted).
    + exact Hlen'.
    + apply StronglySorted_snoc; [exact Hs|].
      eapply Forall_impl; [exact Hle|]. intros p Hp.
      rewrite List.Forall_forall in Hp. apply Hp.
      rewrite <- Hperm. now left.
    + apply Forall_app. split.
      * eapply Forall_impl; [exact Hle|]. intros p Hp.
        rewrite List.Forall_forall in Hp |- *. intros g Hg. apply Hp.
        rewrite <- Hperm. now right.
      * constructor; [exact Hm | constructor].
    + exists res. rewrite length_app in Hres. cbn [length] in Hres.
      replace (length pre + 1)%nat with (S (length pre)) in Hres by lia.
      rewrite <- app_assoc in Hres, Hp. cbn [app] in Hres, Hp.
      split; [exact Hres|]. split; [|exact Hsorted].
      rewrite Hp. apply Permutation_app_head. exact Hperm.
Qed.

(** The sort returns the segments in the order of their start times. *)
Lemma sortSegments_sorted (a : list timeSegment) :
  Permutation (sortSegments a) a /\ StronglySorted byStart (sortSegments a).
Proof.
  unfold sortSegments. destruct a as [|x rest].
  - cbn. split; [reflexivity | constructor].
  - destruct (outerLoop_sorts (length rest) (x :: rest) [])
      as (res & Hres & Hp & Hs); [simpl; lia | constructor | constructor |].
    cbn [length app] in Hres.
    replace (length (x :: rest) - 1)%nat with (length rest) by (simpl; lia).
    rewrite Hres. auto.
Qed.

(** *** The merge *)

Lemma mergeStep_snoc closed last current :
  mergeStep (closed ++ [last]) current
  = if Qle_bool (start current) (end_ last) then
      closed ++ [if math.gtb (end_ current) (end_ last)
                 then {| start := start last; end_ := end_ current |}
                 else last]
    else closed ++ [last; current].
Proof.
  unfold mergeStep.
  replace (length (closed ++ [last]) - 1)%nat with (length closed)
    by (rewrite length_app; simpl; lia).
  rewrite (list_lookup_middle closed [] last (length closed) eq_refl).
  destruct (Qle_bool (start current) (end_ last)).
  - destruct (math.gtb (end_ current) (end_ last)); [|reflexivity].
    rewrite <- (Nat.add_0_r (length closed)). now rewrite insert_app_r.
  - now rewrite <- app_assoc.
Qed.

(** The merge loop is the function [sweep] behind the closed segments. *)
Lemma fold_mergeStep_sweep : forall rest closed last,
  fold_left mergeStep rest (closed ++ [last]) = closed ++ sweep last rest.
Proof.
  induction rest as [|c rest IH]; intros closed last; cbn [fold_left sweep].
  - reflexivity.
  - rewrite mergeStep_snoc. destruct (Qle_bool (start c) (end_ last)).
    + apply IH.
    + change (closed ++ [last; c]) with (closed ++ [last] ++ [c]).
      rewrite app_assoc, IH, <- app_assoc. reflexivity.
Qed.

Lemma mergeSorted_sweep first rest :
  mergeSorted (first :: rest) = sweep first rest.
Proof. apply (fold_mergeStep_sweep rest [] first). Qed.

Lemma covers_cons g l x :
  covers (g :: l) x <-> (start g <= x /\ x < end_ g) \/ covers l x.
Proof.
  unfold covers. split.
  - intros (h & [<-|Hin] & H); [now left | right; eauto].
  - intros [H|(h & Hin & H)]; [exists g | exists h]; (split; [simpl; auto | exact H]).
Qed.

Lemma covers_nil x : ~ covers [] x.
Proof. intros (g & [] & _). Qed.

Lemma sweep_head : forall rest last, exists h t,
  sweep last rest = h :: t /\ start h = start last.
Proof.
  induction rest as [|c rest IH]; intros last; cbn [sweep]; [eauto|].
  destruct (Qle_bool (start c) (end_ last)); [|eauto].
  destruct (IH (if math.gtb (end_ c) (end_ last)
                then {| start := start last; end_ := end_ c |} else last))
    as (h & t & -> & Hh).
  exists h, t. split; [reflexivity|]. rewrite Hh.
  now destruct (math.gtb (end_ c) (end_ last)).
Qed.

(** On segments in the order of their start times, none ending before
    it starts, the sweep returns separated segments that hold the same
    instants, and whose ends are ends of the segments given. *)
Lemma sweep_correct : forall rest last,
  start last <= end_ last ->
  Forall (fun g => start g <= end_ g) rest ->
  StronglySorted byStart (last :: rest) ->
  separated (sweep last rest) /\
  (forall x, covers (sweep last rest) x <-> covers (last :: rest) x) /\
  (forall B, end_ last <= B -> Forall (fun g => end_ g <= B) rest ->
             Forall (fun g => end_ g <= B) (sweep last rest)).
Proof.
  induction rest as [|c rest IH]; intros last Hv Hvs Hs; cbn [sweep].
  - split; [cbn; tauto|]. split; [tauto|]. intros B HB _. now constructor.
  - inversion Hvs as [|? ? Hc Hrest]; subst.
    inversion Hs as [|? ? Hs' Hle]; subst.
    inversion Hs' as [|? ? Hs'' Hlec]; subst.
    inversion Hle as [|? ? Hlc Hlrest]; subst. unfold byStart in Hlc.
    destruct (Qle_bool (start c) (end_ last)) eqn:E.
    + apply Qle_bool_iff in E.
      set (last' := if math.gtb (end_ c) (end_ last)
                    then {| start := start last; end_ := end_ c |} else last).
      assert (Hs1 : start last' = start last)
        by (unfold last'; now destruct (math.gtb (end_ c) (end_ last))).
      assert (He1 : end_ last <= end_ last' /\ end_ c <= end_ last' /\
                    (end_ last' = end_ last \/ end_ last' = end_ c)).
      { unfold last'. destruct (math.gtb (end_ c) (end_ last)) eqn:G.
        - apply gtb_true in G. cbn. split; [lra|]. split; [lra | now right].
        - apply gtb_false in G. split; [lra|]. split; [lra | now left]. }
      destruct (IH last') as (Hsep & Hcov & Hend).
      * rewrite Hs1. lra.
      * exact Hrest.
      * constructor; [exact Hs''|].
        eapply Forall_impl; [exact Hlrest|]. unfold byStart. rewrite Hs1.
        intros; lra.
      * split; [exact Hsep|]. split.
        -- intros x. rewrite Hcov, !covers_cons.
           destruct He1 as (H1 & H2 & [H3|H3]); rewrite Hs1, H3;
             rewrite H3 in H1, H2; intuition lra.
        -- intros B HB HBs. inversion HBs; subst. apply Hend; [|assumption].
           destruct He1 as (_ & _ & [->| ->]); assumption.
    + apply Qle_bool_false in E.
      destruct (IH c Hc Hrest Hs') as (Hsep & Hcov & Hend).
      destruct (sweep_head rest c) as (h & t & Heq & Hh).
      split.
      * cbn [separated]. rewrite Heq in *. rewrite Hh.
        split; [exact Hv|]. split; [exact E | exact Hsep].
      * split.
        -- intros x. rewrite covers_cons, Hcov, (covers_cons last). tauto.
        -- intros B HB HBs. inversion HBs; subst.
           constructor; [exact HB | now apply Hend].
Qed.

(** *** The sum *)

Lemma fold_sum_totalLength : forall segs acc,
  fold_left (fun coveredTime seg => coveredTime + (end_ seg - start seg)) segs acc
  == acc + totalLength segs.
Proof.
  induction segs as [|g segs IH]; intros acc; cbn [fold_left totalLength].
  - ring.
  - rewrite IH. ring.
Qed.

Lemma sumSegments_totalLength segs : sumSegments segs == totalLength segs.
Proof. unfold sumSegments. rewrite fold_sum_totalLength. ring. Qed.

(** *** Separated segments *)

Lemma separated_gap : forall t g,
  separated (g :: t) -> Forall (fun h => end_ g < start h) t.
Proof.
  induction t as [|h t IH]; intros g Hsep; [constructor|].
  destruct Hsep as (Hg & Hgh & Hsep).
  pose proof (IH h Hsep) as Ht. destruct Hsep as (Hh & _).
  constructor; [exact Hgh|].
  eapply Forall_impl; [exact Ht|]. cbn. intros; lra.
Qed.

Lemma separated_lower g t x :
  separated (g :: t) -> covers (g :: t) x -> start g <= x.
Proof.
  intros Hsep Hc. pose proof (separated_gap t g Hsep) as Hgap.
  destruct Hsep as (Hg & _). apply covers_cons in Hc.
  destruct Hc as [Hc|(h & Hin & Hc)]; [lra|].
  rewrite List.Forall_forall in Hgap. specialize (Hgap h Hin). cbn in Hgap. lra.
Qed.

Lemma covers_tail_above g t x :
  separated (g :: t) -> covers t x -> end_ g < x.
Proof.
  intros Hsep (h & Hin & Hc). pose proof (separated_gap t g Hsep) as Hgap.
  rewrite List.Forall_forall in Hgap. specialize (Hgap h Hin). cbn in Hgap. lra.
Qed.

Lemma uncovered_total : forall l,
  separated l -> (forall x, ~ covers l x) -> totalLength l == 0.
Proof.
  induction l as [|g t IH]; intros Hsep Hno; cbn [totalLength]; [reflexivity|].
  destruct Hsep as (Hg & _ & Hsep).
  rewrite IH; [|exact Hsep|].
  - destruct (Qlt_le_dec (start g) (end_ g)) as [Hlt|Hle]; [|lra].
    exfalso. apply (Hno (start g)). apply covers_cons. left. lra.
  - intros x Hc. apply (Hno x). apply covers_cons. now right.
Qed.

(** Two cuttings of the same set of instants into separated segments
    have the same total length. *)
Lemma separated_unique : forall n l1 l2,
  (length l1 + length l2 <= n)%nat ->
  separated l1 -> separated l2 ->
  (forall x, covers l1 x <-> covers l2 x) ->
  totalLength l1 == totalLength l2.
Proof.
  induction n as [|n IH]; intros l1 l2 Hn Hs1 Hs2 Hc.
  { destruct l1, l2; simpl in Hn; try lia. reflexivity. }
  destruct l1 as [|g1 t1].
  { symmetry. apply uncovered_total; [exact Hs2|].
    intros x Hx. apply Hc in Hx. now apply covers_nil in Hx. }
  destruct l2 as [|g2 t2].
  { apply uncovered_total; [exact Hs1|].
    intros x Hx. apply Hc in Hx. now apply covers_nil in Hx. }
  cbn [length] in Hn.
  destruct (Qlt_le_dec (start g1) (end_ g1)) as [N1|Z1].
  2:{ (* the first segment of [l1] holds no instant *)
    destruct Hs1 as (Hg1 & _ & Hs1).
    cbn [totalLength]. rewrite <- (IH t1 (g2 :: t2)); [lra| simpl; lia | exact Hs1 | exact Hs2 |].
    intros x. rewrite <- Hc, covers_cons. intuition lra. }
  destruct (Qlt_le_dec (start g2) (end_ g2)) as [N2|Z2].
  2:{ destruct Hs2 as (Hg2 & _ & Hs2).
    cbn [totalLength]. rewrite (IH (g1 :: t1) t2); [lra| simpl; lia | exact Hs1 | exact Hs2 |].
    intros x. rewrite Hc, covers_cons. intuition lra. }
  assert (Hc1 : covers (g1 :: t1) (start g1)) by (apply covers_cons; left; lra).
  assert (Hc2 : covers (g2 :: t2) (start g2)) by (apply covers_cons; left; lra).
  assert (Hstart : start g1 == start g2).
  { apply Qle_antisym.
    - apply (separated_lower g1 t1 _ Hs1). now apply Hc.
    - apply (separated_lower g2 t2 _ Hs2). now apply Hc. }
  assert (Hend : end_ g1 == end_ g2).
  { apply Qle_antisym.
    - destruct (Qlt_le_dec (end_ g2) (end_ g1)) as [Hlt|]; [exfalso|assumption].
      assert (Hx : covers (g2 :: t2) (end_ g2))
        by (apply Hc, covers_cons; left; lra).
      apply covers_cons in Hx. destruct Hx as [Hx|Hx]; [lra|].
      apply (covers_tail_above g2 t2 _ Hs2) in Hx. lra.
    - destruct (Qlt_le_dec (end_ g1) (end_ g2)) as [Hlt|]; [exfalso|assumption].
      assert (Hx : covers (g1 :: t1) (end_ g1))
        by (apply Hc, covers_cons; left; lra).
      apply covers_cons in Hx. destruct Hx as [Hx|Hx]; [lra|].
      apply (covers_tail_above g1 t1 _ Hs1) in Hx. lra. }
  cbn [totalLength].
  rewrite (IH t1 t2); [lra | lia | apply Hs1 | apply Hs2 |].
  intros x. split; intros Hx.
  - pose proof (covers_tail_above g1 t1 x Hs1 Hx) as Hab.
    assert (Hx' : covers (g2 :: t2) x) by (apply Hc, covers_cons; now right).
    apply covers_cons in Hx'. destruct Hx' as [Hx'|Hx']; [lra | exact Hx'].
  - pose proof (covers_tail_above g2 t2 x Hs2 Hx) as Hab.
    assert (Hx' : covers (g1 :: t1) x) by (apply Hc, covers_cons; now right).
    apply covers_cons in Hx'. destruct Hx' as [Hx'|Hx']; [lra | exact Hx'].
Qed.

(** The total length of the union is determined. *)
Lemma unionLength_unique captions S E v w :
  unionLength captions S E v -> unionLength captions S E w -> v == w.
Proof.
  intros (p1 & Hs1 & Hc1 & ->) (p2 & Hs2 & Hc2 & ->).
  apply (separated_unique _ p1 p2 (Nat.le_refl _) Hs1 Hs2).
  intros x. now rewrite Hc1, Hc2.
Qed.


Lemma separated_total_bounds : forall l a b,
  separated l -> a <= b ->
  match l with [] => True | h :: _ => a <= start h end ->
  Forall (fun g => end_ g <= b) l ->
  0 <= totalLength l /\ totalLength l <= b - a.
Proof.
  induction l as [|g t IH]; intros a b Hsep Hab Hhd Hend; cbn [totalLength].
  - lra.
  - destruct Hsep as (Hg & Hgap & Hsep). inversion Hend as [|? ? Hgb Hend']; subst.
    destruct (IH (end_ g) b Hsep Hgb) as (H0 & H1); [|exact Hend'|lra].
    destruct t as [|h t]; [exact I | lra].
Qed.

(** *** The covered time *)

Lemma covers_perm l l' x : Permutation l l' -> covers l x -> covers l' x.
Proof.
  intros Hp (g & Hin & H). exists g. split; [|exact H].
  now apply (Permutation_in _ Hp).
Qed.

(** Sort and merge together: separated segments that hold the instants
    of the segments given, that do not start before the earliest of them
    and do not end after the latest. *)
Lemma mergeSegments_correct (segs : list timeSegment) :
  Forall (fun g => start g <= end_ g) segs ->
  separated (mergeSegments segs) /\
  (forall x, covers (mergeSegments segs) x <-> covers segs x) /\
  (forall A B, Forall (fun g => A <= start g /\ end_ g <= B) segs ->
     match mergeSegments segs with [] => True | h :: _ => A <= start h end /\
     Forall (fun g => end_ g <= B) (mergeSegments segs)).
Proof.
  intros Hv. unfold mergeSegments.
  destruct segs as [|g0 segs0]; [cbn; repeat split; auto; tauto|].
  set (segs := g0 :: segs0) in *.
  replace (0 <? length segs)%nat with true by reflexivity.
  destruct (sortSegments_sorted segs) as (Hp & Hs).
  destruct (sortSegments segs) as [|first rest] eqn:Esort.
  { apply Permutation_nil in Hp. discriminate. }
  rewrite mergeSorted_sweep.
  assert (Hv' : Forall (fun g => start g <= end_ g) (first :: rest)).
  { rewrite List.Forall_forall in Hv |- *. intros g Hg. apply Hv.
    now apply (Permutation_in _ Hp). }
  inversion Hv' as [|? ? Hf Hr]; subst.
  destruct (sweep_correct rest first Hf Hr Hs) as (Hsep & Hcov & Hend).
  split; [exact Hsep|]. split.
  - intros x. rewrite Hcov. split; apply covers_perm; [|symmetry]; exact Hp.
  - intros A B HAB.
    assert (HAB' : Forall (fun g => A <= start g /\ end_ g <= B) (first :: rest)).
    { rewrite List.Forall_forall in HAB |- *. intros g Hg. apply HAB.
      now apply (Permutation_in _ Hp). }
    inversion HAB' as [|? ? (Hfa & Hfb) Hrest]; subst. split.
    + destruct (sweep_head rest first) as (h & t & -> & ->). exact Hfa.
    + apply Hend; [exact Hfb|].
      eapply Forall_impl; [exact Hrest|]. cbn. tauto.
Qed.

Lemma coveredTime_unionLength captions S E :
  Forall (fun c => StartTime c <= EndTime c) captions -> S < E ->
  unionLength captions S E (coveredTime captions S E).
Proof.
  intros Hv HSE.
  pose proof (clipCaptions_within captions S E Hv HSE) as Hw.
  destruct (mergeSegments_correct (clipCaptions captions S E)) as (Hsep & Hcov & _).
  { eapply Forall_impl; [exact Hw|]. cbn. tauto. }
  exists (mergeSegments (clipCaptions captions S E)).
  split; [exact Hsep|]. split.
  - intros x. rewrite Hcov. apply clipCaptions_covers.
  - apply sumSegments_totalLength.
Qed.

Lemma coveredTime_bounds captions S E :
  Forall (fun c => StartTime c <= EndTime c) captions -> S < E ->
  0 <= coveredTime captions S E /\ coveredTime captions S E <= E - S.
Proof.
  intros Hv HSE.
  pose proof (clipCaptions_within captions S E Hv HSE) as Hw.
  destruct (mergeSegments_correct (clipCaptions captions S E)) as (Hsep & _ & Hb).
  { eapply Forall_impl; [exact Hw|]. cbn. tauto. }
  destruct (Hb S E) as (Hhd & Hend).
  { eapply Forall_impl; [exact Hw|]. cbn. tauto. }
  unfold coveredTime. rewrite sumSegments_totalLength.
  apply separated_total_bounds; auto. lra.
Qed.

Lemma coveragePercent_bounds captions S E :
  Forall (fun c => StartTime c <= EndTime c) captions -> S < E ->
  0 <= coveragePercent captions S E /\ coveragePercent captions S E <= 100.
Proof.
  intros Hv HSE. destruct (coveredTime_bounds captions S E Hv HSE) as (H0 & H1).
  unfold coveragePercent.
  assert (Ht : 0 < E - S) by lra.
  assert (Hq : 0 <= coveredTime captions S E / (E - S) /\
               coveredTime captions S E / (E - S) <= 1).
  { split.
    - apply Qle_shift_div_l; [exact Ht | lra].
    - apply Qle_shift_div_r; [exact Ht | lra]. }
  lra.
Qed.

(** *** The result *)

Lemma Round_zero x : x == 0 -> math.Round x == 0.
Proof.
  intros Hx. unfold math.Round.
  assert (H0 : Qle_bool 0 x = true) by (apply Qle_bool_iff; lra).
  rewrite H0.
  assert (Hf : Qfloor (x + (1 # 2)) = Qfloor (1 # 2))
    by (apply Qfloor_comp; lra).
  rewrite Hf. reflexivity.
Qed.

Lemma round2_zero x : x == 0 -> round2 x == 0.
Proof.
  intros Hx. unfold round2. rewrite (Round_zero (x * 100)); [reflexivity | lra].
Qed.

(** Rounding to two decimals keeps a percentage between 0 and 100. *)
Lemma round2_percent x : 0 <= x -> x <= 100 -> 0 <= round2 x /\ round2 x <= 100.
Proof.
  intros H0 H1. unfold round2, math.Round.
  assert (Hb : Qle_bool 0 (x * 100) = true) by (apply Qle_bool_iff; lra).
  rewrite Hb.
  assert (Hlo : (Qfloor (1 # 2) <= Qfloor (x * 100 + (1 # 2)))%Z)
    by (apply Qfloor_resp_le; lra).
  assert (Hhi : (Qfloor (x * 100 + (1 # 2)) <= Qfloor (10000 + (1 # 2)))%Z)
    by (apply Qfloor_resp_le; lra).
  change (Qfloor (1 # 2)) with 0%Z in Hlo.
  change (Qfloor (10000 + (1 # 2))) with 10000%Z in Hhi.
  rewrite Zle_Qle in Hlo, Hhi.
  change (inject_Z 0) with 0 in Hlo. change (inject_Z 10000) with 10000 in Hhi.
  split.
  - apply Qle_shift_div_l; lra.
  - apply Qle_shift_div_r; lra.
Qed.

(** What [ValidateCoverage] returns on a window with E > S. *)
Lemma ValidateCoverage_Ok captions S E m :
  S < E ->
  exists r,
    ValidateCoverage captions S E m = Ok r /\
    Valid r = Qle_bool m (coveragePercent captions S E) /\
    Type_ r = "caption_coverage"%string /\
    Data r !! "required_coverage"%string = Some m /\
    Data r !! "actual_coverage"%string = Some (round2 (coveragePercent captions S E)) /\
    Data r !! "start_time"%string = Some S /\
    Data r !! "end_time"%string = Some E /\
    Data r !! "covered_time"%string = Some (round2 (coveredTime captions S E)) /\
    Data r !! "total_time"%string = Some (E - S) /\
    Data r !! "missing_coverage_seconds"%string
    = if Valid r then None
      else Some (round2 ((m / 100) * (E - S) - coveredTime captions S E)).
Proof.
  intros HSE. unfold ValidateCoverage.
  assert (Hr : Qle_bool E S = false) by now apply Qle_bool_false.
  rewrite Hr. eexists. split; [reflexivity|].
  fold (coveredTime captions S E). fold (coveragePercent captions S E).
  cbn [Valid Type_ Data].
  destruct (Qle_bool m (coveragePercent captions S E)); cbn [negb];
    repeat split;
    repeat (first [ rewrite lookup_insert_eq | rewrite lookup_insert_ne by discriminate ]);
    try reflexivity.
Qed.

Lemma ValidateCoverage_Err captions S E m :
  E <= S -> ValidateCoverage captions S E m = Err ErrRange.
Proof.
  intros H. unfold ValidateCoverage.
  now replace (Qle_bool E S) with true by (symmetry; now apply Qle_bool_iff).
Qed.

Lemma noOverlap_clip captions S E :
  noOverlap captions S E -> clipCaptions captions S E = [].
Proof.
  induction 1 as [|c cs Hc _ IH]; cbn [clipCaptions]; [reflexivity|].
  replace (Qle_bool (EndTime c) S || Qle_bool E (StartTime c))%bool with true;
    [exact IH|].
  symmetry. apply orb_true_iff. now rewrite !Qle_bool_iff.
Qed.


(** C4.  ValidateCoverage returns an error exactly when endTime <=
    startTime, and the error is InvalidRange; on a window with endTime >
    startTime, a caption list that is empty or has no caption
    overlapping the window gives a result whose actual_coverage and
    covered_time are 0. *)
Theorem coverage_error_only_range captions S E m :
  (isErr (ValidateCoverage captions S E m) = true <-> E <= S) /\
  (E <= S -> failsWith (ValidateCoverage captions S E m) InvalidRange) /\
  (S < E -> captions = [] \/ noOverlap captions S E ->
   exists r actual covered,
     ValidateCoverage captions S E m = Ok r /\
     Data r !! "actual_coverage"%string = Some actual /\ actual == 0 /\
     Data r !! "covered_time"%string = Some covered /\ covered == 0).
Proof.
  split; [|split].
  - destruct (Qlt_le_dec S E) as [Hlt|Hle].
    + destruct (ValidateCoverage_Ok captions S E m Hlt) as (r & -> & _).
      cbn. split; [discriminate | lra].
    + rewrite (ValidateCoverage_Err _ _ _ _ Hle). cbn. tauto.
  - intros Hle. rewrite (ValidateCoverage_Err _ _ _ _ Hle). now exists ErrRange.
  - intros Hlt Hno.
    assert (Hclip : clipCaptions captions S E = []).
    { destruct Hno as [->|Hno]; [reflexivity | now apply noOverlap_clip]. }
    destruct (ValidateCoverage_Ok captions S E m Hlt)
      as (r & Hr & _ & _ & _ & Ha & _ & _ & Hc & _).
    assert (H0 : coveredTime captions S E = 0)
      by (unfold coveredTime; now rewrite Hclip).
    exists r, (round2 (coveragePercent captions S E)),
              (round2 (coveredTime captions S E)).
    split; [exact Hr|]. split; [exact Ha|]. split; [|split; [exact Hc|]].
    + apply round2_zero. unfold coveragePercent. rewrite H0.
      unfold Qdiv. ring.
    + apply round2_zero. now rewrite H0.
Qed.

End Coverage.

(** ** Plain text *)

Section PlainText.

Import parser.

Lemma space2_blank c : strings.space2 c " " = false.
Proof. unfold strings.space2. cbn. apply andb_false_r. Qed.

Lemma space3_blank c1 c2 : strings.space3 c1 c2 " " = false.
Proof.
  unfold strings.space3. cbn. now rewrite !andb_false_r.
Qed.

Lemma trimRight_blank : forall s, strings.trimRight (s ++ " ") = strings.trimRight s.
Proof.
  induction s as [|c r IH]; [reflexivity|].
  rewrite append_cons. cbn [strings.trimRight]. now rewrite IH.
Qed.

Lemma trimLeft_blank : forall s,
  strings.trimLeft (s ++ " ")
  = match strings.trimLeft s with
    | EmptyString => EmptyString
    | t => t ++ " "
    end.
Proof.
  induction s as [s IH] using string_len_ind.
  destruct s as [|c1 r1]; [reflexivity|].
  rewrite append_cons. cbn [strings.trimLeft].
  destruct (strings.asciiSpace c1) eqn:E1; [apply IH; simpl; lia|].
  destruct r1 as [|c2 r2].
  { rewrite append_nil_l, space2_blank. reflexivity. }
  rewrite append_cons.
  destruct (strings.space2 c1 c2) eqn:E2; [apply IH; simpl; lia|].
  destruct r2 as [|c3 r3].
  { rewrite append_nil_l, space3_blank. reflexivity. }
  rewrite append_cons.
  destruct (strings.space3 c1 c2 c3) eqn:E3; [apply IH; simpl; lia|].
  reflexivity.
Qed.

(** A space written after the text does not survive the trimming. *)
Lemma TrimSpace_blank s : strings.TrimSpace (s ++ " ") = strings.TrimSpace s.
Proof.
  unfold strings.TrimSpace. rewrite trimLeft_blank.
  destruct (strings.trimLeft s) as [|c t] eqn:E; [reflexivity|].
  apply trimRight_blank.
Qed.

(** The content of the builder after the loop. *)
Lemma builder_content : forall (captions : list Caption) (acc : string),
  fold_left (fun b caption => b ++ regexp.removeTags (Text caption) ++ " ")
            captions acc
  = acc ++ match captions with
           | [] => EmptyString
           | _ => strings.Join
                    (map (fun c => regexp.removeTags (Text c)) captions) " " ++ " "
           end.
Proof.
  induction captions as [|c cs IH]; intros acc; cbn [fold_left].
  - now rewrite append_nil_r.
  - rewrite IH. destruct cs as [|c' cs'].
    + unfold strings.Join. cbn [map String.concat]. now rewrite append_nil_r.
    + unfold strings.Join. cbn [map String.concat].
      now rewrite !append_assoc.
Qed.

Lemma prefix_gt c r :
  String.prefix ">" (String c r) = (N_of_ascii c =? 62)%N.
Proof.
  cbn [String.prefix]. destruct (ascii_dec ">" c) as [<-|Hne].
  - now rewrite prefix_nil.
  - symmetry. apply N.eqb_neq. intros H. apply Hne.
    rewrite <- (ascii_N_embedding c), H. reflexivity.
Qed.

Lemma removeTags_without_gt : forall s,
  strings.Contains s ">" = false -> regexp.removeTagsFrom false s = s.
Proof.
  induction s as [|c r IH]; intros H; [reflexivity|].
  cbn [regexp.removeTagsFrom]. apply Contains_tail in H.
  rewrite H, andb_false_r, (IH H). reflexivity.
Qed.

Lemma hasSpan_without_gt : forall s,
  strings.Contains s ">" = false -> spec.hasSpan s = false.
Proof.
  induction s as [|c r IH]; intros H; [reflexivity|].
  cbn [spec.hasSpan]. apply Contains_tail in H.
  now rewrite H, andb_false_r, (IH H).
Qed.

Lemma removeTagsFrom_no_span : forall s inTag,
  spec.hasSpan (regexp.removeTagsFrom inTag s) = false.
Proof.
  induction s as [|c r IH]; intros inTag; [reflexivity|].
  cbn [regexp.removeTagsFrom]. destruct inTag; [apply IH|].
  destruct (N_of_ascii c =? 60)%N eqn:Ec; cbn [andb].
  - destruct (strings.Contains r ">") eqn:Er; [apply IH|].
    cbn [spec.hasSpan]. rewrite (removeTags_without_gt r Er), Er, Ec.
    cbn. now apply hasSpan_without_gt.
  - cbn [spec.hasSpan]. now rewrite Ec, IH.
Qed.

Lemma removeTags_without_span : forall s,
  spec.hasSpan s = false -> regexp.removeTags s = s.
Proof.
  unfold regexp.removeTags.
  induction s as [|c r IH]; intros H; [reflexivity|].
  cbn [spec.hasSpan] in H. apply orb_false_iff in H. destruct H as (H1 & H2).
  cbn [regexp.removeTagsFrom]. now rewrite H1, (IH H2).
Qed.

(** The loop and the trimming come to this: the texts without their
    tags, joined by single spaces, trimmed. *)
Lemma ExtractPlainText_joined (captions : list Caption) :
  ExtractPlainText captions = spec.plainText captions.
Proof.
  unfold ExtractPlainText, spec.plainText. rewrite builder_content.
  rewrite append_nil_l. destruct captions as [|c cs]; [reflexivity|].
  apply TrimSpace_blank.
Qed.

End PlainText.

(** ** The tests of the repository, on the model *)

Section Tests.

Import parser validator samples.

Example TestParseWebVTT :
  exists c1 c2,
    parseWebVTT strconv.parseDecimal webvttContent = Ok [c1; c2] /\
    Index c1 = 1%Z /\ (StartTime c1 == 1)%Q /\ (EndTime c1 == 4)%Q /\
    Text c1 = "This is the first caption." /\
    Index c2 = 2%Z /\ (StartTime c2 == 5)%Q /\ (EndTime c2 == 9)%Q.
Proof. do 2 eexists. vm_compute. repeat split. Qed.

Example TestParseSRT :
  exists c1 c2 c3,
    parseSRT strconv.parseDecimal srtContent = Ok [c1; c2; c3] /\
    (StartTime c1 == 1)%Q /\ (EndTime c1 == 4)%Q /\
    Text c2 = "This is the second caption." ++ newline ++ "It has multiple lines." /\
    Index c3 = 3%Z /\ (StartTime c3 == 10)%Q /\ (EndTime c3 == 14)%Q.
Proof. do 3 eexists. vm_compute. repeat split. Qed.

Example TestExtractPlainText :
  ExtractPlainText textCaptions
  = "This is the first caption. This is the second caption. This is the"
    ++ newline ++ "third caption.".
Proof. vm_compute. reflexivity. Qed.

(** Scenario 1: window 10 to 55, [minCoverage] 66.6: 35 of 45 seconds,
    77.78 percent, valid. *)
Example TestValidateCoverage_full :
  exists r,
    ValidateCoverage coverageCaptions 10 55 (666 # 10) = Ok r /\
    Valid r = true /\
    (coveredTime coverageCaptions 10 55 == 35)%Q /\
    Data r !! "actual_coverage" = Some (7778 # 100)%Q /\
    Data r !! "missing_coverage_seconds" = None.
Proof. eexists. vm_compute. repeat split. Qed.

(** Scenario 2: window 5 to 60, [minCoverage] 80: 63.64 percent, not
    valid, 9 seconds missing. *)
Example TestValidateCoverage_partial :
  exists r,
    ValidateCoverage coverageCaptions 5 60 80 = Ok r /\
    Valid r = false /\
    Data r !! "actual_coverage" = Some (6364 # 100)%Q /\
    Data r !! "missing_coverage_seconds" = Some (900 # 100)%Q.
Proof. eexists. vm_compute. repeat split. Qed.

Example TestValidateCoverage_invalid_range :
  ValidateCoverage coverageCaptions 10 5 90 = Err ErrRange.
Proof. reflexivity. Qed.

(** Overlapping and touching captions, given out of order: the window
    0 to 30 is covered once. *)
Example overlapping_counted_once :
  (coveredTime overlappingCaptions 0 30 == 30)%Q.
Proof. vm_compute. reflexivity. Qed.

End Tests.

(** ** The statements at concrete inputs *)

Section Instances.

Import parser validator spec samples.



Lemma timestamp_conversion_witness :
  strings.Split "00:01:02.5" ":" = ["00"; "01"; "02.5"] /\
  parseWebVTTTimestamp strconv.parseDecimal "00:01:02.5"
  = Ok (0 * 3600 + 1 * 60 + (25 # 10))%Q /\
  parseSRTTimestamp strconv.parseDecimal "00:01:02,5"
  = Ok (0 * 3600 + 1 * 60 + (25 # 10))%Q /\
  failsWith (parseWebVTTTimestamp strconv.parseDecimal "01:xx") InvalidTimestamp.
Proof.
  split; [reflexivity|]. split; [|split].
  - apply (proj1 (proj2 (timestamp_conversion strconv.parseDecimal "00:01:02.5"))
             "00" "01" "02.5"); reflexivity.
  - apply (proj2 (proj2 (proj2 (proj2
             (timestamp_conversion strconv.parseDecimal "00:01:02,5"))))
             "00" "01" "02.5"); reflexivity.
  - apply (proj1 (timestamp_conversion strconv.parseDecimal "01:xx")).
    right. apply Exists_cons_tl, Exists_cons_hd. reflexivity.
Defined.

(** The Format B conversion of "01:30,5": two components, both numbers,
    and the result is 0 without error, not 90.5; of "abc": one
    component, and the result is 0 without error, not a failure. *)
Lemma srt_timestamp_two_components :
  strings.Split (strings.Replace "01:30,5" "," "." 1) ":" = ["01"; "30.5"] /\
  strconv.parseDecimal "01" = Some 1%Q /\
  strconv.parseDecimal "30.5" = Some (305 # 10)%Q /\
  parseSRTTimestamp strconv.parseDecimal "01:30,5" = Ok 0%Q /\
  ~ (0 == 0 * 3600 + 1 * 60 + (305 # 10))%Q /\
  strings.Split (strings.Replace "abc" "," "." 1) ":" = ["abc"] /\
  parseSRTTimestamp strconv.parseDecimal "abc" = Ok 0%Q /\
  ~ failsWith (parseSRTTimestamp strconv.parseDecimal "abc") InvalidTimestamp.
Proof.
  repeat split; try reflexivity.
  - intros H. vm_compute in H. discriminate.
  - intros (e & He & _). vm_compute in He. discriminate.
Qed.

Lemma srt_missing_separator_witness :
  parseSRT strconv.parseDecimal srtTwoBlocks
  = Ok [ {| Index := 1;
            StartTime := (0 * 3600 + 0 * 60 + (1000 # 1000))%Q;
            EndTime := (0 * 3600 + 0 * 60 + (4000 # 1000))%Q;
            Text := strings.Join
                      [ "First caption"; "2"; "00:00:05,000 --> 00:00:09,000";
                        "Second caption" ] newline |} ].
Proof.
  apply (srt_missing_separator_merges strconv.parseDecimal srtTwoBlocks
           "1" "00:00:01,000 --> 00:00:04,000" "2" "00:00:05,000 --> 00:00:09,000"
           ["First caption"] ["Second caption"]).
  - reflexivity.
  - repeat constructor.
  - reflexivity.
  - reflexivity.
  - reflexivity.
Defined.

(** Two cue blocks without the blank line between them: one caption
    comes out, and its text holds both blocks. *)
Lemma srt_two_blocks_one_caption :
  exists c,
    parseSRT strconv.parseDecimal srtTwoBlocks = Ok [c] /\
    length [c] <> 2%nat /\
    Index c = 1%Z /\ (StartTime c == 1)%Q /\ (EndTime c == 4)%Q /\
    Text c = strings.Join
               [ "First caption"; "2"; "00:00:05,000 --> 00:00:09,000";
                 "Second caption" ] newline.
Proof.
  eexists. split; [vm_compute; reflexivity|].
  split; [discriminate|]. repeat split.
Qed.

Lemma coverage_error_only_range_witness :
  exists r actual covered,
    ValidateCoverage coverageCaptions 0 5 1 = Ok r /\
    Data r !! "actual_coverage" = Some actual /\ (actual == 0)%Q /\
    Data r !! "covered_time" = Some covered /\ (covered == 0)%Q.
Proof.
  apply (proj2 (proj2 (coverage_error_only_range coverageCaptions 0 5 1))).
  - reflexivity.
  - right. unfold noOverlap, coverageCaptions.
    repeat (apply List.Forall_cons; [right; vm_compute; discriminate|]).
    apply List.Forall_nil.
Defined.

Lemma webvtt_header_first_line_witness :
  failsWith (parseWebVTT strconv.parseDecimal (file ["Hello"; "WEBVTT"])) MissingHeader.
Proof.
  apply (proj2 (webvtt_header_first_line strconv.parseDecimal (file ["Hello"; "WEBVTT"]))).
  exists "Hello", ["WEBVTT"]. split; reflexivity.
Defined.

(** The first line is empty and the first line that is not empty is the
    signature: the parse fails with MissingHeader all the same. *)
Lemma webvtt_leading_blank_line :
  firstNonEmpty (fst (bufio.scanLines bufio.NewScanner webvttLeadingBlank))
  = Some "WEBVTT" /\
  strings.HasPrefix "WEBVTT" "WEBVTT" = true /\
  parseWebVTT strconv.parseDecimal webvttLeadingBlank = Err ErrMissingHeader /\
  failsWith (parseWebVTT strconv.parseDecimal webvttLeadingBlank) MissingHeader.
Proof.
  repeat split. now exists ErrMissingHeader.
Qed.

Lemma timeline_without_arrow_witness :
  failsWith (parseWebVTTTimeline strconv.parseDecimal "00:00:01.000 00:00:04.000")
            InvalidTimeline /\
  exists st', srtStep strconv.parseDecimal srtInit "00:00:01,000 00:00:04,000" = Ok st'.
Proof.
  split.
  - apply (timeline_without_arrow strconv.parseDecimal "00:00:01.000 00:00:04.000").
    reflexivity.
  - apply (timeline_without_arrow strconv.parseDecimal "00:00:01,000 00:00:04,000").
    reflexivity.
Defined.

(** The Format B timeline parser on a line without the arrow: start and
    end 0 and no error. *)
Lemma srt_timeline_without_arrow :
  strings.Contains "00:00:01,000 00:00:04,000" "-->" = false /\
  parseSRTTimeline strconv.parseDecimal "00:00:01,000 00:00:04,000" = Ok (0%Q, 0%Q) /\
  ~ failsWith (parseSRTTimeline strconv.parseDecimal "00:00:01,000 00:00:04,000")
              InvalidTimeline.
Proof.
  split; [reflexivity|]. split; [reflexivity|].
  intros (e & He & _). vm_compute in He. discriminate.
Qed.

Lemma bounded_variants_agree_witness :
  okValue (parseChunkedWebVTT strconv.parseDecimal webvttContent)
  = okValue (parseWebVTT strconv.parseDecimal webvttContent) /\
  parseChunkedSRT strconv.parseDecimal srtContent
  = parseSRT strconv.parseDecimal srtContent.
Proof.
  split.
  - apply (bounded_variants_agree strconv.parseDecimal webvttContent).
    repeat constructor.
  - apply (bounded_variants_agree strconv.parseDecimal srtContent).
    repeat constructor.
Defined.

End Instances.

(** ** More on the coverage engine *)

Section CoverageMore.

Import parser validator spec.

Local Open Scope Q_scope.
Local Open Scope list_scope.

Lemma StronglySorted_lookup (l : list timeSegment) :
  StronglySorted byStart l ->
  forall i j x y, (i <= j)%nat -> l !! i = Some x -> l !! j = Some y ->
                  start x <= start y.
Proof.
  induction 1 as [|g l Hs IH Hall]; intros i j x y Hij Hi Hj.
  - rewrite lookup_nil in Hi. discriminate.
  - destruct i as [|i]; destruct j as [|j]; cbn in Hi, Hj.
    + inversion Hi; inversion Hj; subst. apply Qle_refl.
    + inversion Hi; subst. rewrite List.Forall_forall in Hall.
      apply (Hall y). apply list_elem_of_In. eapply list_elem_of_lookup_2. exact Hj.
    + lia.
    + apply (IH i j); [lia | assumption | assumption].
Qed.

(** X1.  The sort of the segments returns the same segments, each as
    often as it was given, in the order of their start times: a segment
    at an earlier position starts no later than one at a later position. *)
Theorem sort_segments_ascending (a : list timeSegment) :
  Permutation (sortSegments a) a /\
  length (sortSegments a) = length a /\
  forall i j x y, (i <= j)%nat ->
    sortSegments a !! i = Some x -> sortSegments a !! j = Some y ->
    start x <= start y.
Proof.
  destruct (sortSegments_sorted a) as (Hp & Hs).
  split; [exact Hp|]. split; [now apply Permutation_length|].
  now apply StronglySorted_lookup.
Qed.

Lemma unionLength_same_instants captions captions' S E v :
  (forall x, S <= x -> x < E -> (active captions x <-> active captions' x)) ->
  unionLength captions S E v -> unionLength captions' S E v.
Proof.
  intros Hsame (p & Hs & Hc & Hv). exists p. split; [exact Hs|]. split; [|exact Hv].
  intros x. rewrite Hc. split; intros ((HS & HE) & Ha); (split; [tauto|]);
    now apply (Hsame x HS HE).
Qed.

(** X2.  The covered time depends on the captions only through the
    instants of the window at which some caption is on: two lists of
    captions, none ending before it starts, that are on at the same
    instants of the window have the same covered time.  Repeated
    captions, captions outside the window and captions inside others
    change nothing. *)
Theorem covered_time_extensional captions captions' S E :
  Forall (fun c => StartTime c <= EndTime c) captions ->
  Forall (fun c => StartTime c <= EndTime c) captions' ->
  S < E ->
  (forall x, S <= x -> x < E -> (active captions x <-> active captions' x)) ->
  coveredTime captions S E == coveredTime captions' S E.
Proof.
  intros Hv Hv' HSE Hsame.
  apply (unionLength_unique captions' S E).
  - apply (unionLength_same_instants captions); [exact Hsame|].
    now apply coveredTime_unionLength.
  - now apply coveredTime_unionLength.
Qed.




Lemma totalLength_nonneg : forall l, separated l -> 0 <= totalLength l.
Proof.
  induction l as [|g t IH]; intros Hs; cbn [totalLength]; [lra|].
  destruct Hs as (Hg & _ & Hs). specialize (IH Hs). lra.
Qed.

(** Separated segments that hold no more instants than others are no
    longer in total. *)
Lemma separated_subset_total : forall n l1 l2,
  (length l1 + length l2 <= n)%nat ->
  separated l1 -> separated l2 ->
  (forall x, covers l1 x -> covers l2 x) ->
  totalLength l1 <= totalLength l2.
Proof.
  induction n as [|n IH]; intros l1 l2 Hn Hs1 Hs2 Hc.
  { destruct l1, l2; simpl in Hn; try lia. apply Qle_refl. }
  destruct l1 as [|g1 t1]; [now apply totalLength_nonneg|].
  destruct l2 as [|g2 t2].
  { rewrite (uncovered_total _ Hs1); [apply Qle_refl|].
    intros x Hx. apply Hc in Hx. now apply covers_nil in Hx. }
  cbn [length] in Hn.
  destruct (Qlt_le_dec (start g1) (end_ g1)) as [N1|Z1].
  2:{ destruct Hs1 as (Hg1 & _ & Hs1').
    cbn [totalLength].
    assert (H : totalLength t1 <= totalLength (g2 :: t2)).
    { apply (IH t1 (g2 :: t2)); [simpl; lia | exact Hs1' | exact Hs2 |].
      intros x Hx. apply Hc, covers_cons. now right. }
    cbn [totalLength] in H. lra. }
  destruct (Qlt_le_dec (start g2) (end_ g2)) as [N2|Z2].
  2:{ destruct Hs2 as (Hg2 & _ & Hs2').
    cbn [totalLength].
    assert (H : totalLength (g1 :: t1) <= totalLength t2).
    { apply (IH (g1 :: t1) t2); [simpl; lia | exact Hs1 | exact Hs2' |].
      intros x Hx. apply Hc, covers_cons in Hx. destruct Hx as [Hx|Hx]; [lra|exact Hx]. }
    cbn [totalLength] in H. lra. }
  assert (Hc1 : covers (g1 :: t1) (start g1)) by (apply covers_cons; left; lra).
  pose proof (separated_lower g2 t2 _ Hs2 (Hc _ Hc1)) as Hlow.
  destruct (Qlt_le_dec (start g1) (end_ g2)) as [Hin|Hout].
  - (* [g1] starts inside [g2], and then ends inside it *)
    assert (Hend : end_ g1 <= end_ g2).
    { destruct (Qlt_le_dec (end_ g2) (end_ g1)) as [Hlt|]; [exfalso|assumption].
      assert (Hx : covers (g2 :: t2) (end_ g2))
        by (apply Hc, covers_cons; left; lra).
      apply covers_cons in Hx. destruct Hx as [Hx|Hx]; [lra|].
      apply (covers_tail_above g2 t2 _ Hs2) in Hx. lra. }
    set (g2' := {| start := end_ g1; end_ := end_ g2 |}).
    assert (Hs2' : separated (g2' :: t2)).
    { destruct Hs2 as (_ & Hgap & Hs2). unfold g2'. cbn [separated start end_].
      split; [exact Hend|]. split; [exact Hgap | exact Hs2]. }
    assert (H : totalLength t1 <= totalLength (g2' :: t2)).
    { apply (IH t1 (g2' :: t2)); [simpl; lia | apply Hs1 | exact Hs2' |].
      intros x Hx. pose proof (covers_tail_above g1 t1 x Hs1 Hx) as Hab.
      assert (Hx' : covers (g2 :: t2) x) by (apply Hc, covers_cons; now right).
      apply covers_cons in Hx'. apply covers_cons. unfold g2'. cbn [start end_].
      destruct Hx' as [Hx'|Hx']; [left; lra | now right]. }
    unfold g2' in H. cbn [totalLength start end_] in H |- *. lra.
  - (* [g1] and all that follows lie after [g2] *)
    destruct Hs2 as (Hg2 & _ & Hs2').
    assert (H : totalLength (g1 :: t1) <= totalLength t2).
    { apply (IH (g1 :: t1) t2); [simpl; lia | exact Hs1 | exact Hs2' |].
      intros x Hx. pose proof (separated_lower g1 t1 x Hs1 Hx) as Hx1.
      apply Hc, covers_cons in Hx. destruct Hx as [Hx|Hx]; [lra | exact Hx]. }
    cbn [totalLength] in H |- *. lra.
Qed.

End CoverageMore.

(** ** The coverage engine on [float64] *)

(** *** The order of [float64] *)

Section Float64Facts.

Import float64.

Local Open Scope Z_scope.

Lemma digits2_size m : digits2_pos m = Pos.size m.
Proof. induction m as [m IH|m IH|]; cbn; congruence. Qed.

Lemma bounded_range m e :
  bounded prec emax m e = true ->
  -1074 <= e /\ Z.pos m < 2 ^ 53 /\ (e = -1074 \/ 2 ^ 52 <= Z.pos m).
Proof.
  unfold bounded, canonical_mantissa, fexp, emin, prec, emax.
  rewrite andb_true_iff, Z.eqb_eq, digits2_size. intros (Hc & _).
  pose proof (Pos.size_gt m) as Hgt. pose proof (Pos.size_le m) as Hle.
  apply Pos2Z.pos_lt_pos in Hgt. apply Pos2Z.pos_le_pos in Hle.
  rewrite Pos2Z.inj_pow in Hgt, Hle. rewrite Pos2Z.inj_xO in Hle.
  set (d := Z.pos (Pos.size m)) in *.
  assert (Hd : 0 < d) by (unfold d; lia).
  assert (Hd53 : d <= 53) by lia.
  split; [lia|]. split.
  - apply (Z.lt_le_trans _ _ _ Hgt). apply Z.pow_le_mono_r; lia.
  - destruct (Z.eq_dec e (-1074)) as [He|He]; [now left | right].
    assert (E53 : d = 53) by lia. rewrite E53 in Hle.
    change (2 ^ 53) with (2 * 2 ^ 52) in Hle. lia.
Qed.

Lemma scaled_lt m1 e1 m2 e2 :
  bounded prec emax m1 e1 = true -> bounded prec emax m2 e2 = true ->
  e1 < e2 ->
  Z.pos m1 * 2 ^ (e1 + 1074) < Z.pos m2 * 2 ^ (e2 + 1074).
Proof.
  intros H1 H2 He.
  destruct (bounded_range _ _ H1) as (L1 & U1 & _).
  destruct (bounded_range _ _ H2) as (L2 & _ & [N2|N2]); [lia|].
  replace (e2 + 1074) with ((e2 - e1) + (e1 + 1074)) by lia.
  rewrite (Z.pow_add_r 2 (e2 - e1) (e1 + 1074)) by lia.
  assert (Hp : 0 < 2 ^ (e1 + 1074)) by (apply Z.pow_pos_nonneg; lia).
  assert (Hd : 2 ^ 1 <= 2 ^ (e2 - e1)) by (apply Z.pow_le_mono_r; lia).
  change (2 ^ 1) with 2 in Hd. change (2 ^ 53) with (2 * 2 ^ 52) in U1.
  rewrite Z.mul_assoc. apply Z.mul_lt_mono_pos_r; [exact Hp|]. nia.
Qed.

Lemma compare_scaled x y :
  finite x = true -> finite y = true ->
  SFcompare x y = Some (scaled x ?= scaled y).
Proof.
  destruct x as [sx|sx| |sx mx ex]; destruct y as [sy|sy| |sy my ey];
    try discriminate; cbn [finite]; intros Hx Hy; cbn [SFcompare scaled].
  - reflexivity.
  - f_equal. symmetry.
    assert (Hp : 0 < 2 ^ (ey + 1074))
      by (apply Z.pow_pos_nonneg; destruct (bounded_range _ _ Hy); lia).
    destruct sy; [apply Z.compare_gt_iff | apply Z.compare_lt_iff]; nia.
  - f_equal. symmetry.
    assert (Hp : 0 < 2 ^ (ex + 1074))
      by (apply Z.pow_pos_nonneg; destruct (bounded_range _ _ Hx); lia).
    destruct sx; [apply Z.compare_lt_iff | apply Z.compare_gt_iff]; nia.
  - f_equal. symmetry.
    assert (Hpx : 0 < 2 ^ (ex + 1074))
      by (apply Z.pow_pos_nonneg; destruct (bounded_range _ _ Hx); lia).
    assert (Hpy : 0 < 2 ^ (ey + 1074))
      by (apply Z.pow_pos_nonneg; destruct (bounded_range _ _ Hy); lia).
    destruct sx, sy.
    + destruct (Z.compare_spec ex ey) as [He|He|He].
      * subst ey. change (PosDef.Pos.compare_cont Eq mx my) with (Pos.compare mx my).
        destruct (Pos.compare_spec mx my) as [Hm|Hm|Hm]; cbn [CompOpp].
        -- subst. apply Z.compare_refl.
        -- apply Z.compare_gt_iff. apply Pos2Z.pos_lt_pos in Hm. nia.
        -- apply Z.compare_lt_iff. apply Pos2Z.pos_lt_pos in Hm. nia.
      * apply Z.compare_gt_iff. pose proof (scaled_lt _ _ _ _ Hx Hy He). lia.
      * apply Z.compare_lt_iff. pose proof (scaled_lt _ _ _ _ Hy Hx He). lia.
    + apply Z.compare_lt_iff. nia.
    + apply Z.compare_gt_iff. nia.
    + destruct (Z.compare_spec ex ey) as [He|He|He].
      * subst ey. change (PosDef.Pos.compare_cont Eq mx my) with (Pos.compare mx my).
        destruct (Pos.compare_spec mx my) as [Hm|Hm|Hm].
        -- subst. apply Z.compare_refl.
        -- apply Z.compare_lt_iff. apply Pos2Z.pos_lt_pos in Hm. nia.
        -- apply Z.compare_gt_iff. apply Pos2Z.pos_lt_pos in Hm. nia.
      * apply Z.compare_lt_iff. now apply scaled_lt.
      * apply Z.compare_gt_iff. now apply scaled_lt.
Qed.

Lemma leb_scaled x y :
  finite x = true -> finite y = true -> leb x y = (scaled x <=? scaled y).
Proof.
  intros Hx Hy. unfold leb, SFleb. rewrite (compare_scaled x y Hx Hy).
  unfold Z.leb. now destruct (scaled x ?= scaled y).
Qed.

Lemma ltb_scaled x y :
  finite x = true -> finite y = true -> ltb x y = (scaled x <? scaled y).
Proof.
  intros Hx Hy. unfold ltb, SFltb. rewrite (compare_scaled x y Hx Hy).
  unfold Z.ltb. now destruct (scaled x ?= scaled y).
Qed.

Lemma eqb_scaled x y :
  finite x = true -> finite y = true -> eqb x y = (scaled x =? scaled y).
Proof.
  intros Hx Hy. unfold eqb, SFeqb. rewrite (compare_scaled x y Hx Hy).
  destruct (scaled x ?= scaled y) eqn:E.
  - apply Z.compare_eq in E. rewrite E. now rewrite Z.eqb_refl.
  - rewrite Z.compare_lt_iff in E. symmetry. apply Z.eqb_neq. lia.
  - rewrite Z.compare_gt_iff in E. symmetry. apply Z.eqb_neq. lia.
Qed.

Lemma Qle_bool_value x y : Qle_bool (value x) (value y) = (scaled x <=? scaled y).
Proof.
  unfold value, Qle_bool. cbn [Qnum Qden].
  generalize (2 ^ 1074)%positive. intros d.
  destruct (Z.leb_spec (scaled x) (scaled y)) as [H|H].
  - apply Z.leb_le. nia.
  - apply Z.leb_gt. nia.
Qed.

Lemma leb_value x y :
  finite x = true -> finite y = true -> leb x y = Qle_bool (value x) (value y).
Proof. intros Hx Hy. now rewrite Qle_bool_value, leb_scaled. Qed.

Lemma ltb_value x y :
  finite x = true -> finite y = true -> ltb x y = math.gtb (value y) (value x).
Proof.
  intros Hx Hy. unfold math.gtb. rewrite Qle_bool_value, ltb_scaled by assumption.
  apply Z.ltb_antisym.
Qed.

Lemma value_le x y : (value x <= value y)%Q <-> scaled x <= scaled y.
Proof. rewrite <- Qle_bool_iff, Qle_bool_value. apply Z.leb_le. Qed.

Lemma scaled_value x y : scaled x = scaled y -> value x = value y.
Proof. unfold value. now intros ->. Qed.

Lemma finite_cases x : finite x = true -> isPosInf x = false /\ isNegInf x = false /\ IsNaN x = false.
Proof. destruct x as [s|s| |s m e]; try discriminate; now intros _. Qed.

Lemma Max_value x y :
  finite x = true -> finite y = true ->
  finite (Max x y) = true /\ value (Max x y) = math.Max (value x) (value y).
Proof.
  intros Hx Hy. unfold Max, math.Max.
  destruct (finite_cases x Hx) as (-> & _ & ->).
  destruct (finite_cases y Hy) as (-> & _ & ->). cbn [orb].
  rewrite <- (ltb_value y x Hy Hx).
  destruct (eqb x zero && eqb x y) eqn:Ez.
  - apply andb_true_iff in Ez. destruct Ez as (_ & Exy).
    rewrite (eqb_scaled x y Hx Hy) in Exy. apply Z.eqb_eq in Exy.
    pose proof (scaled_value _ _ Exy) as Hv.
    destruct (Signbit x), (ltb y x); split; auto.
  - destruct (ltb y x); split; auto.
Qed.

Lemma Min_value x y :
  finite x = true -> finite y = true ->
  finite (Min x y) = true /\ value (Min x y) = math.Min (value x) (value y).
Proof.
  intros Hx Hy. unfold Min, math.Min.
  destruct (finite_cases x Hx) as (_ & -> & ->).
  destruct (finite_cases y Hy) as (_ & -> & ->). cbn [orb].
  rewrite <- (ltb_value x y Hx Hy).
  destruct (eqb x zero && eqb x y) eqn:Ez.
  - apply andb_true_iff in Ez. destruct Ez as (_ & Exy).
    rewrite (eqb_scaled x y Hx Hy) in Exy. apply Z.eqb_eq in Exy.
    pose proof (scaled_value _ _ Exy) as Hv.
    destruct (Signbit x), (ltb x y); split; auto.
  - destruct (ltb x y); split; auto.
Qed.

End Float64Facts.

(** *** The signs of sums, differences, products and quotients *)

Section Float64Signs.

Import float64.

Local Open Scope Z_scope.

Lemma nonNegative_cases x :
  nonNegative x = true <->
  match x with
  | S754_zero _ | S754_finite false _ _ | S754_infinity false => True
  | _ => False
  end.
Proof.
  unfold nonNegative, leb, SFleb, zero.
  destruct x as [s|[|]| |[|] m e]; cbn; split; auto; discriminate.
Qed.

Lemma shr_1_nonneg mrs : 0 <= shr_m mrs -> 0 <= shr_m (shr_1 mrs).
Proof.
  destruct mrs as [m r s]. destruct m as [|[p|p|]|p]; cbn; lia.
Qed.

Lemma iter_shr_1_nonneg : forall n mrs,
  0 <= shr_m mrs -> 0 <= shr_m (SpecFloat.iter_pos shr_1 n mrs).
Proof.
  induction n as [n IH|n IH|]; intros mrs H; cbn [SpecFloat.iter_pos].
  - apply IH, IH. now apply shr_1_nonneg.
  - now apply IH, IH.
  - now apply shr_1_nonneg.
Qed.

Lemma shr_record_of_loc_m m l : shr_m (shr_record_of_loc m l) = m.
Proof. destruct l as [|[ | | ]]; reflexivity. Qed.

Lemma shr_fexp_nonneg m e l :
  0 <= m -> 0 <= shr_m (fst (shr_fexp prec emax m e l)).
Proof.
  intros H. unfold shr_fexp, shr.
  destruct (fexp prec emax (Zdigits2 m + e) - e); cbn [fst];
    try (now rewrite shr_record_of_loc_m).
  apply iter_shr_1_nonneg. now rewrite shr_record_of_loc_m.
Qed.

Lemma round_nearest_even_nonneg m l : 0 <= m -> 0 <= round_nearest_even m l.
Proof.
  intros H. unfold round_nearest_even.
  destruct l as [|[ | | ]]; try lia. destruct (IntDef.Z.even m); lia.
Qed.

(** Rounding a magnitude that is not negative gives a zero, a number or
    an infinity of the sign asked for. *)
Lemma binary_round_aux_nonneg mx ex lx :
  0 <= mx -> nonNegative (binary_round_aux prec emax false mx ex lx) = true.
Proof.
  intros H. unfold binary_round_aux.
  pose proof (shr_fexp_nonneg mx ex lx H) as H1.
  destruct (shr_fexp prec emax mx ex lx) as [mrs' e'].
  cbn [fst] in H1.
  pose proof (shr_fexp_nonneg _ e' loc_Exact
                (round_nearest_even_nonneg _ (loc_of_shr_record mrs') H1)) as H2.
  destruct (shr_fexp prec emax _ e' loc_Exact) as [mrs'' e''].
  cbn [fst] in H2. apply nonNegative_cases.
  destruct (shr_m mrs''); [exact I | | lia].
  now destruct (e'' <=? emax - prec).
Qed.

Lemma binary_normalize_nonneg m e :
  0 <= m -> nonNegative (binary_normalize prec emax m e false) = true.
Proof.
  intros H. unfold binary_normalize. destruct m as [|p|p]; [reflexivity| |lia].
  unfold binary_round. destruct (shl_align p e _) as [mz ez].
  apply binary_round_aux_nonneg. lia.
Qed.

Lemma shl_align_value mx ex ez :
  ez <= ex -> Z.pos (fst (shl_align mx ex ez)) = Z.pos mx * 2 ^ (ex - ez).
Proof.
  intros H. unfold shl_align. destruct (ez - ex) as [|d|d] eqn:E; cbn [fst].
  - replace (ex - ez) with 0 by lia. lia.
  - lia.
  - change (PosDef.Pos.iter xO mx d) with (shift_pos d mx).
    rewrite shift_pos_correct, Z.pow_pos_fold.
    replace (ex - ez) with (Z.pos d) by lia. lia.
Qed.

(** The integers that [SFadd] and [SFsub] add and subtract, in units of
    [2^-1074]. *)
Lemma aligned_scaled s m e ez :
  bounded prec emax m e = true -> -1074 <= ez -> ez <= e ->
  cond_Zopp s (Z.pos (fst (shl_align m e ez))) * 2 ^ (ez + 1074)
  = scaled (S754_finite s m e).
Proof.
  intros Hb Hz He. rewrite (shl_align_value m e ez He). cbn [scaled].
  replace (e + 1074) with ((e - ez) + (ez + 1074)) by lia.
  rewrite (Z.pow_add_r 2 (e - ez) (ez + 1074)) by lia.
  destruct s; cbn [cond_Zopp]; [change (Z.neg m) with (- Z.pos m)|]; ring.
Qed.

Lemma sub_nonneg x y :
  finite x = true -> finite y = true -> scaled y <= scaled x ->
  nonNegative (sub x y) = true.
Proof.
  destruct x as [sx|sx| |sx mx ex]; destruct y as [sy|sy| |sy my ey];
    try discriminate; cbn [finite]; intros Hx Hy Hle; unfold sub; cbn [SFsub].
  - now destruct sx, sy.
  - apply nonNegative_cases. cbn [scaled] in Hle.
    assert (0 < 2 ^ (ey + 1074))
      by (apply Z.pow_pos_nonneg; destruct (bounded_range _ _ Hy); lia).
    destruct sy; [exact I | nia].
  - apply nonNegative_cases. cbn [scaled] in Hle.
    assert (0 < 2 ^ (ex + 1074))
      by (apply Z.pow_pos_nonneg; destruct (bounded_range _ _ Hx); lia).
    destruct sx; [nia | exact I].
  - cbv zeta. set (ez := IntDef.Z.min ex ey).
    assert (Hez : ez = Z.min ex ey) by reflexivity.
    destruct (bounded_range _ _ Hx) as (Lx & _). destruct (bounded_range _ _ Hy) as (Ly & _).
    apply binary_normalize_nonneg.
    pose proof (aligned_scaled sx mx ex ez Hx ltac:(lia) ltac:(lia)) as Ax.
    pose proof (aligned_scaled sy my ey ez Hy ltac:(lia) ltac:(lia)) as Ay.
    assert (Hp : 0 < 2 ^ (ez + 1074)) by (apply Z.pow_pos_nonneg; lia).
    nia.
Qed.

Lemma add_nonneg x y :
  nonNegative x = true -> nonNegative y = true -> nonNegative (add x y) = true.
Proof.
  rewrite !nonNegative_cases. unfold add.
  destruct x as [sx|sx| |sx mx ex]; try tauto;
    destruct y as [sy|sy| |sy my ey]; try tauto;
    destruct sx, sy; try tauto; intros _ _; cbn [SFadd]; try exact I.
  cbv zeta. cbn [cond_Zopp]. apply nonNegative_cases, binary_normalize_nonneg. lia.
Qed.

Lemma mul_nonneg x m e :
  nonNegative x = true -> nonNegative (mul x (S754_finite false m e)) = true.
Proof.
  rewrite nonNegative_cases.
  destruct x as [sx|sx| |sx mx ex]; try tauto; destruct sx; try tauto;
    intros _; unfold mul; cbn [SFmul xorb]; try reflexivity.
  apply binary_round_aux_nonneg. lia.
Qed.

Lemma div_nonneg x m e :
  nonNegative x = true -> nonNegative (div x (S754_finite false m e)) = true.
Proof.
  rewrite nonNegative_cases.
  destruct x as [sx|sx| |sx mx ex]; try tauto; destruct sx; try tauto;
    intros _; unfold div; cbn [SFdiv xorb]; try reflexivity.
  - unfold SFdiv_core_binary. cbv zeta.
    set (m' := match _ with 0 => Z.pos mx | Z.pos _ => _ | Z.neg _ => 0 end).
    assert (Hm' : 0 <= m').
    { unfold m'. destruct (_ - _ - _); try lia. apply Z.shiftl_nonneg. lia. }
    pose proof (Z_div_mod m' (Z.pos m) ltac:(lia)) as Hd.
    change (IntDef.Z.div_eucl m' (Z.pos m)) with (Z.div_eucl m' (Z.pos m)).
    destruct (Z.div_eucl m' (Z.pos m)) as [q r]. destruct Hd as (Hq & Hr).
    apply binary_round_aux_nonneg. nia.
Qed.

Lemma positive_cases x :
  ltb zero x = true <->
  match x with
  | S754_finite false _ _ | S754_infinity false => True
  | _ => False
  end.
Proof.
  unfold ltb, SFltb, zero.
  destruct x as [s|[|]| |[|] m e]; cbn; split; auto; discriminate.
Qed.

Lemma shr_1_pos mrs q :
  shr_m mrs = Z.pos q -> 1 < Z.pos (digits2_pos q) ->
  exists q', shr_m (shr_1 mrs) = Z.pos q' /\
             Z.pos (digits2_pos q') = Z.pos (digits2_pos q) - 1.
Proof.
  destruct mrs as [m r s]. cbn [shr_m]. intros -> Hd.
  destruct q as [p|p|]; cbn [shr_1 shr_m digits2_pos] in *;
    [exists p; split; [reflexivity|lia] | exists p; split; [reflexivity|lia] | lia].
Qed.

Lemma iter_shr_1_pos : forall n mrs q,
  shr_m mrs = Z.pos q -> Z.pos n < Z.pos (digits2_pos q) ->
  exists q', shr_m (SpecFloat.iter_pos shr_1 n mrs) = Z.pos q' /\
             Z.pos (digits2_pos q') = Z.pos (digits2_pos q) - Z.pos n.
Proof.
  induction n as [n IH|n IH|]; intros mrs q Hm Hd; cbn [SpecFloat.iter_pos].
  - destruct (shr_1_pos mrs q Hm ltac:(lia)) as (q1 & H1 & D1).
    destruct (IH _ q1 H1 ltac:(lia)) as (q2 & H2 & D2).
    destruct (IH _ q2 H2 ltac:(lia)) as (q3 & H3 & D3).
    exists q3. split; [exact H3 | lia].
  - destruct (IH _ q Hm ltac:(lia)) as (q2 & H2 & D2).
    destruct (IH _ q2 H2 ltac:(lia)) as (q3 & H3 & D3).
    exists q3. split; [exact H3 | lia].
  - destruct (shr_1_pos mrs q Hm Hd) as (q1 & H1 & D1).
    exists q1. split; [exact H1 | lia].
Qed.

Lemma shr_fexp_pos q e l :
  -1074 <= e ->
  exists q', shr_m (fst (shr_fexp prec emax (Z.pos q) e l)) = Z.pos q' /\
             -1074 <= snd (shr_fexp prec emax (Z.pos q) e l).
Proof.
  intros He. unfold shr_fexp, shr, fexp, emin, prec, emax. cbn [Zdigits2].
  destruct (IntDef.Z.max (Z.pos (digits2_pos q) + e - 53) (3 - 1024 - 53) - e)
    as [|n|n] eqn:En; cbn [fst snd];
    try (exists q; split; [apply shr_record_of_loc_m | exact He]).
  change (IntDef.Z.max (Z.pos (digits2_pos q) + e - 53) (3 - 1024 - 53))
    with (Z.max (Z.pos (digits2_pos q) + e - 53) (-1074)) in En.
  destruct (iter_shr_1_pos n (shr_record_of_loc (Z.pos q) l) q
              (shr_record_of_loc_m _ _) ltac:(lia)) as (q' & Hq' & _).
  exists q'. split; [exact Hq' | lia].
Qed.

(** Rounding a positive magnitude whose exponent is that of a
    [float64] gives a positive number or the positive infinity, never a
    zero. *)
Lemma binary_round_aux_pos q ex lx :
  -1074 <= ex -> ltb zero (binary_round_aux prec emax false (Z.pos q) ex lx) = true.
Proof.
  intros He. unfold binary_round_aux.
  destruct (shr_fexp_pos q ex lx He) as (q1 & H1 & E1).
  destruct (shr_fexp prec emax (Z.pos q) ex lx) as [mrs' e'].
  cbn [fst snd] in H1, E1. rewrite H1.
  assert (Hr : exists q2, round_nearest_even (Z.pos q1) (loc_of_shr_record mrs')
                          = Z.pos q2).
  { unfold round_nearest_even.
    destruct (loc_of_shr_record mrs') as [|[ | | ]]; try (now exists q1).
    - destruct (IntDef.Z.even (Z.pos q1)); [now exists q1|].
      exists (q1 + 1)%positive. lia.
    - exists (q1 + 1)%positive. lia. }
  destruct Hr as (q2 & ->).
  destruct (shr_fexp_pos q2 e' loc_Exact E1) as (q3 & H3 & _).
  destruct (shr_fexp prec emax (Z.pos q2) e' loc_Exact) as [mrs'' e''].
  cbn [fst] in H3. rewrite H3. apply positive_cases.
  now destruct (e'' <=? emax - prec).
Qed.

Lemma binary_normalize_pos m e :
  0 < m -> -1074 <= e -> ltb zero (binary_normalize prec emax m e false) = true.
Proof.
  intros H He. unfold binary_normalize. destruct m as [|p|p]; [lia| |lia].
  unfold binary_round, shl_align, fexp, emin, prec, emax.
  set (f := IntDef.Z.max (Z.pos (digits2_pos p) + e - 53) (3 - 1024 - 53)).
  assert (Hf : -1074 <= f) by (unfold f; change IntDef.Z.max with Z.max; lia).
  destruct (f - e) as [|d|d]; now apply binary_round_aux_pos.
Qed.

Lemma sub_pos x y :
  finite x = true -> finite y = true -> scaled y < scaled x ->
  ltb zero (sub x y) = true.
Proof.
  destruct x as [sx|sx| |sx mx ex]; destruct y as [sy|sy| |sy my ey];
    try discriminate; cbn [finite]; intros Hx Hy Hlt; unfold sub; cbn [SFsub].
  - apply positive_cases. cbn [scaled] in Hlt.
    assert (0 < 2 ^ (ey + 1074))
      by (apply Z.pow_pos_nonneg; destruct (bounded_range _ _ Hy); lia).
    destruct sy; [exact I | nia].
  - apply positive_cases. cbn [scaled] in Hlt.
    assert (0 < 2 ^ (ex + 1074))
      by (apply Z.pow_pos_nonneg; destruct (bounded_range _ _ Hx); lia).
    destruct sx; [nia | exact I].
  - cbv zeta. set (ez := IntDef.Z.min ex ey).
    assert (Hez : ez = Z.min ex ey) by reflexivity.
    destruct (bounded_range _ _ Hx) as (Lx & _). destruct (bounded_range _ _ Hy) as (Ly & _).
    pose proof (aligned_scaled sx mx ex ez Hx ltac:(lia) ltac:(lia)) as Ax.
    pose proof (aligned_scaled sy my ey ez Hy ltac:(lia) ltac:(lia)) as Ay.
    assert (Hp : 0 < 2 ^ (ez + 1074)) by (apply Z.pow_pos_nonneg; lia).
    apply binary_normalize_pos; [nia | lia].
Qed.

End Float64Signs.

(** *** The segments as numbers *)

Section ExactSegments.

Import float64 validator64.

Local Open Scope list_scope.

Lemma finiteSegment_ends g :
  finiteSegment g = true <-> finite (start g) = true /\ finite (end_ g) = true.
Proof. unfold finiteSegment. apply andb_true_iff. Qed.

Lemma wellFormed_times c :
  wellFormed c = true ->
  finite (StartTime c) = true /\ finite (EndTime c) = true /\
  (value (StartTime c) <= value (EndTime c))%Q.
Proof.
  unfold wellFormed. rewrite !andb_true_iff. intros ((Hs & He) & Hle).
  split; [exact Hs|]. split; [exact He|].
  rewrite (leb_value _ _ Hs He) in Hle. now apply Qle_bool_iff.
Qed.

Lemma clipCaptions_exact captions S E :
  Forall (fun c => wellFormed c = true) captions ->
  finite S = true -> finite E = true ->
  Forall (fun g => finiteSegment g = true) (clipCaptions captions S E) /\
  map exactSegment (clipCaptions captions S E)
  = validator.clipCaptions (map exactCaption captions) (value S) (value E).
Proof.
  intros Hall HS HE. induction Hall as [|c rest Hc Hrest IH]; [now split|].
  destruct IH as (IHf & IHe).
  destruct (wellFormed_times c Hc) as (Hs & He & _).
  cbn [clipCaptions map validator.clipCaptions exactCaption
       parser.StartTime parser.EndTime].
  rewrite <- (leb_value _ _ He HS), <- (leb_value _ _ HE Hs).
  destruct (leb (EndTime c) S || leb E (StartTime c)); [now split|].
  destruct (Max_value (StartTime c) S Hs HS) as (Fmax & Vmax).
  destruct (Min_value (EndTime c) E He HE) as (Fmin & Vmin).
  split.
  - constructor; [|exact IHf]. apply finiteSegment_ends. now split.
  - cbn [map]. rewrite IHe. unfold exactSegment at 1. cbn [start end_].
    now rewrite Vmax, Vmin.
Qed.

Lemma lookup_exact (a : list timeSegment) i :
  map exactSegment a !! i = option_map exactSegment (a !! i).
Proof.
  revert i. induction a as [|g a IH]; intros [|i]; cbn; try reflexivity. apply IH.
Qed.

Lemma insert_exact (a : list timeSegment) i g :
  map exactSegment (<[i := g]> a) = <[i := exactSegment g]> (map exactSegment a).
Proof.
  revert i. induction a as [|h a IH]; intros [|i]; cbn; try reflexivity.
  now rewrite IH.
Qed.

Lemma finiteSegments_lookup (a : list timeSegment) i g :
  Forall (fun g => finiteSegment g = true) a -> a !! i = Some g -> finiteSegment g = true.
Proof.
  intros Ha. revert i. induction Ha as [|h a Hh Ha IH]; intros [|i] Hi;
    cbn in Hi; try discriminate.
  - now inversion Hi; subst.
  - now apply (IH i).
Qed.

Lemma finiteSegments_insert (a : list timeSegment) i g :
  Forall (fun g => finiteSegment g = true) a -> finiteSegment g = true -> Forall (fun g => finiteSegment g = true) (<[i := g]> a).
Proof.
  intros Ha Hg. revert i. induction Ha as [|h a Hh Ha IH]; intros [|i]; cbn;
    constructor; auto.
Qed.

Lemma compareSwap_exact i j a :
  Forall (fun g => finiteSegment g = true) a ->
  Forall (fun g => finiteSegment g = true) (compareSwap i j a) /\
  map exactSegment (compareSwap i j a)
  = validator.compareSwap i j (map exactSegment a).
Proof.
  intros Ha. unfold compareSwap, validator.compareSwap.
  rewrite !lookup_exact.
  destruct (a !! i) as [x|] eqn:Hi; [|now split].
  destruct (a !! j) as [y|] eqn:Hj; [|now split].
  cbn [option_map].
  pose proof (finiteSegments_lookup a i x Ha Hi) as Hx.
  pose proof (finiteSegments_lookup a j y Ha Hj) as Hy.
  apply finiteSegment_ends in Hx, Hy.
  destruct Hx as (Hx & _), Hy as (Hy & _).
  change (validator.start (exactSegment x)) with (value (start x)).
  change (validator.start (exactSegment y)) with (value (start y)).
  rewrite <- (ltb_value _ _ Hy Hx).
  destruct (ltb (start y) (start x)); [|now split].
  split.
  - apply finiteSegments_insert; [apply finiteSegments_insert|].
    + exact Ha.
    + exact (finiteSegments_lookup a j y Ha Hj).
    + exact (finiteSegments_lookup a i x Ha Hi).
  - now rewrite !insert_exact.
Qed.

Lemma innerLoop_exact : forall k i j a,
  Forall (fun g => finiteSegment g = true) a ->
  Forall (fun g => finiteSegment g = true) (innerLoop i j k a) /\
  map exactSegment (innerLoop i j k a)
  = validator.innerLoop i j k (map exactSegment a).
Proof.
  induction k as [|k IH]; intros i j a Ha; [now split|].
  cbn [innerLoop validator.innerLoop].
  destruct (compareSwap_exact i j a Ha) as (Hf & He).
  rewrite <- He. now apply IH.
Qed.

Lemma outerLoop_exact : forall k i a,
  Forall (fun g => finiteSegment g = true) a ->
  Forall (fun g => finiteSegment g = true) (outerLoop i k a) /\
  map exactSegment (outerLoop i k a)
  = validator.outerLoop i k (map exactSegment a).
Proof.
  induction k as [|k IH]; intros i a Ha; [now split|].
  cbn [outerLoop validator.outerLoop]. rewrite length_map.
  destruct (innerLoop_exact (length a - S i) i (S i) a Ha) as (Hf & He).
  rewrite <- He. now apply IH.
Qed.

Lemma sortSegments_exact a :
  Forall (fun g => finiteSegment g = true) a ->
  Forall (fun g => finiteSegment g = true) (sortSegments a) /\
  map exactSegment (sortSegments a) = validator.sortSegments (map exactSegment a).
Proof.
  intros Ha. unfold sortSegments, validator.sortSegments. rewrite length_map.
  now apply outerLoop_exact.
Qed.

Lemma mergeStep_exact merged current :
  Forall (fun g => finiteSegment g = true) merged -> finiteSegment current = true ->
  Forall (fun g => finiteSegment g = true) (mergeStep merged current) /\
  map exactSegment (mergeStep merged current)
  = validator.mergeStep (map exactSegment merged) (exactSegment current).
Proof.
  intros Hm Hc. unfold mergeStep, validator.mergeStep.
  rewrite length_map, lookup_exact.
  destruct (merged !! (length merged - 1)%nat) as [last|] eqn:Hl; [|now split].
  cbn [option_map].
  pose proof (finiteSegments_lookup _ _ _ Hm Hl) as Hlast.
  pose proof Hlast as Hlast'. pose proof Hc as Hc'.
  apply finiteSegment_ends in Hlast', Hc'.
  destruct Hlast' as (Hls & Hle), Hc' as (Hcs & Hce).
  change (validator.start (exactSegment current)) with (value (start current)).
  change (validator.end_ (exactSegment current)) with (value (end_ current)).
  change (validator.start (exactSegment last)) with (value (start last)).
  change (validator.end_ (exactSegment last)) with (value (end_ last)).
  rewrite <- (leb_value _ _ Hcs Hle), <- (ltb_value _ _ Hle Hce).
  destruct (leb (start current) (end_ last)).
  - destruct (ltb (end_ last) (end_ current)); [|now split].
    split.
    + apply finiteSegments_insert; [exact Hm|].
      apply finiteSegment_ends. now split.
    + now rewrite insert_exact.
  - split.
    + apply Forall_app. split; [exact Hm|]. now constructor.
    + now rewrite map_app.
Qed.

Lemma fold_mergeStep_exact : forall rest merged,
  Forall (fun g => finiteSegment g = true) merged -> Forall (fun g => finiteSegment g = true) rest ->
  Forall (fun g => finiteSegment g = true) (fold_left mergeStep rest merged) /\
  map exactSegment (fold_left mergeStep rest merged)
  = fold_left validator.mergeStep (map exactSegment rest) (map exactSegment merged).
Proof.
  induction rest as [|g rest IH]; intros merged Hm Hr; [now split|].
  inversion Hr as [|? ? Hg Hrest]; subst. cbn [fold_left map].
  destruct (mergeStep_exact merged g Hm Hg) as (Hf & He).
  rewrite <- He. now apply IH.
Qed.

Lemma mergeSegments_exact segs :
  Forall (fun g => finiteSegment g = true) segs ->
  Forall (fun g => finiteSegment g = true) (mergeSegments segs) /\
  map exactSegment (mergeSegments segs)
  = validator.mergeSegments (map exactSegment segs).
Proof.
  intros Hs. unfold mergeSegments, validator.mergeSegments. rewrite length_map.
  destruct (0 <? length segs)%nat; [|now split].
  destruct (sortSegments_exact segs Hs) as (Hf & He). rewrite <- He.
  unfold mergeSorted, validator.mergeSorted.
  destruct (sortSegments segs) as [|first rest]; [now split|].
  inversion Hf as [|? ? Hfirst Hrest]; subst. cbn [map].
  apply (fold_mergeStep_exact rest [first]); [now constructor | exact Hrest].
Qed.

(** The segments the code sums are, as numbers, those of the engine in
    exact arithmetic on the same captions and window. *)
Lemma merged_exact captions S E :
  Forall (fun c => wellFormed c = true) captions ->
  finite S = true -> finite E = true ->
  Forall (fun g => finiteSegment g = true) (mergeSegments (clipCaptions captions S E)) /\
  map exactSegment (mergeSegments (clipCaptions captions S E))
  = validator.mergeSegments
      (validator.clipCaptions (map exactCaption captions) (value S) (value E)).
Proof.
  intros Hall HS HE.
  destruct (clipCaptions_exact captions S E Hall HS HE) as (Hf & He).
  rewrite <- He. now apply mergeSegments_exact.
Qed.

End ExactSegments.

(** *** The result on [float64] *)

Section Coverage64.

Import float64 validator64.

Local Open Scope list_scope.

Lemma compare_antisym x y : SFcompare y x = option_map CompOpp (SFcompare x y).
Proof.
  destruct x as [sx|sx| |sx mx ex]; destruct y as [sy|sy| |sy my ey];
    cbn [SFcompare option_map]; try reflexivity;
    try (destruct sx; reflexivity); try (destruct sy; reflexivity);
    try (destruct sx, sy; reflexivity).
  change (PosDef.Pos.compare_cont Eq my mx) with (Pos.compare my mx).
  change (PosDef.Pos.compare_cont Eq mx my) with (Pos.compare mx my).
  rewrite (Z.compare_antisym ex ey), (Pos.compare_antisym mx my).
  destruct sx, sy; try reflexivity;
    destruct (ex ?= ey)%Z; cbn [CompOpp]; try reflexivity;
    destruct (mx ?= my)%positive; reflexivity.
Qed.

Lemma leb_ltb_eqb x y : leb x y = ltb x y || eqb y x.
Proof.
  unfold leb, ltb, eqb, SFleb, SFltb, SFeqb. rewrite (compare_antisym x y).
  destruct (SFcompare x y) as [[ | | ]|]; reflexivity.
Qed.

(** What [ValidateCoverage] returns on a window with [endTime <=
    startTime] false. *)
Lemma ValidateCoverage_result captions S E m :
  leb E S = false ->
  exists r,
    ValidateCoverage captions S E m = Ok r /\
    Valid r = leb m (coveragePercent captions S E) /\
    Data r !! "actual_coverage"%string = Some (round2 (coveragePercent captions S E)) /\
    Data r !! "covered_time"%string = Some (round2 (coveredTime captions S E)) /\
    Data r !! "total_time"%string = Some (sub E S) /\
    Data r !! "missing_coverage_seconds"%string
    = if Valid r then None
      else Some (round2 (sub (mul (div m (ofZ 100)) (sub E S))
                             (coveredTime captions S E))).
Proof.
  intros Hr. unfold ValidateCoverage. rewrite Hr. eexists. split; [reflexivity|].
  fold (coveredTime captions S E). fold (coveragePercent captions S E).
  cbn [Valid Data].
  destruct (leb m (coveragePercent captions S E)); cbn [negb];
    repeat split;
    repeat (first [ rewrite lookup_insert_eq | rewrite lookup_insert_ne by discriminate ]);
    try reflexivity.
Qed.

Lemma ValidateCoverage_window captions S E m r :
  ValidateCoverage captions S E m = Ok r -> leb E S = false.
Proof.
  unfold ValidateCoverage. destruct (leb E S); [discriminate | reflexivity].
Qed.

Lemma leb_NaN x y : IsNaN x = true \/ IsNaN y = true -> leb x y = false.
Proof.
  intros [H|H]; destruct x, y; try discriminate; reflexivity.
Qed.

(** C5.  When ValidateCoverage succeeds, the flag valid is the outcome
    of the comparison [coveragePercent >= minCoverage] on the [float64]
    percentage (covered/total)*100 as computed, before it is rounded to
    two decimals for the field actual_coverage: valid holds exactly when
    the threshold is below that percentage or equal to it, and a
    percentage equal to the threshold gives valid = true.  When the
    threshold and the percentage computed are numbers, valid tells
    whether the first is at most the second; when one of them is NaN,
    valid is false. *)
Theorem valid_flag_inclusive captions S E m r :
  ValidateCoverage captions S E m = Ok r ->
  let percent := mul (div (coveredTime captions S E) (sub E S)) (ofZ 100) in
  Valid r = leb m percent /\
  (Valid r = true <-> ltb m percent = true \/ eqb percent m = true) /\
  (eqb percent m = true -> Valid r = true) /\
  (finite m = true -> finite percent = true ->
   (Valid r = true <-> (value m <= value percent)%Q)) /\
  (IsNaN m = true \/ IsNaN percent = true -> Valid r = false) /\
  Data r !! "actual_coverage"%string = Some (round2 percent).
Proof.
  intros Hr percent.
  pose proof (ValidateCoverage_window _ _ _ _ _ Hr) as Hw.
  destruct (ValidateCoverage_result captions S E m Hw) as (r' & Hr' & Hv & Ha & _).
  rewrite Hr in Hr'. inversion Hr'; subst r'. clear Hr'.
  change (coveragePercent captions S E) with percent in Hv, Ha.
  split; [exact Hv|]. rewrite Hv.
  split; [rewrite leb_ltb_eqb, orb_true_iff; tauto|].
  split; [rewrite leb_ltb_eqb, orb_true_iff; tauto|].
  split; [|split; [apply leb_NaN | exact Ha]].
  intros Hm Hp. rewrite (leb_value _ _ Hm Hp). apply Qle_bool_iff.
Qed.

Lemma separated_starts : forall l A,
  spec.separated l ->
  match l with [] => True | h :: _ => (A <= validator.start h)%Q end ->
  Forall (fun g => (A <= validator.start g)%Q) l.
Proof.
  induction l as [|g t IH]; intros A Hs Hh; [constructor|].
  destruct Hs as (Hg & Hgap & Hs). constructor; [exact Hh|].
  apply IH; [exact Hs|]. destruct t as [|h t]; [exact I|]. lra.
Qed.

Lemma Forall_exact (P : validator.timeSegment -> Prop) segs :
  Forall P (map exactSegment segs) -> Forall (fun g => P (exactSegment g)) segs.
Proof.
  induction segs as [|g t IH]; intros H; [constructor|].
  inversion H; subst. constructor; auto.
Qed.

(** The segments that are summed, as numbers: they lie in the window,
    in increasing order with a gap between one and the next, and hold
    the instants of the window at which a caption is on. *)
Lemma merged_geometry captions S E :
  Forall (fun c => wellFormed c = true) captions ->
  finite S = true -> finite E = true -> ltb S E = true ->
  let segs := mergeSegments (clipCaptions captions S E) in
  spec.separated (map exactSegment segs) /\
  Forall (fun g => (value S <= value (start g) /\ value (end_ g) <= value E)%Q) segs /\
  spec.unionLength (map exactCaption captions) (value S) (value E) (exactLength segs) /\
  (0 <= exactLength segs /\ exactLength segs <= value E - value S)%Q.
Proof.
  intros Hall HS HE HSE. cbv zeta.
  assert (Hlt : (value S < value E)%Q).
  { rewrite (ltb_value _ _ HS HE) in HSE. unfold math.gtb in HSE.
    apply negb_true_iff in HSE. apply Qnot_le_lt. intros H.
    apply Qle_bool_iff in H. congruence. }
  destruct (merged_exact captions S E Hall HS HE) as (_ & Hex).
  unfold exactLength. rewrite Hex.
  set (caps := map exactCaption captions) in *.
  assert (Hv : Forall (fun c => (parser.StartTime c <= parser.EndTime c)%Q) caps).
  { unfold caps. clear -Hall. induction Hall as [|c t Hc _ IH]; [constructor|].
    cbn [map]. constructor; [|exact IH]. now apply wellFormed_times. }
  pose proof (clipCaptions_within caps (value S) (value E) Hv Hlt) as Hin.
  destruct (mergeSegments_correct (validator.clipCaptions caps (value S) (value E)))
    as (Hsep & Hcov & Hb).
  { eapply Forall_impl; [exact Hin|]. cbn. tauto. }
  destruct (Hb (value S) (value E)) as (Hhd & Hend).
  { eapply Forall_impl; [exact Hin|]. cbn. tauto. }
  set (merged := validator.mergeSegments
                   (validator.clipCaptions caps (value S) (value E))) in *.
  split; [exact Hsep|]. split; [|split].
  - pose proof (separated_starts merged (value S) Hsep Hhd) as Hst.
    rewrite <- Hex in Hst, Hend.
    apply Forall_exact in Hst. apply Forall_exact in Hend.
    rewrite List.Forall_forall in Hst, Hend |- *.
    intros g Hg. split; [exact (Hst g Hg) | exact (Hend g Hg)].
  - exists merged. split; [exact Hsep|]. split; [|reflexivity].
    intros x. rewrite Hcov. apply clipCaptions_covers.
  - apply separated_total_bounds; auto. lra.
Qed.

Lemma hundred : ofZ 100 = S754_finite false 7036874417766400 (-46).
Proof. vm_compute. reflexivity. Qed.

Lemma Round_nonneg x : nonNegative x = true -> nonNegative (Round x) = true.
Proof.
  intros H. destruct x as [s|s| |s m [|p|p]]; try exact H. unfold Round.
  apply nonNegative_cases in H. destruct s; [contradiction|].
  set (q := Z.shiftr (Z.pos m + Z.shiftl 1 (Z.pos p - 1)) (Z.pos p)).
  assert (Hq : (0 <= q)%Z).
  { unfold q. apply Z.shiftr_nonneg.
    assert (0 <= Z.shiftl 1 (Z.pos p - 1))%Z by (apply Z.shiftl_nonneg; lia). lia. }
  destruct q as [|q'|q'] eqn:Eq; [reflexivity | | lia].
  apply binary_normalize_nonneg. lia.
Qed.

Lemma round2_nonneg64 x : nonNegative x = true -> nonNegative (round2 x) = true.
Proof.
  intros H. unfold round2. rewrite hundred.
  now apply div_nonneg, Round_nonneg, mul_nonneg.
Qed.

Lemma fold_add_nonneg : forall segs acc,
  nonNegative acc = true ->
  Forall (fun g => finiteSegment g = true /\
                   (scaled (start g) <= scaled (end_ g))%Z) segs ->
  nonNegative
    (fold_left (fun coveredTime seg => add coveredTime (sub (end_ seg) (start seg)))
               segs acc) = true.
Proof.
  induction segs as [|g t IH]; intros acc Hacc Hall; [exact Hacc|].
  inversion Hall as [|? ? (Hf & Hle) Ht]; subst. cbn [fold_left].
  apply IH; [|exact Ht]. apply add_nonneg; [exact Hacc|].
  apply finiteSegment_ends in Hf. destruct Hf as (Hs & He).
  now apply sub_nonneg.
Qed.

Lemma separated_ordered : forall l,
  spec.separated l ->
  Forall (fun g => (validator.start g <= validator.end_ g)%Q) l.
Proof.
  induction l as [|g t IH]; intros Hs; [constructor|].
  destruct Hs as (Hg & _ & Hs). constructor; auto.
Qed.

(** On captions and a window of numbers the covered time computed is
    not negative. *)
Lemma coveredTime_nonneg captions S E :
  Forall (fun c => wellFormed c = true) captions ->
  finite S = true -> finite E = true -> ltb S E = true ->
  nonNegative (coveredTime captions S E) = true.
Proof.
  intros Hall HS HE HSE.
  destruct (merged_geometry captions S E Hall HS HE HSE) as (Hsep & _).
  destruct (merged_exact captions S E Hall HS HE) as (Hfin & _).
  unfold coveredTime, sumSegments. apply fold_add_nonneg; [reflexivity|].
  apply separated_ordered, Forall_exact in Hsep.
  rewrite List.Forall_forall in Hfin, Hsep |- *. intros g Hg.
  split; [exact (Hfin g Hg)|]. apply value_le. exact (Hsep g Hg).
Qed.

(** The length of a window of numbers with [endTime > startTime] is
    positive as computed, and the percentage computed is not negative
    unless the length of the window overflows. *)
Lemma coveragePercent_nonneg captions S E :
  Forall (fun c => wellFormed c = true) captions ->
  finite S = true -> finite E = true -> ltb S E = true ->
  ltb zero (sub E S) = true /\
  (isPosInf (sub E S) = false ->
   nonNegative (coveragePercent captions S E) = true).
Proof.
  intros Hall HS HE HSE.
  assert (Hpos : ltb zero (sub E S) = true).
  { apply sub_pos; [exact HE | exact HS |].
    rewrite (ltb_scaled _ _ HS HE) in HSE. now apply Z.ltb_lt. }
  split; [exact Hpos|]. intros Hinf.
  pose proof (coveredTime_nonneg captions S E Hall HS HE HSE) as Hc.
  unfold coveragePercent. rewrite hundred.
  apply positive_cases in Hpos.
  destruct (sub E S) as [s|[|]| |[|] mt et]; try contradiction; [discriminate|].
  now apply mul_nonneg, div_nonneg.
Qed.

(** C10, amended.  For captions whose times are numbers, none ending
    before it starts, and a window of numbers with endTime > startTime,
    ValidateCoverage returns a result with total_time = endTime -
    startTime, which is positive, and covered_time the sum of the
    lengths of the merged segments, rounded to two decimals.  The sum
    and the covered_time reported are not negative, and neither is the
    percentage computed unless the length of the window overflows.  The
    merged segments lie in the window, in increasing order with a gap
    between one and the next, and hold exactly the instants of the
    window at which a caption is on; so the sum of their lengths in
    exact arithmetic lies between 0 and the length of the window, and
    the exact percentage between 0 and 100.  The sum and the percentage
    that the code computes in [float64] carry rounding errors and can
    exceed the upper bounds. *)
Theorem coverage_within_bounds captions S E m :
  Forall (fun c => wellFormed c = true) captions ->
  finite S = true -> finite E = true -> ltb S E = true ->
  exists r,
    ValidateCoverage captions S E m = Ok r /\
    Data r !! "total_time"%string = Some (sub E S) /\
    Data r !! "covered_time"%string = Some (round2 (coveredTime captions S E)) /\
    ltb zero (sub E S) = true /\
    nonNegative (coveredTime captions S E) = true /\
    nonNegative (round2 (coveredTime captions S E)) = true /\
    (isPosInf (sub E S) = false ->
     nonNegative (mul (div (coveredTime captions S E) (sub E S)) (ofZ 100)) = true) /\
    let segs := mergeSegments (clipCaptions captions S E) in
    coveredTime captions S E = sumSegments segs /\
    spec.separated (map exactSegment segs) /\
    Forall (fun g => (value S <= value (start g) /\ value (end_ g) <= value E)%Q) segs /\
    spec.unionLength (map exactCaption captions) (value S) (value E) (exactLength segs) /\
    (0 <= exactLength segs /\ exactLength segs <= value E - value S)%Q /\
    (0 <= exactLength segs / (value E - value S) * 100 /\
     exactLength segs / (value E - value S) * 100 <= 100)%Q.
Proof.
  intros Hall HS HE HSE.
  assert (Hlt : (value S < value E)%Q).
  { rewrite (ltb_value _ _ HS HE) in HSE. unfold math.gtb in HSE.
    apply negb_true_iff in HSE. apply Qnot_le_lt. intros H.
    apply Qle_bool_iff in H. congruence. }
  assert (Hw : leb E S = false).
  { rewrite (leb_value _ _ HE HS). destruct (Qle_bool (value E) (value S)) eqn:Hb;
      [|reflexivity]. apply Qle_bool_iff in Hb. lra. }
  destruct (ValidateCoverage_result captions S E m Hw)
    as (r & Hr & _ & _ & Hc & Ht & _).
  exists r. split; [exact Hr|]. split; [exact Ht|]. split; [exact Hc|].
  destruct (coveragePercent_nonneg captions S E Hall HS HE HSE) as (Hpos & Hpct).
  pose proof (coveredTime_nonneg captions S E Hall HS HE HSE) as Hcov.
  split; [exact Hpos|]. split; [exact Hcov|].
  split; [now apply round2_nonneg64|]. split; [exact Hpct|].
  destruct (merged_geometry captions S E Hall HS HE HSE)
    as (Hsep & Hin & Hunion & Hlen).
  cbv zeta. split; [reflexivity|]. split; [exact Hsep|]. split; [exact Hin|].
  split; [exact Hunion|]. split; [exact Hlen|].
  destruct Hlen as (H0 & H1).
  set (len := exactLength (mergeSegments (clipCaptions captions S E))) in *.
  assert (Hp : (0 < value E - value S)%Q) by lra.
  assert (Hq : (0 <= len / (value E - value S) /\
                len / (value E - value S) <= 1)%Q).
  { split.
    - apply Qle_shift_div_l; [exact Hp | lra].
    - apply Qle_shift_div_r; [exact Hp | lra]. }
  lra.
Qed.

(** X4.  In exact arithmetic the covered time grows with the captions
    and with the window: when every instant of the window from S to E at
    which a caption of the first list is on is an instant at which a
    caption of the second list is on, and the second window contains the
    first, the merged segments of the second are at least as long in
    total as those of the first.  The sums that the code computes in
    [float64] are rounded and need not follow. *)
Theorem covered_time_monotone captions captions' S E S' E' :
  Forall (fun c => wellFormed c = true) captions ->
  Forall (fun c => wellFormed c = true) captions' ->
  finite S = true -> finite E = true -> finite S' = true -> finite E' = true ->
  ltb S E = true -> leb S' S = true -> leb E E' = true ->
  (forall x, (value S <= x)%Q -> (x < value E)%Q ->
     spec.active (map exactCaption captions) x ->
     spec.active (map exactCaption captions') x) ->
  (exactLength (mergeSegments (clipCaptions captions S E))
   <= exactLength (mergeSegments (clipCaptions captions' S' E')))%Q.
Proof.
  intros Hall Hall' HS HE HS' HE' HSE HSS HEE Hsub.
  assert (HSE' : ltb S' E' = true).
  { rewrite ltb_scaled in HSE |- * by assumption.
    rewrite leb_scaled in HSS, HEE by assumption.
    apply Z.ltb_lt in HSE. apply Z.leb_le in HSS, HEE. apply Z.ltb_lt. lia. }
  rewrite (leb_value _ _ HS' HS) in HSS. rewrite (leb_value _ _ HE HE') in HEE.
  apply Qle_bool_iff in HSS, HEE.
  destruct (merged_geometry captions S E Hall HS HE HSE)
    as (_ & _ & (p & Hs & Hc & Hl) & _).
  destruct (merged_geometry captions' S' E' Hall' HS' HE' HSE')
    as (_ & _ & (p' & Hs' & Hc' & Hl') & _).
  rewrite Hl, Hl'.
  apply (separated_subset_total _ p p' (Nat.le_refl _) Hs Hs').
  intros x Hx. apply Hc in Hx. destruct Hx as ((H1 & H2) & Ha).
  apply Hc'. split; [lra|]. now apply Hsub.
Qed.

(** X5.  The result has the field missing_coverage_seconds exactly when
    it is not valid, and the value reported there is
    (minCoverage/100)*total - covered as computed in [float64], rounded
    to two decimals.  When the threshold and the percentage computed are
    numbers, the field is there exactly when the percentage is below the
    threshold. *)
Theorem missing_coverage_reported captions S E m r :
  ValidateCoverage captions S E m = Ok r ->
  (Data r !! "missing_coverage_seconds"%string = None <-> Valid r = true) /\
  (forall v, Data r !! "missing_coverage_seconds"%string = Some v ->
     Valid r = false /\
     v = round2 (sub (mul (div m (ofZ 100)) (sub E S))
                     (coveredTime captions S E))) /\
  (finite m = true -> finite (coveragePercent captions S E) = true ->
   (Data r !! "missing_coverage_seconds"%string = None <->
    (value m <= value (coveragePercent captions S E))%Q)).
Proof.
  intros Hr.
  pose proof (ValidateCoverage_window _ _ _ _ _ Hr) as Hw.
  destruct (ValidateCoverage_result captions S E m Hw)
    as (r' & Hr' & Hv & _ & _ & _ & Hm).
  rewrite Hr in Hr'. inversion Hr'; subst r'. clear Hr'.
  assert (Hnone : Data r !! "missing_coverage_seconds"%string = None <->
                  Valid r = true).
  { rewrite Hm. destruct (Valid r); [tauto | split; discriminate]. }
  split; [exact Hnone|]. split.
  - rewrite Hm. destruct (Valid r); [intros v H; discriminate|].
    intros v [= <-]. split; reflexivity.
  - intros Fm Fp. rewrite Hnone, Hv, (leb_value _ _ Fm Fp). apply Qle_bool_iff.
Qed.

End Coverage64.

(** ** Instances on [float64] *)

Section Coverage64Instances.

Import float64 validator64 rounding.

(** A caption over 25 of 100 seconds: the percentage computed is 25
    without rounding, and a threshold of 25 is met. *)
Lemma valid_flag_inclusive_witness :
  exists r,
    ValidateCoverage quarter (ofZ 0) (ofZ 100) (ofZ 25) = Ok r /\
    Valid r = true /\
    Data r !! "actual_coverage"%string = Some (ofZ 25).
Proof.
  destruct (ValidateCoverage_result quarter (ofZ 0) (ofZ 100) (ofZ 25) eq_refl)
    as (r & Hr & _).
  exists r. split; [exact Hr|].
  destruct (valid_flag_inclusive quarter (ofZ 0) (ofZ 100) (ofZ 25) r Hr)
    as (_ & _ & Heq & _ & _ & Ha).
  split; [apply Heq; vm_compute; reflexivity|].
  rewrite Ha. vm_compute. reflexivity.
Defined.

(** A caption over 29 of 100 seconds: [29.0/100.0] is rounded down and
    the percentage computed is [0x1.cffffffffffffp+4], just below 29,
    although 29 percent of the window is covered.  A threshold of 29 is
    not met, and the failure reports an actual coverage of 29 and
    [-0] seconds missing. *)
Lemma percentage_rounded_below_threshold :
  coveragePercent twentyNine (ofZ 0) (ofZ 100) = ofBits 0x1cffffffffffff (-48) /\
  ltb (coveragePercent twentyNine (ofZ 0) (ofZ 100)) (ofZ 29) = true /\
  (exactLength (mergeSegments (clipCaptions twentyNine (ofZ 0) (ofZ 100)))
   / (value (ofZ 100) - value (ofZ 0)) * 100 == 29)%Q /\
  exists r,
    ValidateCoverage twentyNine (ofZ 0) (ofZ 100) (ofZ 29) = Ok r /\
    Valid r = false /\
    Data r !! "actual_coverage"%string = Some (ofZ 29) /\
    Data r !! "missing_coverage_seconds"%string = Some negZero.
Proof.
  split; [vm_compute; reflexivity|]. split; [vm_compute; reflexivity|].
  split; [vm_compute; reflexivity|].
  destruct (ValidateCoverage_result twentyNine (ofZ 0) (ofZ 100) (ofZ 29) eq_refl)
    as (r & Hr & Hv & Ha & _ & _ & Hm).
  exists r. split; [exact Hr|].
  assert (Hf : Valid r = false) by (rewrite Hv; vm_compute; reflexivity).
  split; [exact Hf|]. split.
  - rewrite Ha. vm_compute. reflexivity.
  - rewrite Hm, Hf. vm_compute. reflexivity.
Qed.

Lemma coverage_within_bounds_witness :
  exists r,
    ValidateCoverage coverageCaptions (ofZ 5) (ofZ 60) (ofZ 80) = Ok r /\
    (exactLength (mergeSegments (clipCaptions coverageCaptions (ofZ 5) (ofZ 60)))
     <= value (ofZ 60) - value (ofZ 5))%Q.
Proof.
  destruct (coverage_within_bounds coverageCaptions (ofZ 5) (ofZ 60) (ofZ 80))
    as (r & Hr & _ & _ & _ & _ & _ & _ & _ & _ & _ & _ & (_ & Hle) & _).
  - repeat constructor.
  - reflexivity.
  - reflexivity.
  - reflexivity.
  - exists r. split; [exact Hr | exact Hle].
Defined.

(** The window from 0.1 to 45.1 with the two captions that leave out one
    instant: the two lengths add up, with rounding, to
    [0x1.6800000000001p+5], more than the 45 seconds of the window, and
    the percentage computed is more than 100.  The caption of 0.005
    seconds in the window of the same length: the covered time is
    reported as 0.01 and the total time as 0.005. *)
Lemma covered_time_exceeds_total :
  (Forall (fun c => wellFormed c = true) twoCaptions /\
   finite t0_1 = true /\ finite t45_1 = true /\ ltb t0_1 t45_1 = true /\
   sub t45_1 t0_1 = ofZ 45 /\
   coveredTime twoCaptions t0_1 t45_1 = ofBits 0x16800000000001 (-47) /\
   ltb (sub t45_1 t0_1) (coveredTime twoCaptions t0_1 t45_1) = true /\
   coveragePercent twoCaptions t0_1 t45_1 = ofBits 0x19000000000002 (-46) /\
   ltb (ofZ 100) (coveragePercent twoCaptions t0_1 t45_1) = true) /\
  (Forall (fun c => wellFormed c = true) shortCaption /\
   finite t0_005 = true /\ ltb (ofZ 0) t0_005 = true /\
   exists r covered total,
     ValidateCoverage shortCaption (ofZ 0) t0_005 (ofZ 100) = Ok r /\
     Data r !! "covered_time"%string = Some covered /\
     Data r !! "total_time"%string = Some total /\
     covered = div (ofZ 1) (ofZ 100) /\ total = t0_005 /\
     ltb total covered = true).
Proof.
  split.
  - split; [repeat constructor|].
    repeat (split; [vm_compute; reflexivity|]). vm_compute; reflexivity.
  - split; [repeat constructor|].
    split; [reflexivity|]. split; [reflexivity|].
    destruct (ValidateCoverage_result shortCaption (ofZ 0) t0_005 (ofZ 100) eq_refl)
      as (r & Hr & _ & _ & Hc & Ht & _).
    exists r, (round2 (coveredTime shortCaption (ofZ 0) t0_005)),
              (sub t0_005 (ofZ 0)).
    split; [exact Hr|]. split; [exact Hc|]. split; [exact Ht|].
    repeat (split; [vm_compute; reflexivity|]). vm_compute; reflexivity.
Qed.

(** The two captions that leave out one instant of the window from 0.1
    to 45.1, and the one caption over the whole window: the merged
    segments of the first are shorter in exact arithmetic, and the sum
    computed for them, [0x1.6800000000001p+5], is above the 45 computed
    for the second. *)
Lemma covered_time_monotone_witness :
  (exactLength (mergeSegments (clipCaptions twoCaptions t0_1 t45_1))
   <= exactLength (mergeSegments (clipCaptions oneCaption t0_1 t45_1)))%Q /\
  coveredTime oneCaption t0_1 t45_1 = ofZ 45 /\
  ltb (coveredTime oneCaption t0_1 t45_1) (coveredTime twoCaptions t0_1 t45_1)
  = true.
Proof.
  split; [|split; vm_compute; reflexivity].
  apply (covered_time_monotone twoCaptions oneCaption t0_1 t45_1 t0_1 t45_1);
    try reflexivity; try (repeat constructor).
  intros x H1 H2 _. eexists. split; [left; reflexivity|].
  split; [exact H1 | exact H2].
Defined.

(** A caption over 57 percent of a window of [1e17] seconds, threshold
    57: the percentage computed is just below 57 and the seconds missing
    are reported as [-8]. *)
Lemma missing_coverage_reported_witness :
  exists r,
    ValidateCoverage longCaption (ofZ 0) (ofZ 100000000000000000) (ofZ 57) = Ok r /\
    Valid r = false /\
    Data r !! "missing_coverage_seconds"%string = Some (ofZ (-8)).
Proof.
  destruct (ValidateCoverage_result longCaption (ofZ 0) (ofZ 100000000000000000)
              (ofZ 57) eq_refl) as (r & Hr & Hv & _ & _ & _ & Hm).
  exists r. split; [exact Hr|].
  assert (Hf : Valid r = false) by (rewrite Hv; vm_compute; reflexivity).
  rewrite Hf in Hm.
  destruct (missing_coverage_reported longCaption (ofZ 0) (ofZ 100000000000000000)
              (ofZ 57) r Hr) as (_ & Hval & _).
  destruct (Hval _ Hm) as (Hvalid & _).
  split; [exact Hvalid|]. rewrite Hm. vm_compute. reflexivity.
Defined.

End Coverage64Instances.

(** ** More on the Format B parser *)

Section SrtMore.

Import parser layout.

Local Open Scope list_scope.

Variable ParseFloat : string -> option Q.

Lemma runLines_app {S} (step : S -> string -> result S) : forall l1 l2 st,
  runLines step st (l1 ++ l2)
  = let* st' := runLines step st l1 in runLines step st' l2.
Proof.
  induction l1 as [|l l1 IH]; intros l2 st; cbn [runLines app]; [reflexivity|].
  destruct (step st l); cbn [bind]; [apply IH | reflexivity].
Qed.

Lemma Contains_nonempty s sub :
  strings.Contains s sub = true -> sub <> "" -> String.eqb s "" = false.
Proof.
  intros H Hne. destruct s; [|reflexivity].
  cbn in H. destruct sub; [congruence | discriminate].
Qed.

Lemma Contains_arrow_gt : forall s,
  strings.Contains s "-->" = true ->
  exists c r, s = String c r /\ strings.Contains r ">" = true.
Proof.
  induction s as [|c r IH]; intros H; [discriminate|].
  exists c, r. split; [reflexivity|].
  cbn [strings.Contains] in H. apply orb_true_iff in H. destruct H as [H|H].
  - cbn [String.prefix] in H.
    destruct (ascii_dec "-" c) as [_|]; [|discriminate].
    destruct r as [|c2 r2]; cbn [String.prefix] in H; [discriminate|].
    destruct (ascii_dec "-" c2) as [_|]; [|discriminate].
    destruct r2 as [|c3 r3]; cbn [String.prefix] in H; [discriminate|].
    destruct (ascii_dec ">" c3) as [<-|]; [|discriminate].
    cbn [strings.Contains]. rewrite (prefix_gt ">" r3). cbn.
    apply orb_true_r.
  - destruct (IH H) as (c' & r' & -> & Hr).
    cbn [strings.Contains] in Hr |- *. rewrite Hr. apply orb_true_r.
Qed.

Lemma digits_gt : forall s acc,
  strings.Contains s ">" = true -> strconv.digits acc s = None.
Proof.
  induction s as [|c r IH]; intros acc H; [discriminate|].
  cbn [strconv.digits]. unfold strconv.digitVal.
  destruct ((48 <=? N_of_ascii c) && (N_of_ascii c <=? 57))%N eqn:E; [|reflexivity].
  apply IH. cbn [strings.Contains] in H. rewrite prefix_gt in H.
  apply andb_true_iff in E. destruct E as (E1 & E2).
  apply N.leb_le in E1, E2.
  replace (N_of_ascii c =? 62)%N with false in H
    by (symmetry; apply N.eqb_neq; lia).
  exact H.
Qed.

(** A line with an arrow is not a number. *)
Lemma Atoi_arrow s :
  strings.Contains s "-->" = true -> strconv.Atoi s = None.
Proof.
  intros H. destruct (Contains_arrow_gt s H) as (c & r & -> & Hr).
  assert (Hs : strings.Contains (String c r) ">" = true)
    by (cbn [strings.Contains]; rewrite Hr; apply orb_true_r).
  assert (Hbody : forall body, strings.Contains body ">" = true ->
            match body with
            | EmptyString => None
            | _ => match strconv.digits 0 body with
                   | Some n => @None Z
                   | None => None
                   end
            end = @None Z).
  { intros body Hb. rewrite (digits_gt body 0 Hb). now destruct body. }
  unfold strconv.Atoi.
  destruct c as [[] [] [] [] [] [] [] []];
    cbn -[strconv.digits Z.leb Z.pow];
    first [ rewrite (digits_gt _ 0 Hr) | rewrite (digits_gt _ 0 Hs) ];
    try reflexivity; now destruct r.
Qed.

Lemma srtStep_index st l i :
  sParseState st = 0%Z -> strconv.Atoi (strings.TrimSpace l) = Some i ->
  srtStep ParseFloat st l
  = Ok (srtSetState 1
          (srtSetCurrent {| Index := i; StartTime := 0; EndTime := 0;
                            Text := "" |} st)).
Proof.
  intros Hst Hi. unfold srtStep. rewrite Hst, Hi.
  destruct (String.eqb (strings.TrimSpace l) "") eqn:E; [|reflexivity].
  apply String.eqb_eq in E. rewrite E in Hi. discriminate.
Qed.

Lemma srtStep_timeline st l s e :
  sParseState st = 1%Z ->
  strings.Contains (strings.TrimSpace l) "-->" = true ->
  parseSRTTimeline ParseFloat (strings.TrimSpace l) = Ok (s, e) ->
  srtStep ParseFloat st l
  = Ok (srtSetText []
          (srtSetState 2
             (srtSetCurrent {| Index := Index (sCurrent st);
                               StartTime := s; EndTime := e;
                               Text := Text (sCurrent st) |} st))).
Proof.
  intros Hst Ha Hp. unfold srtStep.
  rewrite (Contains_nonempty _ _ Ha) by discriminate.
  now rewrite Hst, Ha, Hp.
Qed.

Lemma srtStep_timeline_first st l s e :
  sParseState st = 0%Z ->
  strings.Contains (strings.TrimSpace l) "-->" = true ->
  parseSRTTimeline ParseFloat (strings.TrimSpace l) = Ok (s, e) ->
  srtStep ParseFloat st l
  = Ok (srtSetState 2
          (srtSetCurrent {| Index := (Z.of_nat (length (sCaptions st)) + 1)%Z;
                            StartTime := s; EndTime := e; Text := "" |} st)).
Proof.
  intros Hst Ha Hp. unfold srtStep, srtNoIndex.
  rewrite (Contains_nonempty _ _ Ha) by discriminate.
  now rewrite Hst, (Atoi_arrow _ Ha), Ha, Hp.
Qed.

Lemma srtStep_blank st l :
  blank l ->
  srtStep ParseFloat st l
  = Ok (if (0 <? sParseState st)%Z then
          if (0 <? Z.of_nat (length (sTextLines st)))%Z
          then srtSetState 0 (srtSetText [] (srtFlush st))
          else srtSetState 0 st
        else st).
Proof.
  intros Hb. unfold srtStep. rewrite Hb.
  destruct (0 <? sParseState st)%Z; [|reflexivity].
  now destruct (0 <? Z.of_nat (length (sTextLines st)))%Z.
Qed.

(** Blank lines between cues change nothing. *)
Lemma srt_blank_idle : forall ls st,
  sParseState st = 0%Z -> Forall blank ls ->
  runLines (srtStep ParseFloat) st ls = Ok st.
Proof.
  induction ls as [|l ls IH]; intros st Hst Hb; cbn [runLines]; [reflexivity|].
  inversion Hb; subst. rewrite srtStep_blank by assumption.
  rewrite Hst. cbn [Z.ltb Z.compare bind]. now apply IH.
Qed.

(** One cue, read from the state between cues. *)
Lemma srt_cue_run q c st :
  sParseState st = 0%Z -> sTextLines st = [] ->
  srtCaption ParseFloat (length (sCaptions st)) q c ->
  exists st',
    runLines (srtStep ParseFloat) st (cueLines q) = Ok st' /\
    sCaptions st' = sCaptions st ++ [c] /\
    sParseState st' = 0%Z /\ sTextLines st' = [] /\ sCurrent st' = c.
Proof.
  intros Hst Htx (Hidx & Harrow & Htl & Hne & Htext & Hane & Hafter & Hc).
  unfold cueLines.
  assert (Hstart : exists st1,
    runLines (srtStep ParseFloat) st (cueBefore q ++ [cueTimeline q]) = Ok st1 /\
    sCaptions st1 = sCaptions st /\ sParseState st1 = 2%Z /\ sTextLines st1 = [] /\
    Index (sCurrent st1) = Index c /\ StartTime (sCurrent st1) = StartTime c /\
    EndTime (sCurrent st1) = EndTime c).
  { destruct (cueBefore q) as [|l [|l' ls]]; [| |contradiction].
    - cbn [app runLines].
      rewrite (srtStep_timeline_first st _ _ _ Hst Harrow Htl). cbn [bind].
      eexists. split; [reflexivity|]. cbn. rewrite Htx. auto 7.
    - cbn [app runLines].
      rewrite (srtStep_index st l _ Hst Hidx). cbn [bind].
      rewrite (srtStep_timeline _ _ (StartTime c) (EndTime c));
        [|reflexivity|exact Harrow|exact Htl]. cbn [bind].
      eexists. split; [reflexivity|]. cbn. auto 7. }
  destruct Hstart as (st1 & Hrun1 & Hcap1 & Hst1 & Htx1 & Hi1 & Hs1 & He1).
  change (cueBefore q ++ cueTimeline q :: cueText q ++ cueAfter q)
    with (cueBefore q ++ [cueTimeline q] ++ cueText q ++ cueAfter q).
  rewrite app_assoc, runLines_app, Hrun1. cbn [bind].
  rewrite runLines_app, (srt_text_state ParseFloat _ _ Hst1 Htext). cbn [bind].
  rewrite Htx1. cbn [app].
  destruct (cueAfter q) as [|b bs]; [congruence|].
  inversion Hafter as [|? ? Hb Hbs]; subst.
  cbn [runLines]. rewrite (srtStep_blank _ _ Hb).
  cbn [srtSetText sParseState sTextLines]. rewrite Hst1.
  destruct (cueText q) as [|t ts] eqn:Et; [congruence|].
  replace (0 <? Z.of_nat (length (t :: ts)))%Z with true
    by (symmetry; apply Z.ltb_lt; simpl; lia).
  cbn [Z.ltb Z.compare bind].
  rewrite srt_blank_idle; [|reflexivity|exact Hbs].
  eexists. split; [reflexivity|].
  assert (Hcur : {| Index := Index (sCurrent st1);
                    StartTime := StartTime (sCurrent st1);
                    EndTime := EndTime (sCurrent st1);
                    Text := strings.Join (t :: ts) newline |} = c).
  { rewrite Hi1, Hs1, He1, <- Hc. now destruct c. }
  cbn -[strings.Join]. rewrite Hcap1, Hcur. auto.
Qed.

Lemma srt_cues_run : forall qs cs st,
  sParseState st = 0%Z -> sTextLines st = [] ->
  srtCaptions ParseFloat (length (sCaptions st)) qs cs ->
  exists st',
    runLines (srtStep ParseFloat) st (concat (map cueLines qs)) = Ok st' /\
    sCaptions st' = sCaptions st ++ cs /\
    sParseState st' = 0%Z /\ sTextLines st' = [] /\
    (forall p, last cs = Some p -> sCurrent st' = p).
Proof.
  induction qs as [|q qs IH]; intros cs st Hst Htx H.
  - destruct cs; [|contradiction]. exists st. rewrite app_nil_r.
    repeat split; auto. discriminate.
  - destruct cs as [|c cs]; [contradiction|]. destruct H as (Hq & Hqs).
    destruct (srt_cue_run q c st Hst Htx Hq)
      as (st1 & Hrun & Hcap & Hst1 & Htx1 & Hcur1).
    destruct (IH cs st1 Hst1 Htx1) as (st2 & Hrun2 & Hcap2 & Hst2 & Htx2 & Hcur2).
    { rewrite Hcap, length_app. cbn [length].
      now replace (length (sCaptions st) + 1)%nat with (S (length (sCaptions st))) by lia. }
    exists st2. cbn [map concat]. rewrite runLines_app, Hrun. cbn [bind].
    split; [exact Hrun2|]. rewrite Hcap2, Hcap, <- app_assoc.
    repeat split; auto.
    intros p Hp. destruct cs as [|c' cs'].
    + destruct qs; [|contradiction]. cbn in Hrun2, Hp.
      inversion Hrun2; inversion Hp; subst. reflexivity.
    + apply Hcur2. exact Hp.
Qed.

(** X7.  A Format B file that is a sequence of cues, each an optional
    index line, a timeline that parses, one or more text lines that are
    not blank, and one or more blank lines: the parser returns one
    caption per cue, in the order of the file, with the times of the
    timeline and the text lines joined by line feeds.  The index is the
    number written on the index line, whatever it is, and the position
    of the cue when the index line is missing. *)
Theorem srt_cues_parsed (input : string) (qs : list cue) (cs : list Caption) :
  bufio.scanLines bufio.NewScanner input = (concat (map cueLines qs), None) ->
  srtCaptions ParseFloat 0 qs cs ->
  parseSRT ParseFloat input = Ok cs.
Proof.
  intros Hscan H. unfold parseSRT. rewrite Hscan.
  destruct (srt_cues_run qs cs srtInit eq_refl eq_refl H)
    as (st & Hrun & Hcap & Hst & Htx & _).
  rewrite Hrun. cbn [bind]. unfold srtLast. rewrite Hst. cbn. now rewrite Hcap.
Qed.

(** X8.  A blank line at the end of a Format B file is optional: with or
    without it the parser returns the same result, since the end of the
    input closes the open cue as a blank line does. *)
Theorem srt_final_blank_line (input input' : string) (lines : list string)
  (b : string) :
  bufio.scanLines bufio.NewScanner input = (lines ++ [b], None) ->
  bufio.scanLines bufio.NewScanner input' = (lines, None) ->
  blank b ->
  parseSRT ParseFloat input = parseSRT ParseFloat input'.
Proof.
  intros Hscan Hscan' Hb. unfold parseSRT. rewrite Hscan, Hscan', runLines_app.
  destruct (runLines (srtStep ParseFloat) srtInit lines) as [st|e]; cbn [bind];
    [|reflexivity].
  cbn [runLines]. rewrite (srtStep_blank _ _ Hb). cbn [bind finish].
  f_equal. unfold srtLast.
  destruct (0 <? sParseState st)%Z eqn:E1;
    destruct (0 <? Z.of_nat (length (sTextLines st)))%Z eqn:E2;
    cbn; rewrite ?E1, ?E2; reflexivity.
Qed.

Lemma srtStep_stray st l :
  sParseState st = 0%Z -> sCaptions st <> [] ->
  String.eqb (strings.TrimSpace l) "" = false ->
  strconv.Atoi (strings.TrimSpace l) = None ->
  strings.Contains (strings.TrimSpace l) "-->" = false ->
  srtStep ParseFloat st l
  = Ok (srtSetText (sTextLines st ++ [l]) (srtSetState 2 st)).
Proof.
  intros Hst Hne Hl Hi Ha. unfold srtStep, srtNoIndex. rewrite Hl, Hst, Hi, Ha.
  destruct (sCaptions st) as [|c cs]; [congruence|]. reflexivity.
Qed.

(** X9.  In a Format B file, text that follows the blank line of a cue
    and is neither a number nor a timeline is not attached to that cue:
    it becomes one more caption, which repeats the index and the times
    of the cue before it. *)
Theorem srt_text_after_blank_line (input : string) (qs : list cue)
  (cs : list Caption) (p : Caption) (t : string) (ts : list string) :
  bufio.scanLines bufio.NewScanner input
  = (concat (map cueLines qs) ++ t :: ts, None) ->
  srtCaptions ParseFloat 0 qs cs ->
  last cs = Some p ->
  spec.nonBlank t ->
  strconv.Atoi (strings.TrimSpace t) = None ->
  strings.Contains (strings.TrimSpace t) "-->" = false ->
  Forall spec.nonBlank ts ->
  parseSRT ParseFloat input
  = Ok (cs ++ [{| Index := Index p; StartTime := StartTime p;
                  EndTime := EndTime p;
                  Text := strings.Join (t :: ts) newline |}]).
Proof.
  intros Hscan H Hlast Ht Hi Ha Hts. unfold parseSRT. rewrite Hscan.
  destruct (srt_cues_run qs cs srtInit eq_refl eq_refl H)
    as (st & Hrun & Hcap & Hst & Htx & Hcur).
  cbn [sCaptions srtInit app] in Hcap.
  rewrite runLines_app, Hrun. cbn [bind runLines].
  rewrite srtStep_stray; [|exact Hst| |exact Ht|exact Hi|exact Ha].
  2:{ rewrite Hcap. intros ->. discriminate. }
  cbn [bind]. rewrite srt_text_state; [|reflexivity|exact Hts].
  cbn [bind finish]. rewrite Htx. unfold srtLast.
  cbn -[strings.Join Z.ltb Z.of_nat].
  replace (0 <? Z.of_nat (S (length ts)))%Z with true
    by (symmetry; apply Z.ltb_lt; lia).
  cbn -[strings.Join]. rewrite Hcap, (Hcur p Hlast). reflexivity.
Qed.

Lemma parseSRTTimestamp_err ts e :
  parseSRTTimestamp ParseFloat ts = Err e ->
  exists s, e = ErrNum s /\ ParseFloat s = None.
Proof.
  unfold parseSRTTimestamp, parseFloat.
  destruct (strings.Split (strings.Replace ts "," "." 1) ":")
    as [|p0 [|p1 [|p2 [|p3 ps]]]]; cbn [bind]; try discriminate.
  destruct (ParseFloat p0) eqn:E0; cbn [bind]; [|intros [= <-]; eauto].
  destruct (ParseFloat p1) eqn:E1; cbn [bind]; [|intros [= <-]; eauto].
  destruct (ParseFloat p2) eqn:E2; cbn [bind]; [discriminate|intros [= <-]; eauto].
Qed.

Lemma parseSRTTimeline_err line e :
  parseSRTTimeline ParseFloat line = Err e ->
  exists s, e = ErrNum s /\ ParseFloat s = None.
Proof.
  unfold parseSRTTimeline.
  destruct (strings.Split (strings.TrimSpace line) "-->") as [|a [|b [|c ps]]];
    try discriminate.
  destruct (parseSRTTimestamp ParseFloat (strings.TrimSpace a)) eqn:Ea; cbn [bind].
  - destruct (parseSRTTimestamp ParseFloat (strings.TrimSpace b)) eqn:Eb; cbn [bind];
      [discriminate|].
    intros [= <-]. eapply parseSRTTimestamp_err; eauto.
  - intros [= <-]. eapply parseSRTTimestamp_err; eauto.
Qed.

Lemma srtStep_err st line e :
  srtStep ParseFloat st line = Err e ->
  exists s, e = ErrNum s /\ ParseFloat s = None.
Proof.
  unfold srtStep.
  destruct (String.eqb (strings.TrimSpace line) "").
  { destruct (0 <? sParseState st)%Z; [|discriminate].
    destruct (0 <? Z.of_nat (length (sTextLines st)))%Z; discriminate. }
  destruct (sParseState st) as [|[ [] | [] | ]|]; try discriminate.
  - destruct (strconv.Atoi (strings.TrimSpace line)); discriminate.
  - destruct (strings.Contains (strings.TrimSpace line) "-->"); [|discriminate].
    destruct (parseSRTTimeline ParseFloat (strings.TrimSpace line)) eqn:E;
      cbn [bind]; [discriminate|].
    intros [= <-]. eapply parseSRTTimeline_err; eauto.
Qed.

(** The turn at which a run of the loop fails. *)
Lemma runLines_err_at {S} (step : S -> string -> result S) :
  forall ls st e, runLines step st ls = Err e ->
  exists pre l post st',
    ls = pre ++ l :: post /\ runLines step st pre = Ok st' /\ step st' l = Err e.
Proof.
  induction ls as [|l ls IH]; intros st e H; cbn [runLines] in H; [discriminate|].
  destruct (step st l) as [st1|e1] eqn:E; cbn [bind] in H.
  - destruct (IH _ _ H) as (pre & l' & post & st' & -> & Hpre & Hl').
    exists (l :: pre), l', post, st'. cbn [app runLines]. rewrite E. cbn [bind]. auto.
  - inversion H; subst. exists [], l, ls, st. cbn. auto.
Qed.

(** The loop fails on a timeline only, and only where it expects one. *)
Lemma srtStep_err_state st line e :
  srtStep ParseFloat st line = Err e ->
  sParseState st = 1%Z /\
  strings.Contains (strings.TrimSpace line) "-->" = true /\
  parseSRTTimeline ParseFloat (strings.TrimSpace line) = Err e.
Proof.
  unfold srtStep.
  destruct (String.eqb (strings.TrimSpace line) "").
  { destruct (0 <? sParseState st)%Z; [|discriminate].
    destruct (0 <? Z.of_nat (length (sTextLines st)))%Z; discriminate. }
  destruct (sParseState st) as [|[ [] | [] | ]|]; try discriminate.
  - destruct (strconv.Atoi (strings.TrimSpace line)); discriminate.
  - destruct (strings.Contains (strings.TrimSpace line) "-->"); [|discriminate].
    destruct (parseSRTTimeline ParseFloat (strings.TrimSpace line)) eqn:E;
      cbn [bind]; [discriminate|].
    intros [= <-]. auto.
Qed.

(** The loop expects a timeline after an index line only. *)
Lemma srtStep_expects_timeline st line st' :
  srtStep ParseFloat st line = Ok st' -> sParseState st' = 1%Z ->
  exists i, strconv.Atoi (strings.TrimSpace line) = Some i.
Proof.
  unfold srtStep, srtNoIndex.
  destruct (strconv.Atoi (strings.TrimSpace line)) as [i|]; [eauto|].
  intros H H1. exfalso. revert H H1.
  destruct (String.eqb (strings.TrimSpace line) "").
  { destruct (0 <? sParseState st)%Z eqn:E0.
    - destruct (0 <? Z.of_nat (length (sTextLines st)))%Z;
        intros [= <-]; cbn; discriminate.
    - intros [= <-] H1. rewrite H1 in E0. discriminate. }
  destruct (sParseState st) as [|[ [] | [] | ]|] eqn:Est;
    repeat match goal with
           | |- context [if ?b then _ else _] => destruct b
           | |- context [parseSRTTimeline ?f ?l] =>
               destruct (parseSRTTimeline f l); cbn [bind]
           end;
    cbn [bind]; try discriminate;
    intros [= <-]; cbn; intros H1; try discriminate;
    rewrite H1 in Est; discriminate.
Qed.

(** X6.  The Format B parser fails in two ways only.  One is a line too
    long for the scanner.  The other is a timeline that does not parse
    where a timeline is expected: the line that follows an index line,
    when it has the arrow and a timestamp component that ParseFloat
    rejects; the error is that of ParseFloat on the component.  Nothing
    else in the layout of the file makes it fail, and a timeline that
    does not parse anywhere else is not an error. *)
Theorem srt_failures (input : string) (e : error) :
  parseSRT ParseFloat input = Err e ->
  (snd (bufio.scanLines bufio.NewScanner input) = Some ErrTooLong /\
   e = ErrTooLong) \/
  exists pre idx i l post s,
    fst (bufio.scanLines bufio.NewScanner input) = pre ++ idx :: l :: post /\
    strconv.Atoi (strings.TrimSpace idx) = Some i /\
    strings.Contains (strings.TrimSpace l) "-->" = true /\
    parseSRTTimeline ParseFloat (strings.TrimSpace l) = Err e /\
    e = ErrNum s /\ ParseFloat s = None.
Proof.
  unfold parseSRT.
  destruct (bufio.scanLines bufio.NewScanner input) as [lines scanErr] eqn:Escan.
  cbn [fst snd].
  destruct (runLines (srtStep ParseFloat) srtInit lines) as [st|e'] eqn:Er;
    cbn [bind].
  - unfold finish. destruct scanErr as [e'|]; [|discriminate].
    intros [= <-]. left. unfold bufio.scanLines in Escan.
    apply scanFrom_error in Escan. now subst.
  - intros [= <-]. right.
    destruct (runLines_err_at _ _ _ _ Er) as (pre & l & post & st' & -> & Hpre & Hl).
    destruct (srtStep_err_state _ _ _ Hl) as (Hst & Harrow & Htl).
    destruct (parseSRTTimeline_err _ _ Htl) as (s & -> & Hs).
    destruct (exists_last (l := pre)) as (pre' & idx & ->).
    { intros ->. cbn in Hpre. inversion Hpre; subst. discriminate. }
    rewrite runLines_app in Hpre.
    destruct (runLines (srtStep ParseFloat) srtInit pre') as [st0|] eqn:E0;
      cbn [bind runLines] in Hpre; [|discriminate].
    destruct (srtStep ParseFloat st0 idx) as [st1|] eqn:E1; cbn [bind] in Hpre;
      [|discriminate].
    inversion Hpre; subst st1.
    destruct (srtStep_expects_timeline _ _ _ E1 Hst) as (i & Hi).
    exists pre', idx, i, l, post, s. rewrite <- app_assoc. cbn [app]. auto 10.
Qed.

End SrtMore.

(** ** More on the Format A parser *)

Section VttMore.

Import parser layout.

Local Open Scope list_scope.

Variable ParseFloat : string -> option Q.

Lemma numbered_snoc cs c :
  numbered cs -> Index c = (Z.of_nat (length cs) + 1)%Z -> numbered (cs ++ [c]).
Proof.
  intros Hn Hc i c' Hi. apply lookup_app_Some in Hi.
  destruct Hi as [Hi|(Hle & Hi)]; [now apply Hn|].
  destruct (i - length cs)%nat as [|k] eqn:E; cbn in Hi; [|discriminate].
  inversion Hi; subst. rewrite Hc. f_equal. lia.
Qed.

Lemma counted_flush st : counted st -> counted (vttNext (vttFlush st)).
Proof.
  intros (Hn & Hi). split; cbn.
  - apply numbered_snoc; [exact Hn | exact Hi].
  - rewrite length_app, Hi. cbn. lia.
Qed.

Lemma vttStep_counted st l st' :
  vttStep ParseFloat st l = Ok st' -> counted st -> counted st'.
Proof.
  unfold vttStep. intros H Hc.
  destruct (String.eqb l "").
  { destruct (vInCaption st); inversion H; subst; [|exact Hc].
    apply (counted_flush st Hc). }
  destruct (strings.Contains l "-->").
  { destruct (parseWebVTTTimeline ParseFloat l) as [times|]; cbn [bind] in H;
      [|discriminate].
    inversion H; subst. destruct (vInCaption st); [|exact Hc].
    apply (counted_flush st Hc). }
  destruct (vInCaption st); inversion H; subst; exact Hc.
Qed.

Lemma runLines_counted : forall ls st st',
  runLines (vttStep ParseFloat) st ls = Ok st' -> counted st -> counted st'.
Proof.
  induction ls as [|l ls IH]; intros st st' H Hc; cbn [runLines] in H.
  - now inversion H; subst.
  - destruct (vttStep ParseFloat st l) as [st1|] eqn:E; cbn [bind] in H;
      [|discriminate].
    eapply IH; [exact H|]. eapply vttStep_counted; eauto.
Qed.

Lemma counted_done st : counted st -> numbered (vttDone st).
Proof.
  intros (Hn & Hi). unfold vttDone. destruct (vInCaption st); [|exact Hn].
  cbn. apply numbered_snoc; [exact Hn | exact Hi].
Qed.

(** A parse that succeeds has read what follows the header section. *)
Lemma parseWebVTT_Ok (input : string) (captions : list Caption) :
  parseWebVTT ParseFloat input = Ok captions ->
  exists first rest st,
    bufio.scanLines bufio.NewScanner input = (first :: rest, None) /\
    strings.HasPrefix first "WEBVTT" = true /\
    runLines (vttStep ParseFloat) vttInit (skipHeader rest) = Ok st /\
    captions = vttDone st.
Proof.
  unfold parseWebVTT.
  destruct (bufio.scanLines bufio.NewScanner input) as [lines scanErr] eqn:Escan.
  destruct lines as [|first rest]; [discriminate|].
  destruct (strings.HasPrefix first "WEBVTT") eqn:Hp; [|discriminate]. cbn [negb].
  destruct scanErr as [e|].
  { destruct (runLines _ _ _); cbn [bind finish]; discriminate. }
  rewrite cueSection_ok by (now rewrite Escan).
  destruct (runLines (vttStep ParseFloat) vttInit (skipHeader rest)) as [st|] eqn:E;
    cbn [bind finish]; [|discriminate].
  intros [= <-]. exists first, rest, st. auto.
Qed.

(** X10.  The captions of a Format A parse carry the indices 1, 2, 3,
    ... in the order of the file, whatever identifiers the file gives
    its cues. *)
Theorem webvtt_indices_sequential (input : string) (captions : list Caption) :
  parseWebVTT ParseFloat input = Ok captions ->
  forall i c, captions !! i = Some c -> Index c = (Z.of_nat i + 1)%Z.
Proof.
  intros H. destruct (parseWebVTT_Ok _ _ H) as (first & rest & st & _ & _ & E & ->).
  apply (counted_done st). eapply runLines_counted; [exact E|].
  split; [|reflexivity]. intros i c Hi. destruct i; discriminate Hi.
Qed.

Lemma vttStep_done_length st l st' :
  vttStep ParseFloat st l = Ok st' ->
  length (vttDone st')
  = (length (vttDone st) + if strings.Contains l "-->" then 1 else 0)%nat.
Proof.
  unfold vttStep, vttDone. intros H.
  destruct (String.eqb l "") eqn:El.
  { apply String.eqb_eq in El. subst l. cbn [strings.Contains String.prefix orb].
    destruct (vInCaption st) eqn:Ein; inversion H; subst; cbn; rewrite ?Ein; lia. }
  destruct (strings.Contains l "-->").
  { destruct (parseWebVTTTimeline ParseFloat l) as [times|]; cbn [bind] in H;
      [|discriminate].
    inversion H; subst. cbn. rewrite length_app. cbn.
    destruct (vInCaption st); cbn; lia. }
  destruct (vInCaption st) eqn:Ein; inversion H; subst; cbn; rewrite ?Ein;
    cbn; rewrite ?length_app; cbn; lia.
Qed.

Lemma runLines_done_length : forall ls st st',
  runLines (vttStep ParseFloat) st ls = Ok st' ->
  length (vttDone st') = (length (vttDone st) + arrowLines ls)%nat.
Proof.
  induction ls as [|l ls IH]; intros st st' H; cbn [runLines] in H.
  - inversion H; subst. unfold arrowLines. cbn. lia.
  - destruct (vttStep ParseFloat st l) as [st1|] eqn:E; cbn [bind] in H;
      [|discriminate].
    rewrite (IH _ _ H), (vttStep_done_length _ _ _ E).
    unfold arrowLines. cbn [List.filter].
    destruct (strings.Contains l "-->"); cbn [length]; lia.
Qed.

(** X11.  A Format A parse that succeeds returns as many captions as the
    file has lines with an arrow after its header section: every such
    line opens a cue, and every cue is closed, by an empty line, by the
    next line with an arrow, or by the end of the file. *)
Theorem webvtt_caption_count (input : string) (captions : list Caption) :
  parseWebVTT ParseFloat input = Ok captions ->
  length captions
  = arrowLines (skipHeader (tail (fst (bufio.scanLines bufio.NewScanner input)))).
Proof.
  intros H.
  destruct (parseWebVTT_Ok _ _ H) as (first & rest & st & -> & _ & E & ->).
  cbn [fst tail]. apply (runLines_done_length _ _ _ E).
Qed.

Lemma vttStep_idle st l :
  vInCaption st = false -> noArrow l -> vttStep ParseFloat st l = Ok st.
Proof.
  intros Hin Hl. unfold vttStep. rewrite Hin, Hl. now destruct (String.eqb l "").
Qed.

(** Lines without an arrow outside a cue change nothing. *)
Lemma vtt_idle : forall ls st,
  vInCaption st = false -> Forall noArrow ls ->
  runLines (vttStep ParseFloat) st ls = Ok st.
Proof.
  induction ls as [|l ls IH]; intros st Hin Hls; cbn [runLines]; [reflexivity|].
  inversion Hls; subst. rewrite vttStep_idle by assumption. cbn [bind].
  now apply IH.
Qed.

(** Text lines inside a cue are collected. *)
Lemma vtt_text_run : forall ls st,
  vInCaption st = true -> Forall textLine ls ->
  runLines (vttStep ParseFloat) st ls
  = Ok {| vCaptions := vCaptions st; vCurrent := vCurrent st;
          vInCaption := true; vTextLines := vTextLines st ++ ls;
          vIndex := vIndex st |}.
Proof.
  induction ls as [|l ls IH]; intros st Hin Hls; cbn [runLines].
  - rewrite app_nil_r. destruct st; cbn in *. now subst.
  - inversion Hls as [|? ? (Hne & Hna) Hls']; subst.
    unfold vttStep at 1. rewrite Hne, Hna, Hin. cbn [bind].
    rewrite IH; [|reflexivity|exact Hls'].
    cbn. now rewrite <- app_assoc.
Qed.

Lemma empty_noArrow ls :
  Forall (fun l => l = EmptyString) ls -> Forall noArrow ls.
Proof.
  intros H. eapply List.Forall_impl; [|exact H]. now intros l ->.
Qed.

(** One cue, read from a state of the loop. *)
Lemma vtt_cue_run q c st :
  vIndex st = (Z.of_nat (length (vCaptions st)) + 1)%Z ->
  (vInCaption st = false -> vTextLines st = []) ->
  (vInCaption st = true -> cueBefore q = []) ->
  vttCaption ParseFloat (Z.of_nat (length (vttDone st)) + 1) q c ->
  exists st',
    runLines (vttStep ParseFloat) st (cueLines q) = Ok st' /\
    vttDone st' = vttDone st ++ [c] /\
    vIndex st' = (Z.of_nat (length (vCaptions st')) + 1)%Z /\
    (vInCaption st' = false -> vTextLines st' = []) /\
    (vInCaption st' = true -> cueAfter q = []).
Proof.
  intros Hidx Htx Hbefore (Hi & Hb & Harrow & Htl & Htext & Hafter & Hc).
  unfold cueLines. rewrite runLines_app.
  assert (Hrun0 : runLines (vttStep ParseFloat) st (cueBefore q) = Ok st).
  { destruct (vInCaption st) eqn:Ein.
    - now rewrite Hbefore.
    - now apply vtt_idle. }
  rewrite Hrun0. cbn [bind runLines].
  unfold vttStep at 1.
  rewrite (Contains_nonempty _ _ Harrow) by discriminate.
  rewrite Harrow, Htl. cbn [bind fst snd].
  rewrite runLines_app, vtt_text_run; [|reflexivity|exact Htext].
  cbn [bind vCaptions vCurrent vTextLines vIndex].
  set (st1 := if vInCaption st then vttNext (vttFlush st) else st).
  assert (Hcap1 : vCaptions st1 = vttDone st)
    by (unfold st1, vttDone; now destruct (vInCaption st)).
  assert (Htx1 : vTextLines st1 = []).
  { unfold st1. destruct (vInCaption st) eqn:Ein; [reflexivity|]. now apply Htx. }
  assert (Hidx1 : vIndex st1 = (Z.of_nat (length (vttDone st)) + 1)%Z).
  { unfold st1, vttDone. destruct (vInCaption st); [|exact Hidx].
    cbn. rewrite length_app, Hidx. cbn. lia. }
  rewrite Htx1. cbn [app].
  assert (Hcur : {| Index := vIndex st1; StartTime := StartTime c;
                    EndTime := EndTime c;
                    Text := strings.Join (cueText q) newline |} = c).
  { rewrite Hidx1, <- Hi, <- Hc. now destruct c. }
  rewrite <- Hcap1 in Hidx1 |- *.
  destruct (cueAfter q) as [|b bs].
  - cbn [runLines]. eexists. split; [reflexivity|].
    unfold vttDone. cbn -[strings.Join]. rewrite Hcur.
    split; [reflexivity|]. split; [exact Hidx1|]. split; [discriminate|auto].
  - inversion Hafter as [|? ? Hb0 Hbs]; subst b.
    cbn [runLines]. unfold vttStep at 1. cbn [String.eqb vInCaption bind].
    rewrite vtt_idle; [|reflexivity|now apply empty_noArrow].
    eexists. split; [reflexivity|].
    unfold vttDone. cbn -[strings.Join]. rewrite Hcur.
    split; [reflexivity|]. split; [|split; [auto|discriminate]].
    rewrite length_app, Hidx1. cbn. lia.
Qed.

Lemma vtt_cues_run : forall qs cs st,
  vIndex st = (Z.of_nat (length (vCaptions st)) + 1)%Z ->
  (vInCaption st = false -> vTextLines st = []) ->
  (vInCaption st = true -> match qs with [] => True | q :: _ => cueBefore q = [] end) ->
  vttCaptions ParseFloat (Z.of_nat (length (vttDone st)) + 1) qs cs ->
  exists st',
    runLines (vttStep ParseFloat) st (concat (map cueLines qs)) = Ok st' /\
    vttDone st' = vttDone st ++ cs.
Proof.
  induction qs as [|q qs IH]; intros cs st Hidx Htx Hbefore H.
  - destruct cs; [|contradiction]. exists st. rewrite app_nil_r. auto.
  - destruct cs as [|c cs]; [contradiction|]. destruct H as (Hq & Hnext & Hqs).
    destruct (vtt_cue_run q c st Hidx Htx Hbefore Hq)
      as (st1 & Hrun & Hdone & Hidx1 & Htx1 & Hin1).
    destruct (IH cs st1 Hidx1 Htx1) as (st2 & Hrun2 & Hdone2).
    { intros Hin. apply Hnext. now apply Hin1. }
    { rewrite Hdone, length_app. cbn [length].
      now replace (Z.of_nat (length (vttDone st) + 1) + 1)%Z
        with (Z.of_nat (length (vttDone st)) + 1 + 1)%Z by lia. }
    exists st2. cbn [map concat]. rewrite runLines_app, Hrun. cbn [bind].
    split; [exact Hrun2|]. now rewrite Hdone2, Hdone, <- app_assoc.
Qed.

Lemma skipHeader_app : forall meta rest,
  Forall (fun l => String.eqb l "" = false) meta ->
  skipHeader (meta ++ "" :: rest) = rest.
Proof.
  induction meta as [|l meta IH]; intros rest H; cbn [app skipHeader].
  - reflexivity.
  - inversion H; subst. rewrite H2. now apply IH.
Qed.

(** X12.  A Format A file made of a first line that starts with WEBVTT,
    header lines that are not empty, an empty line, and then a sequence
    of cues: the parser returns one caption per cue, in the order of the
    file and numbered from 1, with the times of the timeline and the
    text lines joined by line feeds.  In a cue, the lines before the
    timeline (an identifier, a note) have no arrow and are ignored; the
    text lines are not empty and have no arrow; the lines after it are
    empty.  A cue may have no text, and a cue that no empty line follows
    is closed by the timeline of the next cue or by the end of the
    file. *)
Theorem webvtt_cues_parsed (input first : string) (meta : list string)
  (qs : list cue) (cs : list Caption) :
  bufio.scanLines bufio.NewScanner input
  = (first :: meta ++ "" :: concat (map cueLines qs), None) ->
  strings.HasPrefix first "WEBVTT" = true ->
  Forall (fun l => String.eqb l "" = false) meta ->
  vttCaptions ParseFloat 1 qs cs ->
  parseWebVTT ParseFloat input = Ok cs.
Proof.
  intros Hscan Hfirst Hmeta H. unfold parseWebVTT.
  rewrite Hscan, Hfirst, cueSection_ok by (now rewrite Hscan).
  rewrite (skipHeader_app _ _ Hmeta). cbn [negb].
  destruct (vtt_cues_run qs cs vttInit eq_refl (fun _ => eq_refl)) as (st & Hrun & Hdone).
  { discriminate. }
  { exact H. }
  rewrite Hrun. cbn [bind finish]. f_equal. exact Hdone.
Qed.

Lemma runLines_err_In {S} (step : S -> string -> result S) :
  forall ls st e, runLines step st ls = Err e ->
  exists st' l, In l ls /\ step st' l = Err e.
Proof.
  induction ls as [|l ls IH]; intros st e H; cbn [runLines] in H; [discriminate|].
  destruct (step st l) as [st1|e1] eqn:E; cbn [bind] in H.
  - destruct (IH _ _ H) as (st' & l' & Hin & Hl'). exists st', l'. split; [now right|exact Hl'].
  - inversion H; subst. exists st, l. split; [now left|exact E].
Qed.

(** The token after an error is one token, and there is an error. *)
Lemma afterErrorFrom_In cap l : forall s cur n,
  In l (bufio.afterErrorFrom cap cur n s) ->
  bufio.afterErrorFrom cap cur n s = [l] /\
  snd (bufio.scanFrom cap cur n s) = Some ErrTooLong.
Proof.
  induction s as [|c r IH]; intros cur n H;
    cbn [bufio.scanFrom bufio.afterErrorFrom] in *; [contradiction|].
  destruct (N_of_ascii c =? 10)%N.
  - destruct (IH _ _ H) as (H1 & H2).
    destruct (bufio.scanFrom cap "" 0 r) as [ls e]. cbn [snd] in *. auto.
  - destruct (cap <=? n + 1)%Z; [|now apply IH].
    destruct H as [<-|[]]. auto.
Qed.

(** X13.  When a Format A parse fails on a file whose first line starts
    with WEBVTT, the error comes from one of three places: the timeline
    of a line with an arrow after the header section; the timeline of
    the first 64 KB of a header line that is too long for the scanner,
    which the cue loop still reads when the header section has no empty
    line before it; or the scanner itself, for a line too long.  Nothing
    else in the file makes the parse fail. *)
Theorem webvtt_failure_source (input first : string) (rest : list string)
  (e : error) :
  fst (bufio.scanLines bufio.NewScanner input) = first :: rest ->
  strings.HasPrefix first "WEBVTT" = true ->
  parseWebVTT ParseFloat input = Err e ->
  (exists l, In l (skipHeader rest) /\ strings.Contains l "-->" = true /\
             parseWebVTTTimeline ParseFloat l = Err e) \/
  (exists l, existsb (fun h => String.eqb h "") rest = false /\
             bufio.afterError bufio.NewScanner input = [l] /\
             snd (bufio.scanLines bufio.NewScanner input) = Some ErrTooLong /\
             strings.Contains l "-->" = true /\
             parseWebVTTTimeline ParseFloat l = Err e) \/
  (snd (bufio.scanLines bufio.NewScanner input) = Some e /\ e = ErrTooLong).
Proof.
  unfold parseWebVTT.
  destruct (bufio.scanLines bufio.NewScanner input) as [lines scanErr] eqn:Escan.
  cbn [fst snd]. intros -> Hfirst. rewrite Hfirst. cbn [negb].
  destruct (runLines (vttStep ParseFloat) vttInit
              (cueSection bufio.NewScanner input rest)) as [st|e'] eqn:Er;
    cbn [bind].
  - unfold finish. destruct scanErr as [e'|]; [|discriminate].
    intros [= <-]. right. right. split; [reflexivity|].
    unfold bufio.scanLines in Escan. now apply scanFrom_error in Escan.
  - intros [= <-].
    destruct (runLines_err_In _ _ _ _ Er) as (st' & l & Hin & Hl).
    assert (Hline : strings.Contains l "-->" = true /\
                    parseWebVTTTimeline ParseFloat l = Err e').
    { unfold vttStep in Hl.
      destruct (String.eqb l ""); [destruct (vInCaption st'); discriminate|].
      destruct (strings.Contains l "-->"); [|destruct (vInCaption st'); discriminate].
      split; [reflexivity|].
      destruct (parseWebVTTTimeline ParseFloat l); cbn [bind] in Hl; [discriminate|].
      now inversion Hl. }
    unfold cueSection in Hin.
    destruct (existsb (fun h => String.eqb h "") rest) eqn:Eempty.
    + left. exists l. tauto.
    + right. left. exists l.
      destruct (afterErrorFrom_In _ _ _ _ _ Hin) as (H1 & H2).
      unfold bufio.scanLines in Escan. rewrite Escan in H2. cbn [snd] in H2.
      split; [reflexivity|]. split; [exact H1|]. tauto.
Qed.

End VttMore.

(** ** The time arguments of the command *)

Section TimeMore.

Import cmd.

Variable ParseFloat : string -> option Q.

Lemma length_append (x r : string) :
  String.length (x ++ r) = (String.length x + String.length r)%nat.
Proof.
  induction x as [|c x IH]; [now rewrite append_nil_l|].
  rewrite append_cons. cbn [String.length]. now rewrite IH.
Qed.

Lemma substring_all (r : string) : String.substring 0 (String.length r) r = r.
Proof. induction r as [|c r IH]; [reflexivity|]. cbn. now rewrite IH. Qed.

Lemma substring_skip (x r : string) (m : nat) :
  String.substring (String.length x) m (x ++ r) = String.substring 0 m r.
Proof.
  induction x as [|c x IH]; [now rewrite append_nil_l|].
  rewrite append_cons. cbn [String.length String.substring]. exact IH.
Qed.

Lemma substring_take (x r : string) :
  String.substring 0 (String.length x) (x ++ r) = x.
Proof.
  induction x as [|c x IH]; [rewrite append_nil_l; now destruct r|].
  rewrite append_cons. cbn [String.length String.substring]. now rewrite IH.
Qed.

Lemma HasSuffix_app (x r r' : string) :
  String.length r = String.length r' ->
  HasSuffix (x ++ r) r' = String.eqb r r'.
Proof.
  intros Hlen. unfold HasSuffix. rewrite length_append, <- Hlen.
  replace (String.length r <=? String.length x + String.length r)%nat with true
    by (symmetry; apply Nat.leb_le; lia).
  replace (String.length x + String.length r - String.length r)%nat
    with (String.length x) by lia.
  now rewrite substring_skip, substring_all.
Qed.

Lemma TrimSuffix_app (x r : string) : TrimSuffix (x ++ r) r = x.
Proof.
  unfold TrimSuffix. rewrite (HasSuffix_app x r r eq_refl), String.eqb_refl.
  rewrite length_append.
  replace (String.length x + String.length r - String.length r)%nat
    with (String.length x) by lia.
  apply substring_take.
Qed.

(** X14.  A number followed by the letter h is a number of hours, and a
    number followed by the letter m a number of minutes. *)
Theorem time_unit_suffix (x : string) (v : Q) :
  ParseFloat x = Some v ->
  ParseFloat (x ++ "h") = None ->
  ParseFloat (x ++ "m") = None ->
  parseTimeInput ParseFloat (x ++ "h") = TimeOk (v * 3600) /\
  parseTimeInput ParseFloat (x ++ "m") = TimeOk (v * 60).
Proof.
  intros Hx Hh Hm. unfold parseTimeInput. rewrite Hh, Hm. split.
  - now rewrite (HasSuffix_app x "h" "h" eq_refl), TrimSuffix_app, Hx.
  - rewrite (HasSuffix_app x "m" "h" eq_refl). cbn [String.eqb Ascii.eqb Bool.eqb].
    now rewrite (HasSuffix_app x "m" "m" eq_refl), TrimSuffix_app, Hx.
Qed.

Lemma splitFrom_char (x : ascii) (b : string) : forall a cur,
  strings.Contains a (String x "") = false ->
  strings.splitFrom (String x "") 0 cur (a ++ String x b)
  = (cur ++ a) :: strings.splitFrom (String x "") 0 "" b.
Proof.
  induction a as [|c a IH]; intros cur H.
  - rewrite append_nil_l, append_nil_r. cbn [strings.splitFrom String.prefix].
    destruct (ascii_dec x x) as [_|]; [|congruence].
    now rewrite prefix_nil.
  - rewrite append_cons. pose proof (Contains_prefix_false _ _ H) as Hp.
    apply Contains_tail in H. cbn [strings.splitFrom String.prefix] in Hp |- *.
    destruct (ascii_dec x c) as [->|_].
    + now rewrite prefix_nil in Hp.
    + rewrite (IH _ H), append_assoc, append_cons, append_nil_l. reflexivity.
Qed.

Lemma Split_char (x : ascii) (a b : string) :
  strings.Contains a (String x "") = false ->
  strings.Split (a ++ String x b) (String x "")
  = a :: strings.Split b (String x "").
Proof.
  intros H. unfold strings.Split. now rewrite (splitFrom_char x b a "" H), append_nil_l.
Qed.

Lemma Contains_char_app (x : ascii) (a b : string) :
  strings.Contains a (String x "") = false ->
  strings.Contains b (String x "") = false ->
  strings.Contains (a ++ b) (String x "") = false.
Proof.
  intros Ha Hb. induction a as [|c a IH]; [now rewrite append_nil_l|].
  rewrite append_cons. pose proof (Contains_prefix_false _ _ Ha) as Hp.
  apply Contains_tail in Ha. cbn [strings.Contains String.prefix] in Hp |- *.
  destruct (ascii_dec x c) as [->|_].
  - now rewrite prefix_nil in Hp.
  - now apply IH.
Qed.

Lemma Contains_char_mid (x : ascii) (a b : string) :
  strings.Contains (a ++ String x b) (String x "") = true.
Proof.
  induction a as [|c a IH].
  - rewrite append_nil_l. cbn [strings.Contains String.prefix].
    destruct (ascii_dec x x) as [_|]; [|congruence]. now rewrite prefix_nil.
  - rewrite append_cons. cbn [strings.Contains]. rewrite IH. apply orb_true_r.
Qed.

Lemma literal_app (x : ascii) (r : string) : String x "" ++ r = String x r.
Proof. now rewrite append_cons, append_nil_l. Qed.

(** The extended format on a string with its three units. *)
Lemma extended_units (a b c : string) :
  strings.Contains a "h" = false ->
  strings.Contains b "h" = false -> strings.Contains b "m" = false ->
  strings.Contains c "h" = false -> strings.Contains c "m" = false ->
  strings.Contains c "s" = false ->
  exists total,
    extended ParseFloat (a ++ "h" ++ b ++ "m" ++ c ++ "s") = (total, c ++ "s") /\
    (total == component (ParseFloat a) * 3600 + component (ParseFloat b) * 60
              + component (ParseFloat c))%Q.
Proof.
  intros Hah Hbh Hbm Hch Hcm Hcs.
  unfold extended, unitPart, secondsPart. rewrite !literal_app.
  rewrite (Split_char "h" a _ Hah), Split_no_sep.
  2:{ apply Contains_char_app; [exact Hbh|]. cbn [strings.Contains String.prefix].
      cbn. now apply Contains_char_app. }
  rewrite (Split_char "m" b _ Hbm), Split_no_sep.
  2:{ now apply Contains_char_app. }
  rewrite (Split_char "s" c _ Hcs).
  eexists. split; [reflexivity|].
  unfold component.
  destruct (ParseFloat a), (ParseFloat b), (ParseFloat c); ring.
Qed.

(** X15.  The extended format, hours, minutes and seconds each followed
    by its letter: the components that are numbers are added up, hours
    times 3600 and minutes times 60, and the others count for nothing.
    A total above zero is the result; with a total of zero or below the
    input is rejected, and the message shows the seconds part only. *)
Theorem time_extended_format (a b c : string) :
  strings.Contains a "h" = false ->
  strings.Contains b "h" = false -> strings.Contains b "m" = false ->
  strings.Contains c "h" = false -> strings.Contains c "m" = false ->
  strings.Contains c "s" = false ->
  ParseFloat (a ++ "h" ++ b ++ "m" ++ c ++ "s") = None ->
  let total := (component (ParseFloat a) * 3600 + component (ParseFloat b) * 60
                + component (ParseFloat c))%Q in
  ((0 < total)%Q ->
   gives (parseTimeInput ParseFloat (a ++ "h" ++ b ++ "m" ++ c ++ "s")) total) /\
  ((total <= 0)%Q -> strings.Contains c ":" = false ->
   parseTimeInput ParseFloat (a ++ "h" ++ b ++ "m" ++ c ++ "s")
   = TimeErr (InvalidTimeFormat (c ++ "s"))).
Proof.
  intros Hah Hbh Hbm Hch Hcm Hcs Hpf total.
  destruct (extended_units a b c Hah Hbh Hbm Hch Hcm Hcs) as (tot & Hext & Htot).
  fold total in Htot.
  assert (Hend : a ++ "h" ++ b ++ "m" ++ c ++ "s"
                 = (a ++ "h" ++ b ++ "m" ++ c) ++ "s")
    by (now rewrite !append_assoc).
  assert (Hhas : strings.Contains (a ++ "h" ++ b ++ "m" ++ c ++ "s") "h" = true)
    by (rewrite literal_app; apply Contains_char_mid).
  assert (Hsh : HasSuffix (a ++ "h" ++ b ++ "m" ++ c ++ "s") "h" = false)
    by (rewrite Hend; apply (HasSuffix_app _ "s" "h" eq_refl)).
  assert (Hsm : HasSuffix (a ++ "h" ++ b ++ "m" ++ c ++ "s") "m" = false)
    by (rewrite Hend; apply (HasSuffix_app _ "s" "m" eq_refl)).
  unfold parseTimeInput. rewrite Hpf, Hsh, Hsm, Hhas, Hext. cbn [orb]. split.
  - intros Hpos. replace (math.gtb tot 0) with true
      by (symmetry; apply gtb_true; now rewrite Htot).
    exact Htot.
  - intros Hneg Hcolon. replace (math.gtb tot 0) with false
      by (symmetry; apply gtb_false; now rewrite Htot).
    unfold clock. rewrite Split_no_sep; [reflexivity|].
    now apply Contains_char_app.
Qed.

Lemma time_plain (t : string) :
  strings.Contains t "h" = false -> strings.Contains t "m" = false ->
  strings.Contains t "s" = false -> ParseFloat t = None ->
  parseTimeInput ParseFloat t = clock ParseFloat t.
Proof.
  intros Hh Hm Hs Hpf. unfold parseTimeInput. rewrite Hpf, Hh, Hm, Hs. cbn [orb].
  assert (Hsuf : forall x : ascii,
            strings.Contains t (String x "") = false ->
            HasSuffix t (String x "") = false).
  { intros x Hx. unfold HasSuffix.
    destruct (String.length (String x "") <=? String.length t)%nat eqn:Hlen;
      [|reflexivity].
    apply Nat.leb_le in Hlen. cbn [andb]. apply String.eqb_neq. intros Heq.
    clear Hh Hm Hs Hpf. revert Hx Hlen Heq. cbn [String.length].
    induction t as [|c r IH]; intros Hx Hlen Heq; [cbn in Hlen; lia|].
    pose proof (Contains_prefix_false _ _ Hx) as Hp. apply Contains_tail in Hx.
    cbn [String.prefix] in Hp. cbn [String.length] in Heq.
    destruct r as [|c' r'].
    - cbn in Heq. inversion Heq; subst.
      destruct (ascii_dec x x); [discriminate|congruence].
    - replace (S (String.length (String c' r')) - 1)%nat
        with (S (String.length (String c' r') - 1)) in Heq
        by (cbn [String.length]; lia).
      cbn [String.substring] in Heq. apply IH; [exact Hx|cbn; lia|exact Heq]. }
  now rewrite (Hsuf "h"%char Hh), (Hsuf "m"%char Hm).
Qed.

Lemma wrap64_add (x y : Z) : add64 (wrap64 x) (wrap64 y) = wrap64 (x + y).
Proof.
  unfold add64, wrap64. f_equal.
  replace ((x + 2 ^ 63) mod 2 ^ 64 - 2 ^ 63 + ((y + 2 ^ 63) mod 2 ^ 64 - 2 ^ 63)
           + 2 ^ 63)%Z
    with ((x + 2 ^ 63) mod 2 ^ 64 + ((y + 2 ^ 63) mod 2 ^ 64 - 2 ^ 63))%Z by ring.
  rewrite Zplus_mod_idemp_l.
  replace (x + 2 ^ 63 + ((y + 2 ^ 63) mod 2 ^ 64 - 2 ^ 63))%Z
    with ((y + 2 ^ 63) mod 2 ^ 64 + x)%Z by ring.
  rewrite Zplus_mod_idemp_l. f_equal. ring.
Qed.

(** X16.  Hours, minutes and seconds separated by colons: the hours and
    the minutes are integers of any size and sign, the seconds a number;
    the result is hours times 3600 plus minutes times 60, computed on
    64-bit integers, plus the seconds.  The first component that does
    not parse decides the error. *)
Theorem time_clock_three (a b c : string) :
  let t := a ++ ":" ++ b ++ ":" ++ c in
  strings.Contains t "h" = false -> strings.Contains t "m" = false ->
  strings.Contains t "s" = false -> ParseFloat t = None ->
  strings.Contains a ":" = false -> strings.Contains b ":" = false ->
  strings.Contains c ":" = false ->
  parseTimeInput ParseFloat t
  = match strconv.Atoi a, strconv.Atoi b, ParseFloat c with
    | None, _, _ => TimeErr (InvalidHours a)
    | Some _, None, _ => TimeErr (InvalidMinutes b)
    | Some _, Some _, None => TimeErr (InvalidSeconds c)
    | Some h, Some m, Some s =>
        TimeOk (inject_Z (wrap64 (h * 3600 + m * 60)) + s)
    end.
Proof.
  intros t Hh Hm Hs Hpf Ha Hb Hc. rewrite (time_plain t Hh Hm Hs Hpf).
  unfold clock, t. rewrite !literal_app.
  rewrite (Split_char ":" a _ Ha), (Split_char ":" b _ Hb), (Split_no_sep c ":" Hc).
  destruct (strconv.Atoi a) as [h|]; [|reflexivity].
  destruct (strconv.Atoi b) as [m|]; [|reflexivity].
  destruct (ParseFloat c) as [s|]; [|reflexivity].
  unfold mul64. now rewrite wrap64_add.
Qed.

(** X17.  Minutes and seconds separated by a colon: the minutes are an
    integer, the seconds a number, and the result is minutes times 60,
    on 64-bit integers, plus the seconds. *)
Theorem time_clock_two (b c : string) :
  let t := b ++ ":" ++ c in
  strings.Contains t "h" = false -> strings.Contains t "m" = false ->
  strings.Contains t "s" = false -> ParseFloat t = None ->
  strings.Contains b ":" = false -> strings.Contains c ":" = false ->
  parseTimeInput ParseFloat t
  = match strconv.Atoi b, ParseFloat c with
    | None, _ => TimeErr (InvalidMinutes b)
    | Some _, None => TimeErr (InvalidSeconds c)
    | Some m, Some s => TimeOk (inject_Z (wrap64 (m * 60)) + s)
    end.
Proof.
  intros t Hh Hm Hs Hpf Hb Hc. rewrite (time_plain t Hh Hm Hs Hpf).
  unfold clock, t. rewrite !literal_app.
  rewrite (Split_char ":" b _ Hb), (Split_no_sep c ":" Hc).
  destruct (strconv.Atoi b) as [m|]; [|reflexivity].
  destruct (ParseFloat c) as [s|]; reflexivity.
Qed.

(** X18.  A time string that is not a number and has none of the letters
    h, m, s and no colon is rejected as an invalid time format, and the
    message shows the string. *)
Theorem time_rejected (t : string) :
  ParseFloat t = None ->
  strings.Contains t "h" = false -> strings.Contains t "m" = false ->
  strings.Contains t "s" = false -> strings.Contains t ":" = false ->
  parseTimeInput ParseFloat t = TimeErr (InvalidTimeFormat t).
Proof.
  intros Hpf Hh Hm Hs Hc. rewrite (time_plain t Hh Hm Hs Hpf).
  unfold clock. now rewrite (Split_no_sep t ":" Hc).
Qed.

End TimeMore.

(** ** Format detection and the entry points *)

Section FilesMore.

Import parser fileparser.

Variable ParseFloat : string -> option Q.

Lemma parseChunkedWebVTT_rel input :
  parseChunkedWebVTT ParseFloat input = parseWebVTT ParseFloat input \/
  (fst (bufio.scanLines bufio.NewScanner input) = [] /\
   parseChunkedWebVTT ParseFloat input = Err ErrEOF /\
   parseWebVTT ParseFloat input = Err ErrEmptyFile).
Proof.
  unfold parseChunkedWebVTT, parseWebVTT. rewrite scanLines_chunked.
  destruct (bufio.scanLines bufio.NewScanner input) as [lines scanErr].
  destruct lines as [|first rest]; [right; auto|]. left.
  now rewrite (runLines_ext _ _ (chunkedVttStep_eq ParseFloat)).
Qed.

(** X19.  The entry point for large files returns what the plain entry
    point returns: the same format and captions, and the same error,
    with one exception.  When the file is taken for Format A and the
    scanner gets no first line out of it, the error of the one is the
    end of file and the error of the other the empty file. *)
Theorem large_entry_point_agrees (f : File) :
  ParseLargeCaptionsFile ParseFloat f = ParseCaptionsFile ParseFloat f \/
  (exists input,
     content f = Some input /\
     fst (bufio.scanLines bufio.NewScanner input) = [] /\
     ParseLargeCaptionsFile ParseFloat f = FileErr (ParseError ErrEOF) /\
     ParseCaptionsFile ParseFloat f = FileErr (ParseError ErrEmptyFile)).
Proof.
  unfold ParseLargeCaptionsFile, ParseCaptionsFile, parseFileWith.
  destruct (DetectCaptionFormat f) as [format|e]; [|now left].
  destruct (content f) as [input|]; [|now left].
  destruct (String.eqb format FormatWebVTT).
  - destruct (parseChunkedWebVTT_rel input) as [->|(Hl & -> & ->)]; [now left|].
    right. exists input. auto.
  - left. now rewrite parseChunkedSRT_eq.
Qed.

(** X20.  A file with the word WEBVTT somewhere in its first 100 bytes
    is taken for Format A, whatever its extension and the rest of its
    content; when its first line does not start with the word, it is
    rejected for its missing header. *)
Theorem webvtt_word_decides (f : File) (input first : string)
  (rest : list string) :
  content f = Some input ->
  strings.Contains (header input) "WEBVTT" = true ->
  fst (bufio.scanLines bufio.NewScanner input) = first :: rest ->
  strings.HasPrefix first "WEBVTT" = false ->
  DetectCaptionFormat f = FileOk FormatWebVTT /\
  ParseCaptionsFile ParseFloat f = FileErr (ParseError ErrMissingHeader).
Proof.
  intros Hc Hw Hscan Hfirst.
  assert (Hd : DetectCaptionFormat f = FileOk FormatWebVTT).
  { unfold DetectCaptionFormat. rewrite Hc. cbv zeta. rewrite Hw.
    now rewrite orb_true_r. }
  split; [exact Hd|].
  unfold ParseCaptionsFile, parseFileWith. rewrite Hd, Hc.
  cbn [String.eqb FormatWebVTT Ascii.eqb Bool.eqb].
  unfold parseWebVTT.
  destruct (bufio.scanLines bufio.NewScanner input) as [lines scanErr].
  cbn [fst] in Hscan. subst lines. now rewrite Hfirst.
Qed.

Lemma matchPrefix_dead (r : re) : forall s, matchPrefix (Cat Nul r) s = false.
Proof. induction s as [|c s IH]; [reflexivity|]. cbn. exact IH. Qed.

(** X21.  Without the extension .srt and without a verdict of the
    command [file], a file is taken for Format B only if its very first
    byte is a digit: an empty file, and a file that starts with a blank
    line, a byte-order mark or anything else, is an unsupported format
    unless the word WEBVTT is in its first 100 bytes. *)
Theorem srt_signature_needs_digit (f : File) (input : string) :
  content f = Some input ->
  strings.Contains (header input) "WEBVTT" = false ->
  String.eqb (ext f) ".srt" = false ->
  strings.Contains (fileType f) "subrip" = false ->
  match input with
  | EmptyString => True
  | String c _ => isDigit c = false
  end ->
  DetectCaptionFormat f = FileErr ErrUnsupportedFormat /\
  ParseCaptionsFile ParseFloat f = FileErr ErrUnsupportedFormat.
Proof.
  intros Hc Hw Hext Htype Hfirst.
  assert (Hd : DetectCaptionFormat f = FileErr ErrUnsupportedFormat).
  { unfold DetectCaptionFormat. rewrite Hc. cbv zeta.
    unfold strings.HasPrefix. rewrite (Contains_prefix_false _ _ Hw), Hw, Hext, Htype.
    cbn [orb].
    replace (matchPrefix srtSignature (header input)) with false; [reflexivity|].
    symmetry. destruct input as [|c r]; [reflexivity|].
    unfold header. cbn [String.substring]. unfold srtSignature.
    cbn [cats matchPrefix nullable digit andb orb deriv]. rewrite Hfirst.
    apply matchPrefix_dead. }
  split; [exact Hd|].
  unfold ParseCaptionsFile, parseFileWith. now rewrite Hd.
Qed.

Lemma nullable_lang (r : re) : lang r "" -> nullable r = true.
Proof.
  induction r as [| |p|r1 IH1 r2 IH2|r1 IH1 r2 IH2|r1 IH]; cbn [lang nullable].
  - contradiction.
  - reflexivity.
  - intros (c & H & _). discriminate.
  - intros (s1 & s2 & H & H1 & H2). destruct s1; [|discriminate].
    rewrite append_nil_l in H. subst s2. now rewrite IH1, IH2.
  - intros [H|H]; [rewrite IH1 | rewrite IH2]; auto using orb_true_r.
  - reflexivity.
Qed.

Lemma concat_cons (x : string) (l : list string) :
  String.concat "" (x :: l) = x ++ String.concat "" l.
Proof.
  destruct l as [|y l]; cbn [String.concat]; [now rewrite append_nil_r|].
  now rewrite append_nil_l.
Qed.

Lemma deriv_lang (c : ascii) (r : re) : forall s,
  lang r (String c s) -> lang (deriv c r) s.
Proof.
  induction r as [| |p|r1 IH1 r2 IH2|r1 IH1 r2 IH2|r1 IH]; intros s;
    cbn [lang deriv].
  - contradiction.
  - discriminate.
  - intros (c' & H & Hp). inversion H; subst. now rewrite Hp.
  - intros (s1 & s2 & H & H1 & H2). destruct s1 as [|c1 s1].
    + rewrite append_nil_l in H. subst s2.
      rewrite (nullable_lang _ H1). right. now apply IH2.
    + rewrite append_cons in H. inversion H; subst.
      assert (Hcat : lang (Cat (deriv c1 r1) r2) (s1 ++ s2)).
      { exists s1, s2. split; [reflexivity|]. split; [now apply IH1|exact H2]. }
      destruct (nullable r1); [left|]; exact Hcat.
  - intros [H|H]; [left; now apply IH1 | right; now apply IH2].
  - intros (ss & H & Hss). destruct ss as [|x ss]; [discriminate|].
    rewrite concat_cons in H. inversion Hss as [|? ? (Hne & Hx) Hrest]; subst.
    destruct x as [|c1 x]; [congruence|].
    rewrite append_cons in H. inversion H; subst.
    exists x, (String.concat "" ss). split; [reflexivity|].
    split; [now apply IH|]. exists ss. auto.
Qed.

(** A text that starts with a string of the language matches. *)
Lemma matchPrefix_lang : forall p r q, lang r p -> matchPrefix r (p ++ q) = true.
Proof.
  induction p as [|c p IH]; intros r q H.
  - rewrite append_nil_l.
    destruct q; cbn [matchPrefix]; now rewrite (nullable_lang _ H).
  - rewrite append_cons. cbn [matchPrefix].
    rewrite (IH _ _ (deriv_lang _ _ _ H)). apply orb_true_r.
Qed.

Lemma lang_star_every (p : ascii -> bool) : forall s,
  every p s = true -> lang (Star (Cls p)) s.
Proof.
  induction s as [|c s IH]; intros H.
  - exists []. split; [reflexivity|constructor].
  - cbn [every] in H. apply andb_true_iff in H. destruct H as (Hc & Hs).
    destruct (IH Hs) as (ss & -> & Hss).
    exists (String c "" :: ss). split.
    + now rewrite concat_cons, append_cons, append_nil_l.
    + constructor; [|exact Hss]. split; [discriminate|]. exists c. auto.
Qed.

Lemma prefix_cat (r1 r2 : re) (s1 s : string) :
  lang r1 s1 ->
  (exists p q, s = p ++ q /\ lang r2 p) ->
  exists p q, s1 ++ s = p ++ q /\ lang (Cat r1 r2) p.
Proof.
  intros H1 (p & q & -> & H2). exists (s1 ++ p), q.
  split; [now rewrite append_assoc|]. exists s1, p. auto.
Qed.

Lemma lang_char (p : ascii -> bool) (c : ascii) :
  p c = true -> lang (Cls p) (String c "").
Proof. intros H. exists c. auto. Qed.

(** X22.  The signature of Format B: the first 100 bytes start with the
    digits of an index, white space that ends with a line feed, a time
    written with two digits for the hours, the minutes and the seconds
    and three after the comma, optional white space and the arrow.  A
    file with it and without the word WEBVTT in those bytes is taken for
    Format B whatever its extension, and parsed as such. *)
Theorem srt_signature_detected (f : File) (input : string)
  (d0 : ascii) (idx ws : string) (h1 h2 m1 m2 s1 s2 f1 f2 f3 : ascii)
  (ws' rest : string) :
  content f = Some input ->
  strings.Contains (header input) "WEBVTT" = false ->
  header input
  = String d0 idx ++ ws ++ newline
    ++ String h1 "" ++ String h2 "" ++ ":"
    ++ String m1 "" ++ String m2 "" ++ ":"
    ++ String s1 "" ++ String s2 "" ++ ","
    ++ String f1 "" ++ String f2 "" ++ String f3 ""
    ++ ws' ++ "-->" ++ rest ->
  isDigit d0 = true -> every isDigit idx = true -> every isSpace ws = true ->
  forallb isDigit [h1; h2; m1; m2; s1; s2; f1; f2; f3] = true ->
  every isSpace ws' = true ->
  DetectCaptionFormat f = FileOk FormatSRT /\
  ParseCaptionsFile ParseFloat f
  = match parseSRT ParseFloat input with
    | Ok captions => FileOk (captions, FormatSRT)
    | Err e => FileErr (ParseError e)
    end.
Proof.
  intros Hc Hw Hh Hd0 Hidx Hws Hds Hws'.
  cbn [forallb] in Hds. rewrite !andb_true_iff in Hds.
  destruct Hds as (Hh1 & Hh2 & Hm1 & Hm2 & Hs1 & Hs2 & Hf1 & Hf2 & Hf3 & _).
  assert (Hm : matchPrefix srtSignature (header input) = true).
  { assert (Hp : exists p q, header input = p ++ q /\ lang srtSignature p).
    { rewrite Hh.
      change (String d0 idx) with (String d0 "" ++ idx).
      change ("-->" ++ rest) with ("-" ++ "-" ++ ">" ++ "" ++ rest).
      change newline with ("" ++ newline). rewrite !append_assoc.
      unfold srtSignature, newline. cbn [cats].
      apply prefix_cat; [now apply lang_char|].
      apply prefix_cat; [now apply lang_star_every|].
      apply prefix_cat; [now apply lang_star_every|].
      apply prefix_cat; [now right|].
      do 13 (apply prefix_cat;
             [apply lang_char; first [assumption | reflexivity]|]).
      apply prefix_cat; [now apply lang_star_every|].
      do 3 (apply prefix_cat; [apply lang_char; reflexivity|]).
      exists "", rest. split; reflexivity. }
    destruct Hp as (p & q & -> & Hp). now apply matchPrefix_lang. }
  assert (Hd : DetectCaptionFormat f = FileOk FormatSRT).
  { unfold DetectCaptionFormat. rewrite Hc. cbv zeta.
    unfold strings.HasPrefix. rewrite (Contains_prefix_false _ _ Hw), Hw, Hm.
    cbn [orb]. now rewrite !orb_true_r. }
  split; [exact Hd|].
  unfold ParseCaptionsFile, parseFileWith. rewrite Hd, Hc.
  cbn [String.eqb FormatWebVTT FormatSRT Ascii.eqb Bool.eqb].
  now destruct (parseSRT ParseFloat input).
Qed.

End FilesMore.

(** ** Instances of the further properties *)

Section MoreInstances.

Import parser validator spec layout cmd fileparser samples examples.

Local Open Scope list_scope.

Ltac by_computation := vm_compute; reflexivity.

Ltac each_line :=
  repeat (apply List.Forall_cons;
          [first [by_computation | split; by_computation]|]);
  apply List.Forall_nil.

Ltac srt_cue :=
  unfold srtCaption, nonBlank, blank;
  cbn [cueBefore cueTimeline cueText cueAfter Index StartTime EndTime Text];
  split; [by_computation|]; split; [by_computation|]; split; [by_computation|];
  split; [intros [=]|]; split; [each_line|]; split; [intros [=]|];
  split; [each_line | by_computation].

Ltac vtt_cue :=
  unfold vttCaption, noArrow, textLine;
  cbn [cueBefore cueTimeline cueText cueAfter Index StartTime EndTime Text];
  split; [by_computation|]; split; [each_line|]; split; [by_computation|];
  split; [by_computation|]; split; [each_line|]; split; [each_line|];
  by_computation.

Lemma sort_segments_ascending_witness :
  (start {| start := 0; end_ := 15 |} <= start {| start := 12; end_ := 20 |})%Q.
Proof.
  apply (proj2 (proj2 (sort_segments_ascending
                         [ {| start := 12; end_ := 20 |};
                           {| start := 0; end_ := 15 |} ])) 0%nat 1%nat).
  - lia.
  - reflexivity.
  - reflexivity.
Defined.

Lemma covered_time_extensional_witness :
  (coveredTime coverageCaptions 10 55 == coveredTime coverageCaptionsReversed 10 55)%Q.
Proof.
  apply (covered_time_extensional coverageCaptions coverageCaptionsReversed 10 55).
  - repeat constructor; vm_compute; discriminate.
  - repeat constructor; vm_compute; discriminate.
  - reflexivity.
  - intros x _ _. unfold active, coverageCaptionsReversed.
    split; intros (c & Hin & Hc); exists c; (split; [|exact Hc]).
    + now apply in_rev in Hin.
    + now apply in_rev.
Defined.


Lemma srt_failures_witness :
  (snd (bufio.scanLines bufio.NewScanner srtBadTimeline) = Some ErrTooLong /\
   ErrNum "0x.000" = ErrTooLong) \/
  exists pre idx i l post s,
    fst (bufio.scanLines bufio.NewScanner srtBadTimeline)
    = pre ++ idx :: l :: post /\
    strconv.Atoi (strings.TrimSpace idx) = Some i /\
    strings.Contains (strings.TrimSpace l) "-->" = true /\
    parseSRTTimeline strconv.parseDecimal (strings.TrimSpace l)
    = Err (ErrNum "0x.000") /\
    ErrNum "0x.000" = ErrNum s /\ strconv.parseDecimal s = None.
Proof.
  apply (srt_failures strconv.parseDecimal srtBadTimeline (ErrNum "0x.000")).
  vm_compute. reflexivity.
Defined.

Lemma srt_cues_parsed_witness :
  parseSRT strconv.parseDecimal (file (concat (map cueLines srtCues)))
  = Ok srtCuesCaptions.
Proof.
  apply (srt_cues_parsed strconv.parseDecimal _ srtCues srtCuesCaptions).
  - vm_compute. reflexivity.
  - cbn [srtCaptions srtCues srtCuesCaptions].
    split; [srt_cue|]. split; [srt_cue | exact I].
Defined.

Lemma srt_final_blank_line_witness :
  parseSRT strconv.parseDecimal
    (file ["1"; "00:00:01,000 --> 00:00:04,000"; "First"; " "])
  = parseSRT strconv.parseDecimal
      (file ["1"; "00:00:01,000 --> 00:00:04,000"; "First"]).
Proof.
  apply (srt_final_blank_line strconv.parseDecimal _ _
           ["1"; "00:00:01,000 --> 00:00:04,000"; "First"] " ").
  - vm_compute. reflexivity.
  - vm_compute. reflexivity.
  - vm_compute. reflexivity.
Defined.

Lemma srt_text_after_blank_line_witness :
  parseSRT strconv.parseDecimal
    (file (concat (map cueLines srtOneCue) ++ ["Stray text"; "more"]))
  = Ok [ srtOneCaption;
         {| Index := 7; StartTime := StartTime srtOneCaption;
            EndTime := EndTime srtOneCaption;
            Text := strings.Join ["Stray text"; "more"] newline |} ].
Proof.
  apply (srt_text_after_blank_line strconv.parseDecimal _ srtOneCue
           [srtOneCaption] srtOneCaption "Stray text" ["more"]).
  - vm_compute. reflexivity.
  - cbn [srtCaptions srtOneCue]. split; [srt_cue | exact I].
  - reflexivity.
  - vm_compute. reflexivity.
  - vm_compute. reflexivity.
  - vm_compute. reflexivity.
  - repeat (apply List.Forall_cons; [vm_compute; reflexivity|]).
    apply List.Forall_nil.
Defined.

Lemma webvtt_indices_sequential_witness :
  parseWebVTT strconv.parseDecimal webvttContent = Ok webvttCaptions /\
  Index {| Index := 2;
           StartTime := (0 * 3600 + 0 * 60 + (5000 # 1000))%Q;
           EndTime := (0 * 3600 + 0 * 60 + (9000 # 1000))%Q;
           Text := "This is the second caption." |} = (Z.of_nat 1 + 1)%Z.
Proof.
  assert (H : parseWebVTT strconv.parseDecimal webvttContent = Ok webvttCaptions)
    by (vm_compute; reflexivity).
  split; [exact H|].
  apply (webvtt_indices_sequential strconv.parseDecimal webvttContent
           webvttCaptions H 1%nat).
  reflexivity.
Defined.

Lemma webvtt_caption_count_witness :
  length webvttCaptions
  = arrowLines
      (skipHeader (tail (fst (bufio.scanLines bufio.NewScanner webvttContent)))).
Proof.
  apply (webvtt_caption_count strconv.parseDecimal webvttContent webvttCaptions).
  vm_compute. reflexivity.
Defined.

Lemma webvtt_cues_parsed_witness :
  parseWebVTT strconv.parseDecimal webvttContent = Ok webvttCaptions.
Proof.
  apply (webvtt_cues_parsed strconv.parseDecimal webvttContent "WEBVTT" []
           webvttCues webvttCaptions).
  - vm_compute. reflexivity.
  - reflexivity.
  - apply List.Forall_nil.
  - cbn [vttCaptions webvttCues webvttCaptions].
    split; [vtt_cue|]. split; [intros [=]|].
    split; [vtt_cue|]. split; [intros _; exact I | exact I].
Defined.

Lemma webvtt_failure_source_witness :
  (exists l,
     In l (skipHeader [""; "00:00:0x.000 --> 00:00:04.000"; "Text"]) /\
     strings.Contains l "-->" = true /\
     parseWebVTTTimeline strconv.parseDecimal l = Err (ErrNum "0x.000")) \/
  (exists l,
     existsb (fun h => String.eqb h "")
       [""; "00:00:0x.000 --> 00:00:04.000"; "Text"] = false /\
     bufio.afterError bufio.NewScanner webvttBadTimeline = [l] /\
     snd (bufio.scanLines bufio.NewScanner webvttBadTimeline) = Some ErrTooLong /\
     strings.Contains l "-->" = true /\
     parseWebVTTTimeline strconv.parseDecimal l = Err (ErrNum "0x.000")) \/
  (snd (bufio.scanLines bufio.NewScanner webvttBadTimeline) = Some (ErrNum "0x.000") /\
   ErrNum "0x.000" = ErrTooLong).
Proof.
  apply (webvtt_failure_source strconv.parseDecimal webvttBadTimeline "WEBVTT"
           [""; "00:00:0x.000 --> 00:00:04.000"; "Text"] (ErrNum "0x.000")).
  - vm_compute. reflexivity.
  - reflexivity.
  - vm_compute. reflexivity.
Defined.

Lemma time_unit_suffix_witness :
  parseTimeInput strconv.parseDecimal "2.5h" = TimeOk ((25 # 10) * 3600)%Q /\
  parseTimeInput strconv.parseDecimal "2.5m" = TimeOk ((25 # 10) * 60)%Q.
Proof.
  apply (time_unit_suffix strconv.parseDecimal "2.5" (25 # 10)%Q); reflexivity.
Defined.

Lemma time_extended_format_witness :
  gives (parseTimeInput strconv.parseDecimal "2h30m15s")
        (component (Some 2%Q) * 3600 + component (Some 30%Q) * 60
         + component (Some 15%Q))%Q /\
  parseTimeInput strconv.parseDecimal "0hxm0s" = TimeErr (InvalidTimeFormat "0s").
Proof.
  split.
  - apply (proj1 (time_extended_format strconv.parseDecimal "2" "30" "15"
                    eq_refl eq_refl eq_refl eq_refl eq_refl eq_refl eq_refl)).
    reflexivity.
  - apply (proj2 (time_extended_format strconv.parseDecimal "0" "x" "0"
                    eq_refl eq_refl eq_refl eq_refl eq_refl eq_refl eq_refl)).
    + vm_compute. discriminate.
    + reflexivity.
Defined.

Lemma time_clock_three_witness :
  parseTimeInput strconv.parseDecimal "1:30:15.5"
  = TimeOk (inject_Z (wrap64 (1 * 3600 + 30 * 60)) + (155 # 10))%Q.
Proof.
  apply (time_clock_three strconv.parseDecimal "1" "30" "15.5"); reflexivity.
Defined.

Lemma time_clock_two_witness :
  parseTimeInput strconv.parseDecimal "90:30"
  = TimeOk (inject_Z (wrap64 (90 * 60)) + 30)%Q.
Proof.
  apply (time_clock_two strconv.parseDecimal "90" "30"); reflexivity.
Defined.

Lemma time_rejected_witness :
  parseTimeInput strconv.parseDecimal "later" = TimeErr (InvalidTimeFormat "later").
Proof.
  apply (time_rejected strconv.parseDecimal "later"); reflexivity.
Defined.

Lemma webvtt_word_decides_witness :
  DetectCaptionFormat srtAboutWebVTT = FileOk FormatWebVTT /\
  ParseCaptionsFile strconv.parseDecimal srtAboutWebVTT
  = FileErr (ParseError ErrMissingHeader).
Proof.
  apply (webvtt_word_decides strconv.parseDecimal srtAboutWebVTT
           (file [ "1"; "00:00:01,000 --> 00:00:04,000";
                   "WEBVTT is a caption format" ])
           "1" ["00:00:01,000 --> 00:00:04,000"; "WEBVTT is a caption format"]).
  - reflexivity.
  - vm_compute. reflexivity.
  - vm_compute. reflexivity.
  - reflexivity.
Defined.

Lemma srt_signature_needs_digit_witness :
  DetectCaptionFormat srtLeadingBlank = FileErr ErrUnsupportedFormat /\
  ParseCaptionsFile strconv.parseDecimal srtLeadingBlank
  = FileErr ErrUnsupportedFormat.
Proof.
  apply (srt_signature_needs_digit strconv.parseDecimal srtLeadingBlank
           (file [ ""; "1"; "00:00:01,000 --> 00:00:04,000"; "Hi" ])).
  - reflexivity.
  - vm_compute. reflexivity.
  - reflexivity.
  - reflexivity.
  - vm_compute. reflexivity.
Defined.

Lemma srt_signature_detected_witness :
  DetectCaptionFormat srtAsText = FileOk FormatSRT.
Proof.
  apply (srt_signature_detected strconv.parseDecimal srtAsText
           (file [ "1"; "00:00:01,000 --> 00:00:04,000"; "Hi" ])
           "1" "" "" "0" "0" "0" "0" "0" "1" "0" "0" "0" " "
           (" 00:00:04,000" ++ newline ++ "Hi" ++ newline)%string).
  - reflexivity.
  - vm_compute. reflexivity.
  - vm_compute. reflexivity.
  - reflexivity.
  - reflexivity.
  - reflexivity.
  - reflexivity.
  - reflexivity.
Defined.

End MoreInstances.

(** ** Line endings *)

Section LineEndings.

Import parser textfile.

Local Open Scope list_scope.

Variable ParseFloat : string -> option Q.

Lemma dropCR_app_cr (l : string) : bufio.dropCR (l ++ String "013" "")%string = l.
Proof.
  induction l as [|c l IH]; [reflexivity|].
  rewrite append_cons.
  destruct (l ++ String "013" "")%string as [|a r] eqn:E.
  - destruct l; rewrite ?append_nil_l, ?append_cons in E; discriminate.
  - change (bufio.dropCR (String c (String a r)))
      with (String c (bufio.dropCR (String a r))).
    now rewrite IH.
Qed.

(** A line without line feed that fits is delivered whole. *)
Lemma scanFrom_line (cap : Z) (rest : string) : forall l cur,
  strings.Contains l newline = false ->
  (Z.of_nat (String.length cur) + Z.of_nat (String.length l) < cap)%Z ->
  bufio.scanFrom cap cur (Z.of_nat (String.length cur)) (l ++ String "010" rest)%string
  = (bufio.dropCR (cur ++ l)%string :: fst (bufio.scanFrom cap "" 0 rest),
     snd (bufio.scanFrom cap "" 0 rest)).
Proof.
  induction l as [|c l IH]; intros cur Hnl Hlen.
  - rewrite append_nil_l, append_nil_r. cbn [bufio.scanFrom].
    change (N_of_ascii "010" =? 10)%N with true. cbv iota.
    now destruct (bufio.scanFrom cap "" 0 rest).
  - rewrite append_cons. cbn [bufio.scanFrom].
    pose proof (Contains_prefix_false _ _ Hnl) as Hp. apply Contains_tail in Hnl.
    unfold newline in Hp. cbn [String.prefix] in Hp.
    destruct (N_of_ascii c =? 10)%N eqn:Ec.
    { apply N.eqb_eq in Ec.
      assert (c = "010"%char) by (rewrite <- (ascii_N_embedding c), Ec; reflexivity).
      subst c. cbn in Hp. now rewrite prefix_nil in Hp. }
    cbn [String.length] in Hlen.
    replace (cap <=? Z.of_nat (String.length cur) + 1)%Z with false
      by (symmetry; apply Z.leb_gt; lia).
    replace (Z.of_nat (String.length cur) + 1)%Z
      with (Z.of_nat (String.length (cur ++ String c "")%string))
      by (rewrite length_append_one; lia).
    rewrite (IH _ Hnl).
    + now rewrite append_assoc, append_cons, append_nil_l.
    + rewrite length_append_one. lia.
Qed.

Lemma scan_file : forall lines,
  Forall scannable lines ->
  bufio.scanLines bufio.NewScanner (samples.file lines) = (lines, None).
Proof.
  unfold bufio.scanLines, samples.file.
  induction lines as [|l lines IH]; intros H; [reflexivity|].
  inversion H as [|? ? (Hnl & Hcr & Hlen) Hrest]; subst.
  cbn [map]. rewrite concat_cons. unfold newline at 1.
  rewrite append_assoc, append_cons, append_nil_l.
  change 0%Z with (Z.of_nat (String.length "")) at 1.
  rewrite scanFrom_line; [|exact Hnl|].
  2:{ unfold bufio.MaxScanTokenSize in Hlen. cbn [String.length].
      change (bufio.capacity bufio.NewScanner) with (64 * 1024)%Z. lia. }
  rewrite (IH Hrest). cbn [fst snd]. now rewrite append_nil_l, Hcr.
Qed.

Lemma scan_fileCRLF : forall lines,
  Forall scannable lines ->
  bufio.scanLines bufio.NewScanner (fileCRLF lines) = (lines, None).
Proof.
  unfold bufio.scanLines, fileCRLF.
  induction lines as [|l lines IH]; intros H; [reflexivity|].
  inversion H as [|? ? (Hnl & Hcr & Hlen) Hrest]; subst.
  cbn [map]. rewrite concat_cons. unfold crlf at 1. unfold newline at 1.
  change (ascii_of_N 10) with "010"%char.
  replace ((l ++ String "013" (String "010" "")) ++
           String.concat "" (map (fun l0 : string => (l0 ++ crlf)%string) lines))%string
    with ((l ++ String "013" "") ++
          String "010" (String.concat ""
                          (map (fun l0 : string => (l0 ++ crlf)%string) lines)))%string
    by (now rewrite !append_assoc, !append_cons, !append_nil_l).
  change 0%Z with (Z.of_nat (String.length "")) at 1.
  rewrite scanFrom_line.
  - rewrite (IH Hrest). cbn [fst snd]. now rewrite append_nil_l, dropCR_app_cr.
  - apply Contains_char_app; [exact Hnl | reflexivity].
  - unfold bufio.MaxScanTokenSize in Hlen. cbn [String.length].
    rewrite length_append. cbn [String.length].
    change (bufio.capacity bufio.NewScanner) with (64 * 1024)%Z. lia.
Qed.

(** X23.  Line endings do not matter: a file whose lines end with
    carriage return and line feed is parsed as the same lines ending
    with a line feed alone, by both parsers, when no line is longer than
    the scanner allows. *)
Theorem crlf_line_endings (lines : list string) :
  Forall scannable lines ->
  parseWebVTT ParseFloat (fileCRLF lines)
  = parseWebVTT ParseFloat (samples.file lines) /\
  parseSRT ParseFloat (fileCRLF lines) = parseSRT ParseFloat (samples.file lines).
Proof.
  intros H. unfold parseWebVTT, parseSRT.
  rewrite (scan_fileCRLF lines H), (scan_file lines H).
  split; [|reflexivity]. destruct lines as [|first rest]; [reflexivity|].
  rewrite !cueSection_ok; [reflexivity| |].
  - now rewrite (scan_file _ H).
  - now rewrite (scan_fileCRLF _ H).
Qed.

End LineEndings.

Lemma crlf_line_endings_witness :
  parser.parseWebVTT strconv.parseDecimal
    (textfile.fileCRLF ["WEBVTT"; ""; "00:00:01.000 --> 00:00:04.000"; "Hi"])
  = parser.parseWebVTT strconv.parseDecimal
      (samples.file ["WEBVTT"; ""; "00:00:01.000 --> 00:00:04.000"; "Hi"]).
Proof.
  apply (crlf_line_endings strconv.parseDecimal
           ["WEBVTT"; ""; "00:00:01.000 --> 00:00:04.000"; "Hi"]).
  repeat (apply List.Forall_cons;
          [split; [vm_compute; reflexivity|split; vm_compute; reflexivity]|]).
  apply List.Forall_nil.
Defined.

(** ** The command *)

Section CommandMore.

Import parser cmd fileparser command.

Local Open Scope list_scope.

Variable ParseFloat : string -> option Q.

(** What [main] does once the captions are parsed and the times known. *)
Lemma main_reaches (w : invocation) (path : string) (startSec endSec : Q)
  (captions : list Caption) (format : string) :
  logOpens w = true -> flags w = FlagsSet ->
  args w = [path] -> notExist w path = false ->
  parseTimeInput ParseFloat (t_start w) = TimeOk startSec ->
  String.eqb (t_end w) "" = false ->
  parseTimeInput ParseFloat (t_end w) = TimeOk endSec ->
  ParseCaptionsFile ParseFloat (fileAt w path) = FileOk (captions, format) ->
  main ParseFloat w
  = match validator.ValidateCoverage captions startSec endSec (coverage w) with
    | Err _ => ([], 1%Z)
    | Ok coverageResult =>
        let out :=
          if validator.Valid coverageResult then []
          else [CoverageFailure coverageResult] in
        if negb (String.eqb (api w) "") then
          match client.ValidateLanguage
                  (answer w (api w) (ExtractPlainText captions)) with
          | None => (out, 0%Z)
          | Some langResult =>
              if client.Valid langResult then (out, 0%Z)
              else (out ++ [LanguageFailure langResult], 1%Z)
          end
        else (out, 0%Z)
    end.
Proof.
  intros Hlog Hflags Hargs Hex Hs He0 He Hp. unfold main.
  now rewrite Hlog, Hflags, Hargs, Hex, Hs, He0, He, Hp.
Qed.

(** The other ways through [main] end with nothing printed and the exit
    code 0 or 2 at [flag.Parse], or with the exit code 1. *)
Lemma main_stops (w : invocation) :
  snd (main ParseFloat w) = 1%Z \/
  (logOpens w = true /\ flags w = HelpAsked /\ main ParseFloat w = ([], 0%Z)) \/
  (logOpens w = true /\ flags w = BadFlag /\ main ParseFloat w = ([], 2%Z)) \/
  exists path startSec endSec captions format,
    logOpens w = true /\ flags w = FlagsSet /\
    args w = [path] /\ notExist w path = false /\
    parseTimeInput ParseFloat (t_start w) = TimeOk startSec /\
    String.eqb (t_end w) "" = false /\
    parseTimeInput ParseFloat (t_end w) = TimeOk endSec /\
    ParseCaptionsFile ParseFloat (fileAt w path) = FileOk (captions, format).
Proof.
  unfold main.
  destruct (logOpens w); [|now left]. cbn [negb].
  destruct (flags w); [|right; left; auto|right; right; left; auto].
  destruct (args w) as [|path [|p2 ps]]; [now left| |now left].
  destruct (notExist w path) eqn:Hex; [now left|].
  destruct (parseTimeInput ParseFloat (t_start w)) as [startSec|]; [|now left].
  destruct (String.eqb (t_end w) "") eqn:He0; [now left|].
  destruct (parseTimeInput ParseFloat (t_end w)) as [endSec|]; [|now left].
  destruct (ParseCaptionsFile ParseFloat (fileAt w path)) as [[captions format]|e]
    eqn:Hp.
  - right. right. right. exists path, startSec, endSec, captions, format. auto 10.
  - left. now destruct e.
Qed.

(** X24.  The exit code of the command does not depend on the coverage
    threshold: a coverage below the threshold is printed and never makes
    the command fail. *)
Theorem exit_code_ignores_coverage (w : invocation) (c : Q) :
  snd (main ParseFloat (withCoverage c w)) = snd (main ParseFloat w).
Proof.
  unfold main.
  cbn [withCoverage logOpens flags args notExist t_start t_end fileAt coverage
       api answer].
  destruct (logOpens w); [|reflexivity]. cbn [negb].
  destruct (flags w); try reflexivity.
  destruct (args w) as [|path [|p2 ps]]; try reflexivity.
  destruct (notExist w path); [reflexivity|].
  destruct (parseTimeInput ParseFloat (t_start w)) as [S|]; [|reflexivity].
  destruct (String.eqb (t_end w) ""); [reflexivity|].
  destruct (parseTimeInput ParseFloat (t_end w)) as [E|]; [|reflexivity].
  destruct (ParseCaptionsFile ParseFloat (fileAt w path)) as [[caps fmt]|e];
    [|now destruct e].
  destruct (Qlt_le_dec S E) as [Hlt|Hle].
  - destruct (ValidateCoverage_Ok caps S E c Hlt) as (r & -> & _).
    destruct (ValidateCoverage_Ok caps S E (coverage w) Hlt) as (r' & -> & _).
    cbv zeta. destruct (negb (String.eqb (api w) "")); [|reflexivity].
    destruct (client.ValidateLanguage _) as [l|]; [|reflexivity].
    now destruct (client.Valid l).
  - now rewrite !(ValidateCoverage_Err _ _ _ _ Hle).
Qed.

(** X25.  The command ends with the exit code 0, 1 or 2.  It ends with
    2 exactly when the log file opens and the command line does not
    parse.  When the log file does not open it ends with 1, and when it
    opens and help is asked for it ends with 0, each time with nothing
    printed on the standard output.  With the flags set it ends with 1
    when the arguments left are not exactly one, when there is no file
    at the path (file_not_found is printed), when t_start does not
    parse, when t_end is empty or does not parse, and when the file does
    not parse (unsupported_format is printed for that error, nothing for
    the others). *)
Theorem exit_codes (w : invocation) :
  (snd (main ParseFloat w) = 0%Z \/ snd (main ParseFloat w) = 1%Z \/
   snd (main ParseFloat w) = 2%Z) /\
  (snd (main ParseFloat w) = 2%Z <-> logOpens w = true /\ flags w = BadFlag) /\
  (logOpens w = false -> main ParseFloat w = ([], 1%Z)) /\
  (logOpens w = true -> flags w = HelpAsked -> main ParseFloat w = ([], 0%Z)) /\
  (logOpens w = true -> flags w = FlagsSet ->
   (length (args w) <> 1%nat -> main ParseFloat w = ([], 1%Z)) /\
   (forall path, args w = [path] ->
      (notExist w path = true -> main ParseFloat w = ([FileNotFound path], 1%Z)) /\
      (notExist w path = false ->
         ((exists e, parseTimeInput ParseFloat (t_start w) = TimeErr e) \/
          t_end w = ""%string \/
          (exists e, parseTimeInput ParseFloat (t_end w) = TimeErr e) ->
          main ParseFloat w = ([], 1%Z)) /\
         (forall startSec endSec e,
            parseTimeInput ParseFloat (t_start w) = TimeOk startSec ->
            t_end w <> ""%string ->
            parseTimeInput ParseFloat (t_end w) = TimeOk endSec ->
            ParseCaptionsFile ParseFloat (fileAt w path) = FileErr e ->
            main ParseFloat w
            = (match e with
               | ErrUnsupportedFormat => [UnsupportedFormat path]
               | _ => []
               end, 1%Z))))).
Proof.
  split; [|split; [|split; [|split; [|intros Hlog Hflags; split]]]].
  - destruct (main_stops w) as [H|[(_ & _ & H)|[(_ & _ & H)|H]]];
      [now right; left | rewrite H; now left | rewrite H; now right; right |].
    destruct H as (path & S & E & caps & fmt & Hlog & Hflags & Hargs & Hex & Hs
                   & He0 & He & Hp).
    rewrite (main_reaches w path S E caps fmt Hlog Hflags Hargs Hex Hs He0 He Hp).
    destruct (validator.ValidateCoverage caps S E (coverage w)) as [r|e];
      [|now right; left].
    cbv zeta. destruct (negb (String.eqb (api w) "")); [|now left].
    destruct (client.ValidateLanguage _) as [l|]; [|now left].
    destruct (client.Valid l); [now left | now right; left].
  - split.
    + intros H2.
      destruct (main_stops w) as [H|[(_ & _ & H)|[(Hlog & Hflags & _)|H]]];
        [congruence | rewrite H in H2; discriminate | now split |].
      destruct H as (path & S & E & caps & fmt & Hlog & Hflags & Hargs & Hex & Hs
                     & He0 & He & Hp).
      rewrite (main_reaches w path S E caps fmt Hlog Hflags Hargs Hex Hs He0 He Hp)
        in H2.
      destruct (validator.ValidateCoverage caps S E (coverage w)) as [r|e];
        [|discriminate].
      cbv zeta in H2. destruct (negb (String.eqb (api w) "")); [|discriminate].
      destruct (client.ValidateLanguage _) as [l|]; [|discriminate].
      destruct (client.Valid l); discriminate.
    + intros (Hlog & Hflags). unfold main. now rewrite Hlog, Hflags.
  - intros Hlog. unfold main. now rewrite Hlog.
  - intros Hlog Hflags. unfold main. now rewrite Hlog, Hflags.
  - intros Hlen. unfold main. rewrite Hlog, Hflags. cbn [negb].
    destruct (args w) as [|path [|p2 ps]]; [reflexivity | now contradict Hlen
                                           | reflexivity].
  - intros path Hargs. split; [|intros Hex; split].
    + intros Hex. unfold main. now rewrite Hlog, Hflags, Hargs, Hex.
    + unfold main. rewrite Hlog, Hflags, Hargs, Hex. cbn [negb].
      intros [(e & Hs)|[He0|(e & He)]].
      * now rewrite Hs.
      * destruct (parseTimeInput ParseFloat (t_start w)); [|reflexivity].
        now rewrite He0.
      * destruct (parseTimeInput ParseFloat (t_start w)); [|reflexivity].
        destruct (String.eqb (t_end w) ""); [reflexivity|]. now rewrite He.
    + intros S E e Hs He0 He Hp. unfold main.
      apply String.eqb_neq in He0.
      rewrite Hlog, Hflags, Hargs, Hex, Hs, He0, He, Hp. cbn [negb].
      now destruct e.
Qed.

(** X26.  When the command exits with 0 it has printed nothing, or one
    coverage result that is not valid; a language failure, an
    unsupported format and a missing file are never printed with the
    exit code 0. *)
Theorem exit_zero_output (w : invocation) :
  snd (main ParseFloat w) = 0%Z ->
  fst (main ParseFloat w) = [] \/
  exists r, fst (main ParseFloat w) = [CoverageFailure r] /\
            validator.Valid r = false.
Proof.
  intros H0.
  destruct (main_stops w)
    as [H1|[(_ & _ & Hh)|[(_ & _ & Hb)|(path & S & E & caps & fmt & Hlog & Hflags
                                        & Hargs & Hex & Hs & He0 & He & Hp)]]];
    [congruence | rewrite Hh; now left | rewrite Hb in H0; discriminate |].
  rewrite (main_reaches w path S E caps fmt Hlog Hflags Hargs Hex Hs He0 He Hp)
    in H0 |- *.
  destruct (validator.ValidateCoverage caps S E (coverage w)) as [r|e];
    [|discriminate].
  cbv zeta in H0 |- *.
  assert (Hout : (if validator.Valid r then [] else [CoverageFailure r]) = [] \/
                 exists r', (if validator.Valid r then [] else [CoverageFailure r])
                            = [CoverageFailure r'] /\ validator.Valid r' = false).
  { destruct (validator.Valid r) eqn:Ev; [now left|right]. exists r. auto. }
  destruct (negb (String.eqb (api w) "")); [|exact Hout].
  destruct (client.ValidateLanguage _) as [l|]; [|exact Hout].
  destruct (client.Valid l); [exact Hout|discriminate].
Qed.

End CommandMore.

Lemma exit_zero_output_witness :
  fst (command.main strconv.parseDecimal examples.lowCoverageRun) = [] \/
  exists r,
    fst (command.main strconv.parseDecimal examples.lowCoverageRun)
    = [command.CoverageFailure r] /\
    validator.Valid r = false.
Proof.
  apply (exit_zero_output strconv.parseDecimal examples.lowCoverageRun).
  vm_compute. reflexivity.
Defined.

(** ** The plain text against its specification *)

Section PlainTextSpec.

Import parser textspec.

Lemma code_eqb (c : ascii) (x : ascii) :
  (N_of_ascii c =? N_of_ascii x)%N = true <-> c = x.
Proof.
  rewrite N.eqb_eq. split; [|now intros ->].
  intros H. rewrite <- (ascii_N_embedding c), H. apply ascii_N_embedding.
Qed.

Lemma prefix_char (x c : ascii) (r : string) :
  String.prefix (String x "") (String c r) = (N_of_ascii c =? N_of_ascii x)%N.
Proof.
  cbn [String.prefix]. destruct (ascii_dec x c) as [<-|Hne].
  - now rewrite prefix_nil, N.eqb_refl.
  - symmetry. apply not_true_iff_false. rewrite code_eqb. congruence.
Qed.

(** The first occurrence of a byte. *)
Lemma Contains_split (x : ascii) : forall s,
  strings.Contains s (String x "") = true ->
  exists a b, s = a ++ String x b /\ strings.Contains a (String x "") = false.
Proof.
  induction s as [|c r IH]; intros H; [discriminate|].
  cbn [strings.Contains] in H. rewrite prefix_char in H.
  destruct (N_of_ascii c =? N_of_ascii x)%N eqn:Ec.
  - apply code_eqb in Ec. subst c. exists "", r. split; reflexivity.
  - cbn [orb] in H. destruct (IH H) as (a & b & -> & Ha).
    exists (String c a), b. split; [reflexivity|].
    cbn [strings.Contains]. now rewrite prefix_char, Ec, Ha.
Qed.

Lemma lacks_Contains (x : ascii) (s : string) :
  lacks x s <-> strings.Contains s (String x "") = false.
Proof.
  split.
  - intros H. destruct (strings.Contains s (String x "")) eqn:E; [|reflexivity].
    destruct (Contains_split x s E) as (a & b & -> & _). now destruct (H a b).
  - intros H a b ->. now rewrite Contains_char_mid in H.
Qed.

(** Inside a span, up to its end. *)
Lemma removeTagsFrom_inside (c : string) : forall b,
  strings.Contains b ">" = false ->
  regexp.removeTagsFrom true (b ++ String ">" c) = regexp.removeTagsFrom false c.
Proof.
  induction b as [|x b IH]; intros H.
  - rewrite append_nil_l. reflexivity.
  - rewrite append_cons. cbn [regexp.removeTagsFrom].
    pose proof (Contains_prefix_false _ _ H) as Hp. apply Contains_tail in H.
    rewrite (prefix_char ">" x b) in Hp. change (N_of_ascii ">") with 62%N in Hp.
    rewrite Hp. cbn [negb]. now apply IH.
Qed.

(** Up to the first span and over it. *)
Lemma removeTags_span (b c : string) : forall a,
  strings.Contains a "<" = false -> strings.Contains b ">" = false ->
  regexp.removeTags (a ++ String "<" (b ++ String ">" c)) = a ++ regexp.removeTags c.
Proof.
  unfold regexp.removeTags. induction a as [|x a IH]; intros Ha Hb.
  - rewrite !append_nil_l. cbn [regexp.removeTagsFrom].
    change (N_of_ascii "<" =? 60)%N with true.
    rewrite (Contains_char_mid ">" b c). cbn [andb].
    now apply removeTagsFrom_inside.
  - rewrite !append_cons. cbn [regexp.removeTagsFrom].
    pose proof (Contains_prefix_false _ _ Ha) as Hp. apply Contains_tail in Ha.
    rewrite (prefix_char "<" x a) in Hp. change (N_of_ascii "<") with 60%N in Hp.
    rewrite Hp. cbn [andb]. now rewrite (IH Ha Hb).
Qed.

Lemma hasSpan_span (b c : string) : forall a,
  spec.hasSpan (a ++ String "<" (b ++ String ">" c)) = true.
Proof.
  induction a as [|x a IH].
  - rewrite append_nil_l. cbn [spec.hasSpan].
    change (N_of_ascii "<" =? 60)%N with true.
    now rewrite (Contains_char_mid ">" b c).
  - rewrite append_cons. cbn [spec.hasSpan]. rewrite IH. apply orb_true_r.
Qed.

(** The first span of a text that has one. *)
Lemma hasSpan_split : forall s,
  spec.hasSpan s = true ->
  exists a b c,
    s = a ++ String "<" (b ++ String ">" c) /\
    strings.Contains a "<" = false /\ strings.Contains b ">" = false.
Proof.
  induction s as [|x r IH]; intros H; [discriminate|].
  cbn [spec.hasSpan] in H.
  destruct ((N_of_ascii x =? 60)%N && strings.Contains r ">") eqn:E.
  - apply andb_true_iff in E. destruct E as (Ex & Er).
    change 60%N with (N_of_ascii "<") in Ex. apply code_eqb in Ex. subst x.
    destruct (Contains_split ">" r Er) as (b & c & -> & Hb).
    exists "", b, c. split; [reflexivity|]. split; [reflexivity|exact Hb].
  - cbn [orb] in H. destruct (IH H) as (a & b & c & -> & Ha & Hb).
    exists (String x a), b, c. split; [reflexivity|]. split; [|exact Hb].
    cbn [strings.Contains]. rewrite (prefix_char "<" x a), Ha.
    change (N_of_ascii "<") with 60%N.
    destruct (N_of_ascii x =? 60)%N; [|reflexivity].
    cbn [andb] in E.
    replace (a ++ String "<" (b ++ String ">" c))
      with ((a ++ String "<" b) ++ String ">" c) in E
      by (now rewrite append_assoc, append_cons).
    now rewrite (Contains_char_mid ">" (a ++ String "<" b) c) in E.
Qed.

(** The removal of the code takes out the spans of the text, each from
    its ['<'] to the first ['>'] after it, and nothing else. *)
Lemma stripped_removeTags : forall s, stripped s (regexp.removeTags s).
Proof.
  induction s as [s IH] using string_len_ind.
  destruct (spec.hasSpan s) eqn:E.
  - destruct (hasSpan_split s E) as (a & b & c & -> & Ha & Hb).
    rewrite (removeTags_span b c a Ha Hb).
    apply stripped_span; [now apply lacks_Contains | now apply lacks_Contains|].
    apply IH. rewrite length_append. cbn [String.length].
    rewrite length_append. cbn [String.length]. lia.
  - rewrite (removeTags_without_span s E). apply stripped_none.
    intros a b c ->. now rewrite hasSpan_span in E.
Qed.

Ltac in_whiteSpace :=
  unfold whiteSpace; cbn [map bytes fold_right In];
  repeat (first [left; reflexivity | right]).

Ltac to_props H :=
  repeat first [ rewrite orb_true_iff in H | rewrite andb_true_iff in H
               | rewrite N.leb_le in H | rewrite N.eqb_eq in H ].

Ltac byte_is c H := rewrite <- (ascii_N_embedding c), H.

(** The white-space characters of the specification are those the
    trimming of the code knows. *)
Lemma whiteSpace_isSpaceRune (w : string) :
  In w whiteSpace -> strings.isSpaceRune w = true.
Proof.
  unfold whiteSpace. cbn [map bytes fold_right In]. intros H.
  repeat (destruct H as [<-|H]; [reflexivity|]). contradiction.
Qed.

Lemma isSpaceRune_whiteSpace (w : string) :
  strings.isSpaceRune w = true -> In w whiteSpace.
Proof.
  destruct w as [|c1 [|c2 [|c3 [|c4 r]]]]; cbn [strings.isSpaceRune];
    try discriminate.
  - unfold strings.asciiSpace. cbv zeta. intros H. to_props H.
    assert (Hn : (N_of_ascii c1 = 9 \/ N_of_ascii c1 = 10 \/ N_of_ascii c1 = 11 \/
                  N_of_ascii c1 = 12 \/ N_of_ascii c1 = 13 \/ N_of_ascii c1 = 32)%N)
      by lia.
    repeat (destruct Hn as [Hn|Hn]; [byte_is c1 Hn; in_whiteSpace|]).
    byte_is c1 Hn. in_whiteSpace.
  - unfold strings.space2. cbv zeta. intros H. to_props H.
    destruct H as (H1 & [H2|H2]); byte_is c1 H1; byte_is c2 H2; in_whiteSpace.
  - unfold strings.space3. cbv zeta. intros H. to_props H.
    destruct H as [[[((H1 & H2) & H3)|((H1 & H2) & H3)]|((H1 & H2) & H3)]
                   |((H1 & H2) & H3)];
      byte_is c1 H1; byte_is c2 H2.
    + byte_is c3 H3. in_whiteSpace.
    + assert (Hn : (N_of_ascii c3 = 128 \/ N_of_ascii c3 = 129 \/
                    N_of_ascii c3 = 130 \/ N_of_ascii c3 = 131 \/
                    N_of_ascii c3 = 132 \/ N_of_ascii c3 = 133 \/
                    N_of_ascii c3 = 134 \/ N_of_ascii c3 = 135 \/
                    N_of_ascii c3 = 136 \/ N_of_ascii c3 = 137 \/
                    N_of_ascii c3 = 138 \/ N_of_ascii c3 = 168 \/
                    N_of_ascii c3 = 169 \/ N_of_ascii c3 = 175)%N) by lia.
      repeat (destruct Hn as [Hn|Hn]; [byte_is c3 Hn; in_whiteSpace|]).
      byte_is c3 Hn. in_whiteSpace.
    + byte_is c3 H3. in_whiteSpace.
    + byte_is c3 H3. in_whiteSpace.
Qed.

(** What the trimming cuts off on the left is white space. *)
Lemma trimLeft_blankText : forall s,
  exists l, s = l ++ strings.trimLeft s /\ blankText l.
Proof.
  induction s as [s IH] using string_len_ind.
  destruct s as [|c1 r1]; [exists ""; split; [reflexivity|constructor]|].
  cbn [strings.trimLeft]. destruct (strings.asciiSpace c1) eqn:E1.
  { destruct (IH r1) as (l & Hl & Hb); [simpl; lia|].
    exists (String c1 "" ++ l). split.
    - rewrite append_assoc, <- Hl. reflexivity.
    - apply blank_cons; [|exact Hb]. now apply isSpaceRune_whiteSpace. }
  destruct r1 as [|c2 r2]; [exists ""; split; [reflexivity|constructor]|].
  destruct (strings.space2 c1 c2) eqn:E2.
  { destruct (IH r2) as (l & Hl & Hb); [simpl; lia|].
    exists (String c1 (String c2 "") ++ l). split.
    - rewrite append_assoc, <- Hl. reflexivity.
    - apply blank_cons; [|exact Hb]. now apply isSpaceRune_whiteSpace. }
  destruct r2 as [|c3 r3]; [exists ""; split; [reflexivity|constructor]|].
  destruct (strings.space3 c1 c2 c3) eqn:E3;
    [|exists ""; split; [reflexivity|constructor]].
  destruct (IH r3) as (l & Hl & Hb); [simpl; lia|].
  exists (String c1 (String c2 (String c3 "")) ++ l). split.
  - rewrite append_assoc, <- Hl. reflexivity.
  - apply blank_cons; [|exact Hb]. now apply isSpaceRune_whiteSpace.
Qed.

(** What is left does not start with a white-space character. *)
Lemma trimLeft_no_lead : forall s w x,
  In w whiteSpace -> strings.trimLeft s <> w ++ x.
Proof.
  intros s w x Hw. apply whiteSpace_isSpaceRune in Hw. revert Hw.
  induction s as [s IH] using string_len_ind. intros Hw.
  destruct w as [|a1 [|a2 [|a3 [|a4 w]]]]; cbn [strings.isSpaceRune] in Hw;
    try discriminate;
    (destruct s as [|c1 r1]; [discriminate|]);
    cbn [strings.trimLeft];
    (destruct (strings.asciiSpace c1) eqn:E1;
     [apply IH; [simpl; lia|exact Hw]|]);
    (destruct r1 as [|c2 r2];
     [rewrite ?append_cons, ?append_nil_l; intros [= -> ]; congruence|]);
    (destruct (strings.space2 c1 c2) eqn:E2;
     [apply IH; [simpl; lia|exact Hw]|]);
    (destruct r2 as [|c3 r3];
     [rewrite ?append_cons, ?append_nil_l; intros [= -> ]; congruence|]);
    (destruct (strings.space3 c1 c2 c3) eqn:E3;
     [apply IH; [simpl; lia|exact Hw]|]);
    rewrite ?append_cons, ?append_nil_l; intros [= -> ]; congruence.
Qed.

(** What the trimming cuts off on the right is white space. *)
Lemma trimRight_blankText : forall s,
  exists t, s = strings.trimRight s ++ t /\ blankText t.
Proof.
  induction s as [|c r IH]; [exists ""; split; [reflexivity|constructor]|].
  destruct IH as (t & Ht & Hb). cbn [strings.trimRight].
  destruct (strings.isSpaceRune (String c (strings.trimRight r))) eqn:E.
  - exists (String c (strings.trimRight r) ++ t). split.
    + rewrite append_nil_l, append_cons. now rewrite <- Ht.
    + apply blank_cons; [|exact Hb]. now apply isSpaceRune_whiteSpace.
  - exists t. split; [|exact Hb]. rewrite append_cons. now rewrite <- Ht.
Qed.

(** What is left does not end with a white-space character. *)
Lemma trimRight_no_trail : forall s w x,
  In w whiteSpace -> strings.trimRight s <> x ++ w.
Proof.
  intros s w x Hw. apply whiteSpace_isSpaceRune in Hw. revert x.
  induction s as [|c r IH]; intros x; cbn [strings.trimRight].
  - intros H. destruct x; [|discriminate]. rewrite append_nil_l in H.
    subst w. discriminate.
  - destruct (strings.isSpaceRune (String c (strings.trimRight r))) eqn:E.
    + intros H. destruct x; [|discriminate]. rewrite append_nil_l in H.
      subst w. discriminate.
    + intros H. destruct x as [|c' x'].
      * rewrite append_nil_l in H. subst w. congruence.
      * rewrite append_cons in H. inversion H; subst. now apply (IH x').
Qed.

(** The trimming of the code cuts the white space off both ends, and
    nothing else. *)
Lemma trimmed_TrimSpace (s : string) : trimmed s (strings.TrimSpace s).
Proof.
  unfold strings.TrimSpace.
  destruct (trimLeft_blankText s) as (l & Hl & Hbl).
  destruct (trimRight_blankText (strings.trimLeft s)) as (t & Ht & Hbt).
  exists l, t. split; [now rewrite <- Ht|]. split; [exact Hbl|].
  split; [exact Hbt|]. split.
  - intros w x Hw H. apply (trimLeft_no_lead s w (x ++ t) Hw).
    now rewrite Ht, H, append_assoc.
  - intros w x Hw. now apply trimRight_no_trail.
Qed.

Lemma joined_Join (texts : list string) :
  joined texts = strings.Join texts " ".
Proof.
  unfold strings.Join. induction texts as [|t ts IH]; [reflexivity|].
  destruct ts as [|t' ts']; [reflexivity|].
  cbn [joined String.concat] in *. now rewrite IH.
Qed.

(** C9.  The plain text is made of the texts of the captions in their
    order: each text loses its spans, every one from a ['<'] to the
    first ['>'] after it and nothing else; the texts are joined by
    single spaces; and the white space at the two ends of the whole is
    cut off, so that the result neither starts nor ends with a
    white-space character. *)
Theorem plain_text_extraction (captions : list Caption) :
  exists texts,
    Forall2 stripped (map Text captions) texts /\
    trimmed (joined texts) (ExtractPlainText captions).
Proof.
  exists (map (fun c => regexp.removeTags (Text c)) captions). split.
  - induction captions as [|c cs IH]; cbn [map]; constructor;
      [apply stripped_removeTags | exact IH].
  - rewrite joined_Join, ExtractPlainText_joined. apply trimmed_TrimSpace.
Qed.

End PlainTextSpec.
